(** * Utilities::MPI::Partitioner (deal.II, source/base/partitioner.cc)

    A shallow embedding of the partitioner's construction code and the proofs
    of its specification's properties.

    Conventions of the embedding:
    - the translation unit is taken as compiled with [DEAL_II_WITH_MPI]
      defined (the distributed configuration); the [DEBUG] switch, which
      decides whether [Assert] is compiled in, is a field of the environment;
    - C++ unsigned integers are [Z] with the wrap-around written out
      ([uint] for [unsigned int], [dof] for [types::global_dof_index],
      [cint] for [int]);
    - the member functions pass the partitioner explicitly and return in
      the monad [result] (with stdpp's bind notation); an exception is
      [Throw], and the partitioner it leaves behind is not modelled;
    - what the other processes contribute to a collective or a message is
      read from the environment [Env]. *)

From Stdlib Require Import ZArith Lia Bool List Sorted.
From stdpp Require Import base numbers list.

Local Open Scope Z_scope.

(** ** Machine integers *)

Definition uint (x : Z) : Z := x mod 2 ^ 32.
Definition dof (x : Z) : Z := x mod 2 ^ 64.
Definition cint (x : Z) : Z := (x + 2 ^ 31) mod 2 ^ 32 - 2 ^ 31.

(** [std::numeric_limits<unsigned int>::max()]. *)
Definition UINT_MAX : Z := 2 ^ 32 - 1.

(** Modelled from the spec: [numbers::invalid_unsigned_int] and
    [numbers::invalid_dof_index] are declared in a header that is not part of
    the sources; they are the all-ones values of LocalIndex (32 bits) and
    GlobalIndex (64 bits). *)
Definition invalid_unsigned_int : Z := 2 ^ 32 - 1.
Definition invalid_dof_index : Z := 2 ^ 64 - 1.

(** ** Exceptions and the result monad *)

Inductive Exc : Type :=
| ExcNotContiguous
| ExcIndexOverflowOwned
| ExcIndexOverflowGhost
| ExcDimensionMismatch (a b : Z)
| ExcInternalError
| ExcIndexRange (i lo hi : Z)
| ExcNotImplemented
| ExcLargerGhostSet
| ExcMPI (ierr : Z).

Inductive result (A : Type) : Type :=
| Ok (a : A)
| Throw (x : Exc).
Arguments Ok {A} a.
Arguments Throw {A} x.

#[global] Instance result_ret : MRet result := fun A a => Ok a.
#[global] Instance result_bind : MBind result := fun A B k c =>
  match c with
  | Ok a => k a
  | Throw x => Throw x
  end.

(** [AssertThrow(cond, exc)]: checked in every build. *)
Definition AssertThrow (cond : bool) (x : Exc) : result unit :=
  if cond then Ok tt else Throw x.

(** [AssertThrowMPI(ierr)]. *)
Definition MPI_SUCCESS : Z := 0.
Definition AssertThrowMPI (ierr : Z) : result unit :=
  AssertThrow (ierr =? MPI_SUCCESS) (ExcMPI ierr).

(** A [for] loop over the elements of [l] whose body may throw. *)
Fixpoint for_each {A S : Type} (l : list A) (body : S -> A -> result S)
    (s : S) : result S :=
  match l with
  | [] => Ok s
  | a :: t => s' ← body s a; for_each t body s'
  end.

(** The index values [lo, lo+1, ..., hi-1] of [for (i = lo; i < hi; ++i)]. *)
Definition upto (lo hi : Z) : list Z := seqZ lo (hi - lo).

(** ** IndexSet *)

Module IndexSet.

(** Modelled from the spec: the class [IndexSet] is a dependency whose
    source is not part of these files.  Section 2 and 6 of the
    specification give its contract: a subset of [0, size) kept as
    half-open ranges, with size, element count, contiguity test, nth
    element, membership, position within the set, range insertion, set
    difference, intersection, ascending iteration and equality. *)
Record t : Type := mk { size : Z; ranges : list (Z * Z) }.

Definition empty : t := mk 0 [].

Definition in_range (i : Z) (r : Z * Z) : bool :=
  (fst r <=? i) && (i <? snd r).

Definition in_ranges (i : Z) (l : list (Z * Z)) : bool :=
  existsb (in_range i) l.

(** Insertion of a non-empty range into a sorted list of separated
    ranges; ranges that overlap or touch are merged. *)
Fixpoint insert_range (r : Z * Z) (l : list (Z * Z)) : list (Z * Z) :=
  match l with
  | [] => [r]
  | c :: t =>
      if snd r <? fst c then r :: c :: t
      else if snd c <? fst r then c :: insert_range r t
      else insert_range (Z.min (fst r) (fst c), Z.max (snd r) (snd c)) t
  end.

Definition normalise (l : list (Z * Z)) : list (Z * Z) :=
  fold_right (fun r acc => if fst r <? snd r then insert_range r acc else acc)
             [] l.

Definition width (r : Z * Z) : Z := snd r - fst r.

Definition total (l : list (Z * Z)) : Z :=
  fold_right (fun r acc => width r + acc) 0 l.

(** Removing the range [c] from the range [r] leaves at most two pieces. *)
Definition cut (c r : Z * Z) : list (Z * Z) :=
  (if fst r <? Z.min (snd r) (fst c) then [(fst r, Z.min (snd r) (fst c))]
   else []) ++
  (if Z.max (fst r) (snd c) <? snd r then [(Z.max (fst r) (snd c), snd r)]
   else []).

Definition cut_all (c : Z * Z) (l : list (Z * Z)) : list (Z * Z) :=
  flat_map (cut c) l.

Definition meet (c r : Z * Z) : list (Z * Z) :=
  if Z.max (fst r) (fst c) <? Z.min (snd r) (snd c)
  then [(Z.max (fst r) (fst c), Z.min (snd r) (snd c))] else [].

Fixpoint nth_in (l : list (Z * Z)) (k : Z) : Z :=
  match l with
  | [] => invalid_dof_index
  | r :: t => if k <? width r then fst r + k else nth_in t (k - width r)
  end.

Fixpoint position_in (l : list (Z * Z)) (i acc : Z) : Z :=
  match l with
  | [] => invalid_dof_index
  | r :: t =>
      if i <? fst r then invalid_dof_index
      else if i <? snd r then acc + (i - fst r)
      else position_in t i (acc + width r)
  end.

(** Modelled from the spec: the operations of the contract of section 6,
    on the ranges above.  [compress] sorts and merges the ranges;
    [n_elements], [is_contiguous], [nth_index_in_set] and
    [index_within_set] read the compressed ranges; [add_range] ignores an
    empty range; [eqb] is [operator==], [intersect] is [operator&] and
    [fill_index_vector] the ascending enumeration. *)
Definition compress (s : t) : t := mk (size s) (normalise (ranges s)).
Definition set_size (n : Z) (s : t) : t := mk n (ranges s).
Definition add_range (a b : Z) (s : t) : t :=
  if a <? b then mk (size s) ((a, b) :: ranges s) else s.
Definition n_elements (s : t) : Z := total (normalise (ranges s)).
Definition is_contiguous (s : t) : bool :=
  bool_decide (length (normalise (ranges s)) <= 1)%nat.
Definition nth_index_in_set (s : t) (k : Z) : Z :=
  nth_in (normalise (ranges s)) k.
Definition is_element (s : t) (i : Z) : bool := in_ranges i (ranges s).
Definition index_within_set (s : t) (i : Z) : Z :=
  position_in (normalise (ranges s)) i 0.
Definition subtract_set (s other : t) : t :=
  mk (size s) (fold_right cut_all (ranges s) (ranges other)).
Definition intersect (s other : t) : t :=
  mk (size s)
     (normalise (flat_map (fun c => flat_map (meet c) (ranges s))
                          (ranges other))).
Definition fill_index_vector (s : t) : list Z :=
  flat_map (fun r => upto (fst r) (snd r)) (normalise (ranges s)).
Definition eqb (a b : t) : bool :=
  bool_decide (normalise (ranges a) = normalise (ranges b)).

End IndexSet.

(** ** MPI communicators *)

(** Modelled from the spec: the transport primitives are consumed, not
    defined, by the partitioner.  A communicator is a context together with
    the ordered group of the world ranks of its members;
    [comm_compare] tells identical, congruent (same group, other context),
    similar (same members, other order) and unequal communicators apart. *)
Record MPI_Comm : Type := mkComm { comm_context : Z; comm_group : list Z }.

Inductive comm_result : Type :=
| MPI_IDENT | MPI_CONGRUENT | MPI_SIMILAR | MPI_UNEQUAL.

Definition same_members (g1 g2 : list Z) : bool :=
  forallb (fun x => existsb (Z.eqb x) g2) g1 &&
  forallb (fun x => existsb (Z.eqb x) g1) g2.

Definition MPI_Comm_compare (c1 c2 : MPI_Comm) : comm_result :=
  if bool_decide (comm_group c1 = comm_group c2) then
    if comm_context c1 =? comm_context c2 then MPI_IDENT else MPI_CONGRUENT
  else if same_members (comm_group c1) (comm_group c2) then MPI_SIMILAR
  else MPI_UNEQUAL.

Fixpoint rank_in (g : list Z) (w : Z) (acc : Z) : Z :=
  match g with
  | [] => acc
  | x :: t => if x =? w then acc else rank_in t w (acc + 1)
  end.

(** ** The environment of one process *)

(** Modelled from the spec: [Utilities::MPI::job_supports_mpi],
    [this_mpi_process], [n_mpi_processes], [sum], [compute_index_owner] and
    the MPI calls are consumed interfaces (section 6).  [Env] is one
    process's view of them: its build, its rank in the world, what the other
    processes contribute to each collective, the messages they send, and the
    error code of each call. *)
Record Env : Type := mkEnv {
  debug : bool;
  job_supports_mpi : bool;
  world_rank : Z;
  others_n_ghost : Z;
  ierr_Allreduce : Z;
  root_first : Z;
  ierr_Bcast : Z;
  gathered_second : list Z;
  ierr_Allgather : Z;
  compute_index_owner : IndexSet.t -> IndexSet.t -> MPI_Comm -> list Z;
  alltoall_recv : list Z;
  ierr_Alltoall : Z;
  incoming : Z -> list Z;
  ierr_Irecv : Z -> Z;
  ierr_Isend : Z -> Z;
  ierr_Waitall : Z;
  ierr_Comm_compare : Z
}.

(** [Assert(cond, exc)]: compiled in only in a [DEBUG] build. *)
Definition Assert (e : Env) (cond : bool) (x : Exc) : result unit :=
  if debug e then AssertThrow cond x else Ok tt.

(** Modelled from the spec: [MPI_COMM_SELF] is the communicator of the
    process alone; [this_mpi_process] is the rank of the process in the
    group of a communicator and [n_mpi_processes] the size of the group. *)
Definition MPI_COMM_SELF (e : Env) : MPI_Comm := mkComm 1 [world_rank e].

Definition this_mpi_process (e : Env) (c : MPI_Comm) : Z :=
  uint (rank_in (comm_group c) (world_rank e) 0).

Definition n_mpi_processes (c : MPI_Comm) : Z :=
  uint (Z.of_nat (length (comm_group c))).

(** Modelled from the spec: [Utilities::MPI::sum] of an [unsigned int]
    ([allreduce_sum] of section 6): the sum, in [unsigned int] arithmetic,
    of the value of this process and of the values of the others; without
    MPI, the value itself. *)
Definition MPI_sum (e : Env) (own : Z) : result Z :=
  if job_supports_mpi e then
    AssertThrowMPI (ierr_Allreduce e);;
    Ok (uint (own + others_n_ghost e))
  else Ok own.

(** ** Vectors *)

(** [v[i]] read and written, and [v.size()].  Out of range, which is
    undefined behaviour in C++, a read gives the default value and a write
    does nothing. *)
Definition get {A : Type} `{Inhabited A} (v : list A) (i : Z) : A :=
  v !!! Z.to_nat i.

Definition put {A : Type} (v : list A) (i : Z) (x : A) : list A :=
  <[Z.to_nat i := x]> v.

Definition vsize {A : Type} (v : list A) : Z := Z.of_nat (length v).

(** [v.resize(n)] of a vector of integers. *)
Definition resize (n : Z) (v : list Z) : list Z :=
  take (Z.to_nat n) v ++ replicate (Z.to_nat n - length v) 0.

(** [v.back()], and an update of [v.back()] in place. *)
Definition back (v : list (Z * Z)) : Z * Z := List.last v (0, 0).

Fixpoint update_back (f : Z * Z -> Z * Z) (v : list (Z * Z)) : list (Z * Z) :=
  match v with
  | [] => []
  | [x] => [f x]
  | x :: t => x :: update_back f t
  end.

(** [v.back().second++] on a vector of pairs of [unsigned int]. *)
Definition incr_second (r : Z * Z) : Z * Z := (fst r, uint (snd r + 1)).

(** ** The partitioner *)

Record Partitioner : Type := mkPartitioner {
  global_size : Z;
  locally_owned_range_data : IndexSet.t;
  local_range_data : Z * Z;
  ghost_indices_data : IndexSet.t;
  n_ghost_indices_data : Z;
  ghost_targets_data : list (Z * Z);
  import_indices_data : list (Z * Z);
  n_import_indices_data : Z;
  import_targets_data : list (Z * Z);
  import_indices_chunks_by_rank_data : list Z;
  n_ghost_indices_in_larger_set : Z;
  ghost_indices_subset_chunks_by_rank_data : list Z;
  ghost_indices_subset_data : list (Z * Z);
  my_pid : Z;
  n_procs : Z;
  communicator : MPI_Comm;
  have_ghost_indices : bool
}.

(** Modelled from the spec: the accessors [local_size] and [n_ghost_indices]
    are defined in the class's header, which is not part of the sources;
    section 4.8 gives [local_size = local_range.second - local_range.first]
    (an [unsigned int]) and [n_ghost_indices] as the cached count. *)
Definition local_size_of (local_range : Z * Z) : Z :=
  uint (dof (snd local_range - fst local_range)).
Definition local_size (s : Partitioner) : Z :=
  local_size_of (local_range_data s).
Definition n_ghost_indices (s : Partitioner) : Z := n_ghost_indices_data s.

(** [Partitioner::Partitioner()]. *)
Definition Partitioner_default (e : Env) : Partitioner :=
  {| global_size := 0;
     locally_owned_range_data := IndexSet.empty;
     local_range_data := (0, 0);
     ghost_indices_data := IndexSet.empty;
     n_ghost_indices_data := 0;
     ghost_targets_data := [];
     import_indices_data := [];
     n_import_indices_data := 0;
     import_targets_data := [];
     import_indices_chunks_by_rank_data := [];
     n_ghost_indices_in_larger_set := 0;
     ghost_indices_subset_chunks_by_rank_data := [];
     ghost_indices_subset_data := [];
     my_pid := 0;
     n_procs := 1;
     communicator := MPI_COMM_SELF e;
     have_ghost_indices := false |}.

(** [Partitioner::Partitioner(const unsigned int size)]. *)
Definition Partitioner_size (e : Env) (size : Z) : Partitioner :=
  {| global_size := size;
     locally_owned_range_data :=
       IndexSet.compress
         (IndexSet.add_range 0 size (IndexSet.mk size []));
     local_range_data := (0, size);
     ghost_indices_data := IndexSet.set_size size IndexSet.empty;
     n_ghost_indices_data := 0;
     ghost_targets_data := [];
     import_indices_data := [];
     n_import_indices_data := 0;
     import_targets_data := [];
     import_indices_chunks_by_rank_data := [];
     n_ghost_indices_in_larger_set := 0;
     ghost_indices_subset_chunks_by_rank_data := [];
     ghost_indices_subset_data := [];
     my_pid := 0;
     n_procs := 1;
     communicator := MPI_COMM_SELF e;
     have_ghost_indices := false |}.

(** The member initialisers shared by the two constructors that take the
    owned index set and a communicator. *)
Definition Partitioner_init (locally_owned_indices : IndexSet.t)
    (communicator_in : MPI_Comm) : Partitioner :=
  {| global_size := dof (IndexSet.size locally_owned_indices);
     locally_owned_range_data := IndexSet.empty;
     local_range_data := (0, 0);
     ghost_indices_data := IndexSet.empty;
     n_ghost_indices_data := 0;
     ghost_targets_data := [];
     import_indices_data := [];
     n_import_indices_data := 0;
     import_targets_data := [];
     import_indices_chunks_by_rank_data := [];
     n_ghost_indices_in_larger_set := 0;
     ghost_indices_subset_chunks_by_rank_data := [];
     ghost_indices_subset_data := [];
     my_pid := 0;
     n_procs := 1;
     communicator := communicator_in;
     have_ghost_indices := false |}.

(** [Partitioner::set_owned_indices]. *)
Definition set_owned_indices (e : Env) (s : Partitioner)
    (locally_owned_indices : IndexSet.t) : result Partitioner :=
  let my_pid' :=
    if job_supports_mpi e then this_mpi_process e (communicator s) else 0 in
  let n_procs' :=
    if job_supports_mpi e then n_mpi_processes (communicator s) else 1 in
  (* set the local range *)
  Assert e (IndexSet.is_contiguous locally_owned_indices) ExcNotContiguous;;
  let locally_owned_indices := IndexSet.compress locally_owned_indices in
  let local_range' :=
    if 0 <? IndexSet.n_elements locally_owned_indices then
      (IndexSet.nth_index_in_set locally_owned_indices 0,
       dof (IndexSet.nth_index_in_set locally_owned_indices 0 +
            IndexSet.n_elements locally_owned_indices))
    else local_range_data s in
  AssertThrow (dof (snd local_range' - fst local_range') <? UINT_MAX)
              ExcIndexOverflowOwned;;
  let locally_owned_range' :=
    IndexSet.compress
      (IndexSet.add_range (fst local_range') (snd local_range')
         (IndexSet.set_size (IndexSet.size locally_owned_indices)
            (locally_owned_range_data s))) in
  Ok {| global_size := global_size s;
        locally_owned_range_data := locally_owned_range';
        local_range_data := local_range';
        ghost_indices_data :=
          IndexSet.set_size (IndexSet.size locally_owned_indices)
                            (ghost_indices_data s);
        n_ghost_indices_data := n_ghost_indices_data s;
        ghost_targets_data := ghost_targets_data s;
        import_indices_data := import_indices_data s;
        n_import_indices_data := n_import_indices_data s;
        import_targets_data := import_targets_data s;
        import_indices_chunks_by_rank_data :=
          import_indices_chunks_by_rank_data s;
        n_ghost_indices_in_larger_set := n_ghost_indices_in_larger_set s;
        ghost_indices_subset_chunks_by_rank_data :=
          ghost_indices_subset_chunks_by_rank_data s;
        ghost_indices_subset_data := ghost_indices_subset_data s;
        my_pid := my_pid';
        n_procs := n_procs';
        communicator := communicator s;
        have_ghost_indices := have_ghost_indices s |}.

(** ** set_ghost_indices, phase by phase *)

(** Lines 162-166: the tight ghost set, with the owned range taken out. *)
Definition normalise_ghosts (s : Partitioner) (ghost_indices_in : IndexSet.t)
    : IndexSet.t :=
  let ghost_indices_data := ghost_indices_in in
  let ghost_indices_data :=
    if negb (IndexSet.size ghost_indices_data =?
             IndexSet.size (locally_owned_range_data s))
    then IndexSet.set_size (IndexSet.size (locally_owned_range_data s))
                           ghost_indices_data
    else ghost_indices_data in
  IndexSet.compress
    (IndexSet.subtract_set ghost_indices_data (locally_owned_range_data s)).

(** What [MPI_Allgather] of one value per process leaves in the receive
    buffer of the process of rank [me]: its own value at position [me], the
    other processes' values elsewhere. *)
Definition allgather (me np own : Z) (others : list Z) : list Z :=
  map (fun i => if i =? me then own else get others i) (upto 0 np).

(** Lines 195-212: [first_index] after the broadcast of the start of rank 0
    and the all-gather of the ends. *)
Definition endpoint_exchange (e : Env) (s : Partitioner) : result (list Z) :=
  let first_index := replicate (Z.to_nat (uint (n_procs s + 1))) 0 in
  let first_index := put first_index 0 (fst (local_range_data s)) in
  let first_index :=
    if my_pid s =? 0 then first_index else put first_index 0 (root_first e) in
  AssertThrowMPI (ierr_Bcast e);;
  let first_index :=
    list_inserts 1
      (allgather (my_pid s) (n_procs s) (snd (local_range_data s))
                 (gathered_second e))
      first_index in
  AssertThrowMPI (ierr_Allgather e);;
  Ok (put first_index (n_procs s) (global_size s)).

(** Lines 222-224: forward fill of the zero entries. *)
Definition fill_zeros (np : Z) (first_index : list Z) : list Z :=
  foldl (fun fi i => if get fi i =? 0 then put fi i (get fi (i - 1)) else fi)
        first_index (upto 1 np).

(** Lines 220-234: the fixup of [first_index] and of the local range. *)
Definition local_range_fixup (e : Env) (s : Partitioner) (first_index : list Z)
    : result (list Z * (Z * Z)) :=
  if 0 <? global_size s then
    let first_index := fill_zeros (n_procs s) first_index in
    (* correct if our processor has a wrong local range *)
    if negb (get first_index (my_pid s) =? fst (local_range_data s)) then
      Assert e (fst (local_range_data s) =? snd (local_range_data s))
             ExcInternalError;;
      Ok (first_index,
          (get first_index (my_pid s), get first_index (my_pid s)))
    else Ok (first_index, local_range_data s)
  else Ok (first_index, local_range_data s).

(** Lines 243-258: the owners of the ghosts folded into runs
    [(rank, count)]. *)
Definition group_step (e : Env) (ghost_targets : list (Z * Z)) (i : Z)
    : result (list (Z * Z)) :=
  Assert e (fst (back ghost_targets) <=? i) ExcInternalError;;
  if i =? fst (back ghost_targets)
  then Ok (update_back incr_second ghost_targets)
  else Ok (ghost_targets ++ [(i, 1)]).

Definition group_ghost_targets (e : Env) (index_owner : list Z)
    : result (list (Z * Z)) :=
  let ghost_targets := [] in
  if 0 <? vsize index_owner then
    for_each index_owner (group_step e) (ghost_targets ++ [(get index_owner 0, 0)])
  else Ok ghost_targets.

(** Lines 264-268: the dense buffer of ghost counts per rank. *)
Definition fill_send_buffer (np : Z) (ghost_targets : list (Z * Z)) : list Z :=
  foldl (fun buf i =>
           put buf (fst (get ghost_targets i)) (cint (snd (get ghost_targets i))))
        (replicate (Z.to_nat np) 0)
        (upto 0 (uint (vsize ghost_targets))).

(** What [MPI_Alltoall] of one [int] per pair leaves in the receive buffer:
    the process's own entry at its rank, the others' entries elsewhere. *)
Definition alltoall (me np : Z) (send_buffer others : list Z) : list Z :=
  map (fun i => if i =? me then get send_buffer i else get others i)
      (upto 0 np).

(** Lines 280-289: the non-zero entries collapsed into import targets. *)
Definition collect_import_targets (np : Z) (receive_buffer : list Z)
    : Z * list (Z * Z) :=
  foldl (fun '(n_import_indices, import_targets_temp) i =>
           if 0 <? get receive_buffer i then
             (uint (n_import_indices + get receive_buffer i),
              import_targets_temp ++ [(i, uint (get receive_buffer i))])
           else (n_import_indices, import_targets_temp))
        (0, []) (upto 0 np).

(** Lines 263-290. *)
Definition find_import_targets (e : Env) (s : Partitioner)
    (ghost_targets : list (Z * Z)) : result (Z * list (Z * Z)) :=
  let send_buffer := fill_send_buffer (n_procs s) ghost_targets in
  let receive_buffer :=
    alltoall (my_pid s) (n_procs s) send_buffer (alltoall_recv e) in
  AssertThrowMPI (ierr_Alltoall e);;
  Ok (collect_import_targets (n_procs s) receive_buffer).

(** Lines 296-314: the receives.  After the wait, the slot of import target
    [i] holds the message of that rank; the state of the loop is the buffer
    and [current_index_start]. *)
Definition post_receives (e : Env) (n_import_indices : Z)
    (import_targets : list (Z * Z)) : result (list Z * Z) :=
  for_each (upto 0 (vsize import_targets))
    (fun '(buf, current_index_start) i =>
       let tgt := get import_targets i in
       AssertThrowMPI (ierr_Irecv e (fst tgt));;
       Ok (list_inserts (Z.to_nat current_index_start)
             (take (Z.to_nat (snd tgt)) (incoming e (fst tgt))) buf,
           uint (current_index_start + snd tgt)))
    (replicate (Z.to_nat n_import_indices) 0, 0).

(** Lines 322-336: the sends; they leave the partitioner as it is, the
    state of the loop is [current_index_start]. *)
Definition post_sends (e : Env) (ghost_targets : list (Z * Z)) : result Z :=
  for_each (upto 0 (uint (vsize ghost_targets)))
    (fun current_index_start i =>
       let tgt := get ghost_targets i in
       AssertThrowMPI (ierr_Isend e (fst tgt));;
       Ok (uint (current_index_start + snd tgt)))
    0.

(** Lines 295-345. *)
Definition exchange_indices (e : Env) (n_ghost_indices n_import_indices : Z)
    (ghost_targets import_targets : list (Z * Z)) : result (list Z) :=
  '(expanded_import_indices, current_index_start) ←
     post_receives e n_import_indices import_targets;
  Assert e (current_index_start =? n_import_indices)
         (ExcDimensionMismatch current_index_start n_import_indices);;
  current_index_start ← post_sends e ghost_targets;
  Assert e (current_index_start =? n_ghost_indices)
         (ExcDimensionMismatch current_index_start n_ghost_indices);;
  (if 0 <? vsize import_targets + uint (vsize ghost_targets)
   then AssertThrowMPI (ierr_Waitall e) else Ok tt);;
  Ok expanded_import_indices.

(** Lines 361-385: one received index [expanded_import_indices[shift + ii]]
    of a chunk, turned into a local index and appended to the ranges.  The
    state of the loop is [last_index] and [compressed_import_indices]. *)
Definition compress_step (e : Env) (local_range : Z * Z)
    (expanded_import_indices : list Z) (shift : Z)
    (st : Z * list (Z * Z)) (ii : Z) : result (Z * list (Z * Z)) :=
  let '(last_index, compressed_import_indices) := st in
  let i := uint (shift + ii) in
  Assert e ((fst local_range <=? get expanded_import_indices i) &&
            (get expanded_import_indices i <? snd local_range))
         (ExcIndexRange (get expanded_import_indices i)
                        (fst local_range) (snd local_range));;
  let new_index := dof (get expanded_import_indices i - fst local_range) in
  Assert e (new_index <? invalid_unsigned_int) ExcNotImplemented;;
  Ok (new_index,
      if new_index =? dof (last_index + 1)
      then update_back incr_second compressed_import_indices
      else compressed_import_indices ++
             [(uint new_index, uint (dof (new_index + 1)))]).

(** Lines 357-389: one chunk.  The state of the outer loop is [shift],
    [compressed_import_indices] and the chunk table. *)
Definition compress_chunk (e : Env) (local_range : Z * Z)
    (import_targets : list (Z * Z)) (expanded_import_indices : list Z)
    (st : Z * list (Z * Z) * list Z) (p : Z)
    : result (Z * list (Z * Z) * list Z) :=
  let '(shift, compressed_import_indices, chunks) := st in
  let last_index := dof (invalid_dof_index - 1) in
  '(_, compressed_import_indices) ←
     for_each (upto 0 (snd (get import_targets p)))
       (compress_step e local_range expanded_import_indices shift)
       (last_index, compressed_import_indices);
  Ok (uint (shift + snd (get import_targets p)),
      compressed_import_indices,
      put chunks (uint (p + 1)) (uint (vsize compressed_import_indices))).

(** Lines 349-402: the local compression pass; it yields
    [import_indices_chunks_by_rank_data] and [import_indices_data]. *)
Definition compress_import_indices (e : Env) (local_range : Z * Z)
    (import_targets : list (Z * Z)) (expanded_import_indices : list Z)
    (old_chunks : list Z) : result (list Z * list (Z * Z)) :=
  let chunks := resize (vsize import_targets + 1) old_chunks in
  let chunks := put chunks 0 0 in
  '(_, compressed_import_indices, chunks) ←
     for_each (upto 0 (vsize import_targets))
       (compress_chunk e local_range import_targets expanded_import_indices)
       (0, [], chunks);
  (* sanity check *)
  let n_local_dofs := dof (snd local_range - fst local_range) in
  for_each compressed_import_indices
    (fun (_ : unit) range =>
       Assert e (fst range <? n_local_dofs)
              (ExcIndexRange (fst range) 0 n_local_dofs);;
       Assert e (uint (snd range - 1) <? n_local_dofs)
              (ExcIndexRange (uint (snd range - 1)) 0 n_local_dofs))
    tt;;
  Ok (chunks, compressed_import_indices).

(** Lines 431-445: the positions of the tight ghosts in the larger set. *)
Definition expand_numbering (e : Env) (ghost_indices larger : IndexSet.t)
    : result (list Z) :=
  for_each (IndexSet.fill_index_vector ghost_indices)
    (fun expanded_numbering index =>
       Assert e (IndexSet.is_element larger index) ExcLargerGhostSet;;
       Assert e (IndexSet.index_within_set larger index <? UINT_MAX)
              ExcIndexOverflowGhost;;
       Ok (expanded_numbering ++
             [uint (IndexSet.index_within_set larger index)]))
    [].

(** Lines 455-474: the positions compressed into ranges, chunk by chunk. *)
Definition subset_step (expanded_numbering : list Z) (shift : Z)
    (st : Z * list (Z * Z)) (ii : Z) : Z * list (Z * Z) :=
  let '(last_index, ghost_indices_subset) := st in
  let i := uint (shift + ii) in
  (get expanded_numbering i,
   if get expanded_numbering i =? uint (last_index + 1)
   then update_back incr_second ghost_indices_subset
   else ghost_indices_subset ++
          [(get expanded_numbering i, uint (get expanded_numbering i + 1))]).

Definition subset_chunk (ghost_targets : list (Z * Z))
    (expanded_numbering : list Z) (st : Z * list (Z * Z) * list Z) (p : Z)
    : Z * list (Z * Z) * list Z :=
  let '(shift, ghost_indices_subset, chunks) := st in
  let last_index := uint (invalid_unsigned_int - 1) in
  let '(_, ghost_indices_subset) :=
    foldl (subset_step expanded_numbering shift)
          (last_index, ghost_indices_subset)
          (upto 0 (snd (get ghost_targets p))) in
  (uint (shift + snd (get ghost_targets p)),
   ghost_indices_subset,
   put chunks (uint (p + 1)) (uint (vsize ghost_indices_subset))).

(** Lines 406-476: the mapping into the larger ghost set; it yields
    [ghost_indices_subset_chunks_by_rank_data], [ghost_indices_subset_data]
    and [n_ghost_indices_in_larger_set]. *)
Definition larger_ghost_mapping (e : Env) (s : Partitioner)
    (local_range : Z * Z) (ghost_indices : IndexSet.t) (n_ghost_indices : Z)
    (ghost_targets : list (Z * Z)) (larger_ghost_index_set : IndexSet.t)
    : result (list Z * list (Z * Z) * Z) :=
  if IndexSet.size larger_ghost_index_set =? 0 then
    Ok ([],
        ghost_indices_subset_data s ++
          [(local_size_of local_range,
            uint (local_size_of local_range + n_ghost_indices))],
        n_ghost_indices)
  else
    Assert e (IndexSet.size larger_ghost_index_set =?
              IndexSet.size ghost_indices)
           (ExcDimensionMismatch (IndexSet.size larger_ghost_index_set)
                                 (IndexSet.size ghost_indices));;
    Assert e (IndexSet.n_elements
                (IndexSet.intersect larger_ghost_index_set
                                    (locally_owned_range_data s)) =? 0)
           ExcLargerGhostSet;;
    Assert e (IndexSet.eqb
                (IndexSet.intersect larger_ghost_index_set ghost_indices)
                ghost_indices)
           ExcLargerGhostSet;;
    (* first translate tight ghost indices into indices within the large
       set *)
    expanded_numbering ← expand_numbering e ghost_indices larger_ghost_index_set;
    (* now rework expanded_numbering into ranges *)
    let chunks :=
      resize (vsize ghost_targets + 1)
             (ghost_indices_subset_chunks_by_rank_data s) in
    let chunks := put chunks 0 0 in
    let '(_, ghost_indices_subset, chunks) :=
      foldl (subset_chunk ghost_targets expanded_numbering)
            (0, [], chunks) (upto 0 (vsize ghost_targets)) in
    Ok (chunks, ghost_indices_subset,
        uint (IndexSet.n_elements larger_ghost_index_set)).

(** ** set_ghost_indices *)

(** [Partitioner::set_ghost_indices].  A call without a larger ghost set
    passes the default argument, an [IndexSet] of size 0. *)
Definition set_ghost_indices (e : Env) (s : Partitioner)
    (ghost_indices_in larger_ghost_index_set : IndexSet.t)
    : result Partitioner :=
  Assert e ((IndexSet.n_elements ghost_indices_in =? 0) ||
            (IndexSet.size ghost_indices_in =?
             IndexSet.size (locally_owned_range_data s)))
         (ExcDimensionMismatch (IndexSet.size ghost_indices_in)
            (IndexSet.size (locally_owned_range_data s)));;
  let ghost_indices := normalise_ghosts s ghost_indices_in in
  AssertThrow (IndexSet.n_elements ghost_indices <? UINT_MAX)
              ExcIndexOverflowGhost;;
  let n_ghost_indices := uint (IndexSet.n_elements ghost_indices) in
  total ← MPI_sum e n_ghost_indices;
  let have_ghost_indices' := 0 <? total in
  if n_procs s <? 2 then
    Assert e (IndexSet.n_elements ghost_indices =? 0) ExcInternalError;;
    Assert e (n_import_indices_data s =? 0) ExcInternalError;;
    Assert e (n_ghost_indices =? 0) ExcInternalError;;
    Ok {| global_size := global_size s;
          locally_owned_range_data := locally_owned_range_data s;
          local_range_data := local_range_data s;
          ghost_indices_data := ghost_indices;
          n_ghost_indices_data := n_ghost_indices;
          ghost_targets_data := ghost_targets_data s;
          import_indices_data := import_indices_data s;
          n_import_indices_data := n_import_indices_data s;
          import_targets_data := import_targets_data s;
          import_indices_chunks_by_rank_data :=
            import_indices_chunks_by_rank_data s;
          n_ghost_indices_in_larger_set := n_ghost_indices_in_larger_set s;
          ghost_indices_subset_chunks_by_rank_data :=
            ghost_indices_subset_chunks_by_rank_data s;
          ghost_indices_subset_data := ghost_indices_subset_data s;
          my_pid := my_pid s;
          n_procs := n_procs s;
          communicator := communicator s;
          have_ghost_indices := have_ghost_indices' |}
  else
    first_index ← endpoint_exchange e s;
    '(_, local_range) ← local_range_fixup e s first_index;
    ghost_targets ←
      group_ghost_targets e
        (compute_index_owner e (locally_owned_range_data s) ghost_indices
                             (communicator s));
    (* find the processes that want to import to me *)
    '(n_import_indices, import_targets) ← find_import_targets e s ghost_targets;
    expanded_import_indices ←
      exchange_indices e n_ghost_indices n_import_indices
                       ghost_targets import_targets;
    '(import_chunks, import_indices) ←
      compress_import_indices e local_range import_targets
        expanded_import_indices (import_indices_chunks_by_rank_data s);
    '(subset_chunks, subset, n_larger) ←
      larger_ghost_mapping e s local_range ghost_indices n_ghost_indices
                           ghost_targets larger_ghost_index_set;
    Ok {| global_size := global_size s;
          locally_owned_range_data := locally_owned_range_data s;
          local_range_data := local_range;
          ghost_indices_data := ghost_indices;
          n_ghost_indices_data := n_ghost_indices;
          ghost_targets_data := ghost_targets;
          import_indices_data := import_indices;
          n_import_indices_data := n_import_indices;
          import_targets_data := import_targets;
          import_indices_chunks_by_rank_data := import_chunks;
          n_ghost_indices_in_larger_set := n_larger;
          ghost_indices_subset_chunks_by_rank_data := subset_chunks;
          ghost_indices_subset_data := subset;
          my_pid := my_pid s;
          n_procs := n_procs s;
          communicator := communicator s;
          have_ghost_indices := have_ghost_indices' |}.

(** [Partitioner::Partitioner(locally_owned_indices, ghost_indices_in,
    communicator_in)]. *)
Definition Partitioner_owned_ghost (e : Env)
    (locally_owned_indices ghost_indices_in : IndexSet.t)
    (communicator_in : MPI_Comm) : result Partitioner :=
  s ← set_owned_indices e
        (Partitioner_init locally_owned_indices communicator_in)
        locally_owned_indices;
  set_ghost_indices e s ghost_indices_in IndexSet.empty.

(** [Partitioner::Partitioner(locally_owned_indices, communicator_in)]. *)
Definition Partitioner_owned (e : Env) (locally_owned_indices : IndexSet.t)
    (communicator_in : MPI_Comm) : result Partitioner :=
  set_owned_indices e (Partitioner_init locally_owned_indices communicator_in)
                    locally_owned_indices.

(** [Partitioner::reinit]. *)
Definition reinit (e : Env) (s : Partitioner)
    (vector_space_vector_index_set read_write_vector_index_set : IndexSet.t)
    (communicator_in : MPI_Comm) : result Partitioner :=
  let s :=
    {| global_size := global_size s;
       locally_owned_range_data := locally_owned_range_data s;
       local_range_data := local_range_data s;
       ghost_indices_data := ghost_indices_data s;
       n_ghost_indices_data := n_ghost_indices_data s;
       ghost_targets_data := ghost_targets_data s;
       import_indices_data := import_indices_data s;
       n_import_indices_data := n_import_indices_data s;
       import_targets_data := import_targets_data s;
       import_indices_chunks_by_rank_data :=
         import_indices_chunks_by_rank_data s;
       n_ghost_indices_in_larger_set := n_ghost_indices_in_larger_set s;
       ghost_indices_subset_chunks_by_rank_data :=
         ghost_indices_subset_chunks_by_rank_data s;
       ghost_indices_subset_data := ghost_indices_subset_data s;
       my_pid := my_pid s;
       n_procs := n_procs s;
       communicator := communicator_in;
       have_ghost_indices := false |} in
  s ← set_owned_indices e s vector_space_vector_index_set;
  set_ghost_indices e s read_write_vector_index_set IndexSet.empty.

(** ** Compatibility *)

(** [Partitioner::is_compatible].  The two partitioners are objects of a
    store, named by their addresses, so that [&part == this] can be told.
    [std::pair] and [IndexSet] are compared with their [operator==]. *)
Definition pair_eqb (a b : Z * Z) : bool :=
  (fst a =? fst b) && (snd a =? snd b).

Definition is_compatible (e : Env) (store : Z -> Partitioner)
    (this part : Z) : result bool :=
  (* if the partitioner points to the same memory location as the calling
     processor *)
  if part =? this then Ok true
  else
    comm_ok ←
      (if job_supports_mpi e then
         let communicators_same :=
           MPI_Comm_compare (communicator (store part))
                            (communicator (store this)) in
         AssertThrowMPI (ierr_Comm_compare e);;
         Ok (match communicators_same with
             | MPI_IDENT | MPI_CONGRUENT => true
             | _ => false
             end)
       else Ok true);
    if negb comm_ok then Ok false
    else
      Ok ((global_size (store this) =? global_size (store part)) &&
          pair_eqb (local_range_data (store this))
                   (local_range_data (store part)) &&
          IndexSet.eqb (ghost_indices_data (store this))
                       (ghost_indices_data (store part))).

(** Modelled from the spec: [Utilities::MPI::min] of an [int]
    ([allreduce_min] of section 6): the least of the value of this process
    and of the values [others] of the other processes; without MPI, the
    value itself. *)
Definition MPI_min (e : Env) (own : Z) (others : list Z) : result Z :=
  if job_supports_mpi e then
    AssertThrowMPI (ierr_Allreduce e);;
    Ok (fold_right Z.min own others)
  else Ok own.

(** [Partitioner::is_globally_compatible]; [others] holds what
    [is_compatible] gave on the other processes, as [int]. *)
Definition is_globally_compatible (e : Env) (store : Z -> Partitioner)
    (this part : Z) (others : list Z) : result bool :=
  is_compatible e store this part ≫= fun compatible : bool =>
  least ← MPI_min e (if compatible then 1 else 0) others;
  Ok (least =? 1).

(** ** Vocabulary of the specification *)

(** The sum of the counts of a list of targets [(rank, count)]. *)
Definition sum_counts (targets : list (Z * Z)) : Z :=
  fold_right (fun t acc => snd t + acc) 0 targets.

(** The local ranges of the processes, in rank order, lay out [cur, N):
    a process that owns something holds its tile, which starts where the
    tiles before it end; a process that owns nothing holds [0,0) (what
    [set_owned_indices] leaves in a new partitioner, see the comment at
    lines 214-219) or the empty range at its place (what an earlier fixup
    left). *)
Fixpoint laid_out (cur : Z) (local_ranges : list (Z * Z)) (N : Z) : Prop :=
  match local_ranges with
  | [] => cur = N
  | r :: t =>
      (fst r = snd r /\ (fst r = 0 \/ fst r = cur) /\ laid_out cur t N) \/
      (fst r < snd r /\ fst r = cur /\ laid_out (snd r) t N)
  end.

(** Where the range of each process starts in such a layout. *)
Fixpoint starts (cur : Z) (local_ranges : list (Z * Z)) : list Z :=
  match local_ranges with
  | [] => []
  | r :: t => cur :: starts (if fst r <? snd r then snd r else cur) t
  end.

(** The forward fill of the first [n] entries of [l], after an entry
    [prev]. *)
Fixpoint fill_n (n : nat) (prev : Z) (l : list Z) : list Z :=
  match n, l with
  | S n', y :: t =>
      let y' := if y =? 0 then prev else y in y' :: fill_n n' y' t
  | _, _ => l
  end.

(** The local indices that a list of ranges [[a, b)] stands for. *)
Definition decode (ranges : list (Z * Z)) : list Z :=
  flat_map (fun r => upto (fst r) (snd r)) ranges.

(** Ranges that are non-empty, strictly ascending and not adjacent: each
    ends before the next one starts. *)
Definition separated (ranges : list (Z * Z)) : Prop :=
  Forall (fun r => fst r < snd r) ranges /\
  Sorted (fun r1 r2 => snd r1 < fst r2) ranges.

(** The entries [lo, hi) of a vector. *)
Definition slice {A : Type} (v : list A) (lo hi : Z) : list A :=
  take (Z.to_nat (hi - lo)) (drop (Z.to_nat lo) v).

(** Where the indices of chunk [p] start in the receive buffer, and the
    indices received for chunk [p]. *)
Definition chunk_start (targets : list (Z * Z)) (p : Z) : Z :=
  sum_counts (take (Z.to_nat p) targets).

Definition received_chunk (targets : list (Z * Z)) (expanded : list Z) (p : Z)
    : list Z :=
  slice expanded (chunk_start targets p)
        (chunk_start targets p + snd (get targets p)).

(** The ranges that the compression stored for chunk [p]. *)
Definition stored_chunk (chunks : list Z) (ranges : list (Z * Z)) (p : Z)
    : list (Z * Z) :=
  slice ranges (get chunks p) (get chunks (p + 1)).

(** The body of the inner compression loop as a function of the received
    index it reads. *)
Definition compress_value (e : Env) (local_range : Z * Z)
    (st : Z * list (Z * Z)) (x : Z) : result (Z * list (Z * Z)) :=
  Assert e ((fst local_range <=? x) && (x <? snd local_range))
         (ExcIndexRange x (fst local_range) (snd local_range));;
  Assert e (dof (x - fst local_range) <? invalid_unsigned_int)
         ExcNotImplemented;;
  Ok (dof (x - fst local_range),
      if dof (x - fst local_range) =? dof (fst st + 1)
      then update_back incr_second (snd st)
      else snd st ++ [(uint (dof (x - fst local_range)),
                       uint (dof (dof (x - fst local_range) + 1)))]).

(** The fields that every successful call sets in the same way. *)
Definition common_fields (s : Partitioner) (ghost_indices_in : IndexSet.t)
    (s' : Partitioner) : Prop :=
  IndexSet.n_elements (normalise_ghosts s ghost_indices_in) < UINT_MAX /\
  ghost_indices_data s' = normalise_ghosts s ghost_indices_in /\
  n_ghost_indices_data s' =
    uint (IndexSet.n_elements (normalise_ghosts s ghost_indices_in)) /\
  locally_owned_range_data s' = locally_owned_range_data s /\
  global_size s' = global_size s /\
  my_pid s' = my_pid s /\
  n_procs s' = n_procs s /\
  communicator s' = communicator s.

(** The fields that the early return leaves alone. *)
Definition plan_unchanged (s s' : Partitioner) : Prop :=
  local_range_data s' = local_range_data s /\
  ghost_targets_data s' = ghost_targets_data s /\
  import_targets_data s' = import_targets_data s /\
  import_indices_data s' = import_indices_data s /\
  import_indices_chunks_by_rank_data s' =
    import_indices_chunks_by_rank_data s /\
  n_import_indices_data s' = n_import_indices_data s /\
  ghost_indices_subset_data s' = ghost_indices_subset_data s /\
  ghost_indices_subset_chunks_by_rank_data s' =
    ghost_indices_subset_chunks_by_rank_data s /\
  n_ghost_indices_in_larger_set s' = n_ghost_indices_in_larger_set s.

(** The fields that the run with two or more processes computes. *)
Definition plan_built (e : Env) (s : Partitioner)
    (ghost_indices_in larger : IndexSet.t) (s' : Partitioner) : Prop :=
  exists first_index first_index',
    endpoint_exchange e s = Ok first_index /\
    local_range_fixup e s first_index =
      Ok (first_index', local_range_data s') /\
    group_ghost_targets e
      (compute_index_owner e (locally_owned_range_data s)
         (normalise_ghosts s ghost_indices_in) (communicator s)) =
      Ok (ghost_targets_data s') /\
    find_import_targets e s (ghost_targets_data s') =
      Ok (n_import_indices_data s', import_targets_data s') /\
    exists expanded_import_indices,
      exchange_indices e (n_ghost_indices_data s') (n_import_indices_data s')
        (ghost_targets_data s') (import_targets_data s') =
        Ok expanded_import_indices /\
      compress_import_indices e (local_range_data s') (import_targets_data s')
        expanded_import_indices (import_indices_chunks_by_rank_data s) =
        Ok (import_indices_chunks_by_rank_data s', import_indices_data s') /\
      larger_ghost_mapping e s (local_range_data s') (ghost_indices_data s')
        (n_ghost_indices_data s') (ghost_targets_data s') larger =
        Ok (ghost_indices_subset_chunks_by_rank_data s',
            ghost_indices_subset_data s',
            n_ghost_indices_in_larger_set s').

(** The owner of each ghost that a list of targets [(rank, count)] stands
    for: [count] times [rank], target after target. *)
Definition expand_targets (targets : list (Z * Z)) : list Z :=
  flat_map (fun t => replicate (Z.to_nat (snd t)) (fst t)) targets.

(** The plan and the cached counts, which [set_owned_indices] leaves as
    they are. *)
Definition plan_unchanged_but_range (s s' : Partitioner) : Prop :=
  n_ghost_indices_data s' = n_ghost_indices_data s /\
  ghost_targets_data s' = ghost_targets_data s /\
  import_targets_data s' = import_targets_data s /\
  import_indices_data s' = import_indices_data s /\
  import_indices_chunks_by_rank_data s' =
    import_indices_chunks_by_rank_data s /\
  n_import_indices_data s' = n_import_indices_data s /\
  ghost_indices_subset_data s' = ghost_indices_subset_data s /\
  ghost_indices_subset_chunks_by_rank_data s' =
    ghost_indices_subset_chunks_by_rank_data s /\
  n_ghost_indices_in_larger_set s' = n_ghost_indices_in_larger_set s.

(** The body of the receive loop as a function of the import target it
    reads. *)
Definition receive_from (e : Env) (st : list Z * Z) (tgt : Z * Z)
    : result (list Z * Z) :=
  AssertThrowMPI (ierr_Irecv e (fst tgt));;
  Ok (list_inserts (Z.to_nat (snd st))
        (take (Z.to_nat (snd tgt)) (incoming e (fst tgt))) (fst st),
      uint (snd st + snd tgt)).

(** The messages of the senders of a list of import targets, one after the
    other. *)
Definition messages (e : Env) (import_targets : list (Z * Z)) : list Z :=
  flat_map (fun t => incoming e (fst t)) import_targets.

(** The body of the inner loop of the larger-ghost mapping as a function of
    the position it reads. *)
Definition subset_value (st : Z * list (Z * Z)) (x : Z) : Z * list (Z * Z) :=
  (x,
   if x =? uint (fst st + 1)
   then update_back incr_second (snd st)
   else snd st ++ [(x, uint (x + 1))]).

(** A position that the larger-ghost mapping can store, and a range of
    such positions. *)
Definition position_fits (x : Z) : Prop := 0 <= x < 2 ^ 32 - 1.
Definition range_fits (r : Z * Z) : Prop :=
  0 <= fst r /\ fst r < snd r <= 2 ^ 32 - 1.

(** ** Concrete processes

    The processes of the specification's scenarios, on which the
    definitions are run. *)

(** A process of world rank [rank] in a debug build under MPI, whose
    collectives and messages succeed: the other processes hold
    [others_ghost] ghosts in total, end their ranges at [gathered], own the
    tight ghosts as [owners] says, request [recv] indices, and send the
    messages [msgs]. *)
Definition scenario_env (rank others_ghost : Z) (gathered owners recv : list Z)
    (msgs : Z -> list Z) : Env :=
  {| debug := true;
     job_supports_mpi := true;
     world_rank := rank;
     others_n_ghost := others_ghost;
     ierr_Allreduce := MPI_SUCCESS;
     root_first := 0;
     ierr_Bcast := MPI_SUCCESS;
     gathered_second := gathered;
     ierr_Allgather := MPI_SUCCESS;
     compute_index_owner := fun _ _ _ => owners;
     alltoall_recv := recv;
     ierr_Alltoall := MPI_SUCCESS;
     incoming := msgs;
     ierr_Irecv := fun _ => MPI_SUCCESS;
     ierr_Isend := fun _ => MPI_SUCCESS;
     ierr_Waitall := MPI_SUCCESS;
     ierr_Comm_compare := MPI_SUCCESS |}.

(** A process on its own. *)
Definition quiet_env (rank : Z) : Env :=
  scenario_env rank 0 [] [] [] (fun _ => []).

Definition comm_pair : MPI_Comm := mkComm 7 [0; 1].
Definition comm_triple : MPI_Comm := mkComm 7 [0; 1; 2].

(** Scenario S2 (P = 2, N = 10).  Rank 0 owns [0,5) and reads the ghosts 5
    and 6, both owned by rank 1; rank 1 owns [5,10) and reads no ghost. *)
Definition s2_env0 : Env :=
  scenario_env 0 0 [5; 10] [1; 1] [0; 0] (fun _ => []).
Definition s2_env1 : Env :=
  scenario_env 1 2 [5; 10] [] [2; 0] (fun r => if r =? 0 then [5; 6] else []).

Definition s2_owned0 : IndexSet.t := IndexSet.mk 10 [(0, 5)].
Definition s2_ghost0 : IndexSet.t := IndexSet.mk 10 [(5, 7)].
Definition s2_owned1 : IndexSet.t := IndexSet.mk 10 [(5, 10)].

(** Rank 0 of scenario S2 after [set_owned_indices]. *)
Definition s2_owned_state : Partitioner :=
  {| global_size := 10;
     locally_owned_range_data := IndexSet.mk 10 [(0, 5)];
     local_range_data := (0, 5);
     ghost_indices_data := IndexSet.mk 10 [];
     n_ghost_indices_data := 0;
     ghost_targets_data := [];
     import_indices_data := [];
     n_import_indices_data := 0;
     import_targets_data := [];
     import_indices_chunks_by_rank_data := [];
     n_ghost_indices_in_larger_set := 0;
     ghost_indices_subset_chunks_by_rank_data := [];
     ghost_indices_subset_data := [];
     my_pid := 0;
     n_procs := 2;
     communicator := comm_pair;
     have_ghost_indices := false |}.

(** Rank 0 of scenario S2 after one [set_ghost_indices], and after two. *)
Definition s2_ready_state : Partitioner :=
  {| global_size := 10;
     locally_owned_range_data := IndexSet.mk 10 [(0, 5)];
     local_range_data := (0, 5);
     ghost_indices_data := IndexSet.mk 10 [(5, 7)];
     n_ghost_indices_data := 2;
     ghost_targets_data := [(1, 2)];
     import_indices_data := [];
     n_import_indices_data := 0;
     import_targets_data := [];
     import_indices_chunks_by_rank_data := [0];
     n_ghost_indices_in_larger_set := 2;
     ghost_indices_subset_chunks_by_rank_data := [];
     ghost_indices_subset_data := [(5, 7)];
     my_pid := 0;
     n_procs := 2;
     communicator := comm_pair;
     have_ghost_indices := true |}.

Definition s2_twice_state : Partitioner :=
  {| global_size := 10;
     locally_owned_range_data := IndexSet.mk 10 [(0, 5)];
     local_range_data := (0, 5);
     ghost_indices_data := IndexSet.mk 10 [(5, 7)];
     n_ghost_indices_data := 2;
     ghost_targets_data := [(1, 2)];
     import_indices_data := [];
     n_import_indices_data := 0;
     import_targets_data := [];
     import_indices_chunks_by_rank_data := [0];
     n_ghost_indices_in_larger_set := 2;
     ghost_indices_subset_chunks_by_rank_data := [];
     ghost_indices_subset_data := [(5, 7); (5, 7)];
     my_pid := 0;
     n_procs := 2;
     communicator := comm_pair;
     have_ghost_indices := true |}.

(** Rank 1 of scenario S2 after construction. *)
Definition s2_rank1_state : Partitioner :=
  {| global_size := 10;
     locally_owned_range_data := IndexSet.mk 10 [(5, 10)];
     local_range_data := (5, 10);
     ghost_indices_data := IndexSet.mk 10 [];
     n_ghost_indices_data := 0;
     ghost_targets_data := [];
     import_indices_data := [(0, 2)];
     n_import_indices_data := 2;
     import_targets_data := [(0, 2)];
     import_indices_chunks_by_rank_data := [0; 1];
     n_ghost_indices_in_larger_set := 0;
     ghost_indices_subset_chunks_by_rank_data := [];
     ghost_indices_subset_data := [(5, 5)];
     my_pid := 1;
     n_procs := 2;
     communicator := comm_pair;
     have_ghost_indices := true |}.

(** Rank 1 of scenario S2 after [set_owned_indices]. *)
Definition s2_owned1_state : Partitioner :=
  {| global_size := 10;
     locally_owned_range_data := IndexSet.mk 10 [(5, 10)];
     local_range_data := (5, 10);
     ghost_indices_data := IndexSet.mk 10 [];
     n_ghost_indices_data := 0;
     ghost_targets_data := [];
     import_indices_data := [];
     n_import_indices_data := 0;
     import_targets_data := [];
     import_indices_chunks_by_rank_data := [];
     n_ghost_indices_in_larger_set := 0;
     ghost_indices_subset_chunks_by_rank_data := [];
     ghost_indices_subset_data := [];
     my_pid := 1;
     n_procs := 2;
     communicator := comm_pair;
     have_ghost_indices := false |}.

(** A store with the partitioner of rank 0 of scenario S2 at address 1 in
    its state after two calls, and in its state after one call at every
    other address. *)
Definition s2_store (addr : Z) : Partitioner :=
  if addr =? 1 then s2_twice_state else s2_ready_state.

(** Scenarios S3 and S6 (P = 3, N = 12, owned [0,4), [4,8), [8,12)).
    Rank 1 reads the ghosts 3 and 8, owned by ranks 0 and 2; in S6 it lays
    them out in the larger ghost set {2, 3, 8, 9}. *)
Definition s3_env1 : Env :=
  scenario_env 1 0 [4; 8; 12] [0; 2] [0; 0; 0] (fun _ => []).
Definition s3_owned1 : IndexSet.t := IndexSet.mk 12 [(4, 8)].
Definition s3_ghost1 : IndexSet.t := IndexSet.mk 12 [(3, 4); (8, 9)].
Definition s6_larger1 : IndexSet.t := IndexSet.mk 12 [(2, 4); (8, 10)].

Definition s3_owned_state : Partitioner :=
  {| global_size := 12;
     locally_owned_range_data := IndexSet.mk 12 [(4, 8)];
     local_range_data := (4, 8);
     ghost_indices_data := IndexSet.mk 12 [];
     n_ghost_indices_data := 0;
     ghost_targets_data := [];
     import_indices_data := [];
     n_import_indices_data := 0;
     import_targets_data := [];
     import_indices_chunks_by_rank_data := [];
     n_ghost_indices_in_larger_set := 0;
     ghost_indices_subset_chunks_by_rank_data := [];
     ghost_indices_subset_data := [];
     my_pid := 1;
     n_procs := 3;
     communicator := comm_triple;
     have_ghost_indices := false |}.

Definition s3_ready_state : Partitioner :=
  {| global_size := 12;
     locally_owned_range_data := IndexSet.mk 12 [(4, 8)];
     local_range_data := (4, 8);
     ghost_indices_data := IndexSet.mk 12 [(3, 4); (8, 9)];
     n_ghost_indices_data := 2;
     ghost_targets_data := [(0, 1); (2, 1)];
     import_indices_data := [];
     n_import_indices_data := 0;
     import_targets_data := [];
     import_indices_chunks_by_rank_data := [0];
     n_ghost_indices_in_larger_set := 2;
     ghost_indices_subset_chunks_by_rank_data := [];
     ghost_indices_subset_data := [(4, 6)];
     my_pid := 1;
     n_procs := 3;
     communicator := comm_triple;
     have_ghost_indices := true |}.

Definition s6_ready_state : Partitioner :=
  {| global_size := 12;
     locally_owned_range_data := IndexSet.mk 12 [(4, 8)];
     local_range_data := (4, 8);
     ghost_indices_data := IndexSet.mk 12 [(3, 4); (8, 9)];
     n_ghost_indices_data := 2;
     ghost_targets_data := [(0, 1); (2, 1)];
     import_indices_data := [];
     n_import_indices_data := 0;
     import_targets_data := [];
     import_indices_chunks_by_rank_data := [0];
     n_ghost_indices_in_larger_set := 4;
     ghost_indices_subset_chunks_by_rank_data := [0; 1; 2];
     ghost_indices_subset_data := [(1, 2); (2, 3)];
     my_pid := 1;
     n_procs := 3;
     communicator := comm_triple;
     have_ghost_indices := true |}.

(** Scenario S4 (P = 2, N = 100).  Rank 0 owns [0,50); rank 1 reads the
    ghosts 10, 11, 12 and 20. *)
Definition s4_env0 : Env :=
  scenario_env 0 4 [50; 100] [] [0; 4]
               (fun r => if r =? 1 then [10; 11; 12; 20] else []).
Definition s4_owned0 : IndexSet.t := IndexSet.mk 100 [(0, 50)].

Definition s4_rank0_state : Partitioner :=
  {| global_size := 100;
     locally_owned_range_data := IndexSet.mk 100 [(0, 50)];
     local_range_data := (0, 50);
     ghost_indices_data := IndexSet.mk 100 [];
     n_ghost_indices_data := 0;
     ghost_targets_data := [];
     import_indices_data := [(10, 13); (20, 21)];
     n_import_indices_data := 4;
     import_targets_data := [(1, 4)];
     import_indices_chunks_by_rank_data := [0; 2];
     n_ghost_indices_in_larger_set := 0;
     ghost_indices_subset_chunks_by_rank_data := [];
     ghost_indices_subset_data := [(50, 50)];
     my_pid := 0;
     n_procs := 2;
     communicator := comm_pair;
     have_ghost_indices := true |}.

(** Rank 0 of scenario S4 after [set_owned_indices]. *)
Definition s4_owned_state : Partitioner :=
  {| global_size := 100;
     locally_owned_range_data := IndexSet.mk 100 [(0, 50)];
     local_range_data := (0, 50);
     ghost_indices_data := IndexSet.mk 100 [];
     n_ghost_indices_data := 0;
     ghost_targets_data := [];
     import_indices_data := [];
     n_import_indices_data := 0;
     import_targets_data := [];
     import_indices_chunks_by_rank_data := [];
     n_ghost_indices_in_larger_set := 0;
     ghost_indices_subset_chunks_by_rank_data := [];
     ghost_indices_subset_data := [];
     my_pid := 0;
     n_procs := 2;
     communicator := comm_pair;
     have_ghost_indices := false |}.

(** Scenario S5 (P = 3, N = 8): the ranks own nothing, [0,8) and nothing.
    Rank 2 is the process at hand. *)
Definition s5_env2 : Env :=
  scenario_env 2 0 [0; 8; 0] [] [0; 0; 0] (fun _ => []).
Definition s5_local_ranges : list (Z * Z) := [(0, 0); (0, 8); (0, 0)].

Definition s5_owned_state : Partitioner :=
  {| global_size := 8;
     locally_owned_range_data := IndexSet.mk 8 [];
     local_range_data := (0, 0);
     ghost_indices_data := IndexSet.mk 8 [];
     n_ghost_indices_data := 0;
     ghost_targets_data := [];
     import_indices_data := [];
     n_import_indices_data := 0;
     import_targets_data := [];
     import_indices_chunks_by_rank_data := [];
     n_ghost_indices_in_larger_set := 0;
     ghost_indices_subset_chunks_by_rank_data := [];
     ghost_indices_subset_data := [];
     my_pid := 2;
     n_procs := 3;
     communicator := comm_triple;
     have_ghost_indices := false |}.

(** Rank 1 of scenario S5, the owner of [0,8), after [set_owned_indices]. *)
Definition s5_env1 : Env :=
  scenario_env 1 0 [0; 8; 0] [] [0; 0; 0] (fun _ => []).

Definition s5_owner_state : Partitioner :=
  {| global_size := 8;
     locally_owned_range_data := IndexSet.mk 8 [(0, 8)];
     local_range_data := (0, 8);
     ghost_indices_data := IndexSet.mk 8 [];
     n_ghost_indices_data := 0;
     ghost_targets_data := [];
     import_indices_data := [];
     n_import_indices_data := 0;
     import_targets_data := [];
     import_indices_chunks_by_rank_data := [];
     n_ghost_indices_in_larger_set := 0;
     ghost_indices_subset_chunks_by_rank_data := [];
     ghost_indices_subset_data := [];
     my_pid := 1;
     n_procs := 3;
     communicator := comm_triple;
     have_ghost_indices := false |}.

(** A new partitioner that [reinit] sets up as rank 2 of scenario S5, after
    the [set_owned_indices] of [reinit]: [global_size] is still the 0 of
    the default constructor. *)
Definition s5_reinit_state : Partitioner :=
  {| global_size := 0;
     locally_owned_range_data := IndexSet.mk 8 [];
     local_range_data := (0, 0);
     ghost_indices_data := IndexSet.mk 8 [];
     n_ghost_indices_data := 0;
     ghost_targets_data := [];
     import_indices_data := [];
     n_import_indices_data := 0;
     import_targets_data := [];
     import_indices_chunks_by_rank_data := [];
     n_ghost_indices_in_larger_set := 0;
     ghost_indices_subset_chunks_by_rank_data := [];
     ghost_indices_subset_data := [];
     my_pid := 2;
     n_procs := 3;
     communicator := comm_triple;
     have_ghost_indices := false |}.

(** Rank 0 of scenario S2 when [reinit] moves it, with the owned set
    [0,10), onto the communicator of the process alone, after the
    [set_owned_indices] of [reinit]: the plan of scenario S2 is still
    there. *)
Definition s2_alone_state : Partitioner :=
  {| global_size := 10;
     locally_owned_range_data := IndexSet.mk 10 [(0, 10)];
     local_range_data := (0, 10);
     ghost_indices_data := IndexSet.mk 10 [(5, 7)];
     n_ghost_indices_data := 2;
     ghost_targets_data := [(1, 2)];
     import_indices_data := [];
     n_import_indices_data := 0;
     import_targets_data := [];
     import_indices_chunks_by_rank_data := [0];
     n_ghost_indices_in_larger_set := 2;
     ghost_indices_subset_chunks_by_rank_data := [];
     ghost_indices_subset_data := [(5, 7)];
     my_pid := 0;
     n_procs := 1;
     communicator := mkComm 1 [0];
     have_ghost_indices := false |}.

(** A process on its own that owns [0,10) and still carries the plan of
    an earlier use among two processes. *)
Definition alone_state : Partitioner :=
  {| global_size := 10;
     locally_owned_range_data := IndexSet.mk 10 [(0, 10)];
     local_range_data := (0, 10);
     ghost_indices_data := IndexSet.mk 10 [(5, 7)];
     n_ghost_indices_data := 2;
     ghost_targets_data := [(1, 2)];
     import_indices_data := [];
     n_import_indices_data := 0;
     import_targets_data := [];
     import_indices_chunks_by_rank_data := [0];
     n_ghost_indices_in_larger_set := 2;
     ghost_indices_subset_chunks_by_rank_data := [];
     ghost_indices_subset_data := [(5, 7)];
     my_pid := 0;
     n_procs := 1;
     communicator := mkComm 1 [0];
     have_ghost_indices := true |}.

(** A release build in which rank 1 of three, N = 8, held [3,7) from an
    earlier use and is given an empty owned set, while rank 0 owns [0,8). *)
Definition stale_env1 : Env :=
  {| debug := false;
     job_supports_mpi := true;
     world_rank := 1;
     others_n_ghost := 0;
     ierr_Allreduce := MPI_SUCCESS;
     root_first := 0;
     ierr_Bcast := MPI_SUCCESS;
     gathered_second := [8; 7; 0];
     ierr_Allgather := MPI_SUCCESS;
     compute_index_owner := fun _ _ _ => [];
     alltoall_recv := [0; 0; 0];
     ierr_Alltoall := MPI_SUCCESS;
     incoming := fun _ => [];
     ierr_Irecv := fun _ => MPI_SUCCESS;
     ierr_Isend := fun _ => MPI_SUCCESS;
     ierr_Waitall := MPI_SUCCESS;
     ierr_Comm_compare := MPI_SUCCESS |}.

Definition stale_owned_state : Partitioner :=
  {| global_size := 8;
     locally_owned_range_data := IndexSet.mk 8 [(3, 7)];
     local_range_data := (3, 7);
     ghost_indices_data := IndexSet.mk 8 [];
     n_ghost_indices_data := 0;
     ghost_targets_data := [];
     import_indices_data := [];
     n_import_indices_data := 0;
     import_targets_data := [];
     import_indices_chunks_by_rank_data := [];
     n_ghost_indices_in_larger_set := 0;
     ghost_indices_subset_chunks_by_rank_data := [];
     ghost_indices_subset_data := [];
     my_pid := 1;
     n_procs := 3;
     communicator := comm_triple;
     have_ghost_indices := false |}.

(** A process that owns all of [0, 2^32 - 1): 2^32 - 1 owned entries. *)
Definition full_owned : IndexSet.t := IndexSet.mk (2 ^ 32 - 1) [(0, 2 ^ 32 - 1)].

(** A process that owns [0,10) of 2^33 indices and asks for the 2^32 - 1
    ghosts that follow its range. *)
Definition wide_ghost : IndexSet.t :=
  IndexSet.mk (2 ^ 33) [(10, 10 + (2 ^ 32 - 1))].

Definition wide_owned_state : Partitioner :=
  {| global_size := (2 ^ 33);
     locally_owned_range_data := IndexSet.mk (2 ^ 33) [(0, 10)];
     local_range_data := (0, 10);
     ghost_indices_data := IndexSet.mk (2 ^ 33) [];
     n_ghost_indices_data := 0;
     ghost_targets_data := [];
     import_indices_data := [];
     n_import_indices_data := 0;
     import_targets_data := [];
     import_indices_chunks_by_rank_data := [];
     n_ghost_indices_in_larger_set := 0;
     ghost_indices_subset_chunks_by_rank_data := [];
     ghost_indices_subset_data := [];
     my_pid := 0;
     n_procs := 2;
     communicator := comm_pair;
     have_ghost_indices := false |}.

(** Rank 0 of two processes over an empty index space. *)
Definition empty_space_state : Partitioner :=
  {| global_size := 0;
     locally_owned_range_data := IndexSet.mk 0 [];
     local_range_data := (0, 0);
     ghost_indices_data := IndexSet.mk 0 [];
     n_ghost_indices_data := 0;
     ghost_targets_data := [];
     import_indices_data := [];
     n_import_indices_data := 0;
     import_targets_data := [];
     import_indices_chunks_by_rank_data := [];
     n_ghost_indices_in_larger_set := 0;
     ghost_indices_subset_chunks_by_rank_data := [];
     ghost_indices_subset_data := [];
     my_pid := 0;
     n_procs := 2;
     communicator := comm_pair;
     have_ghost_indices := false |}.

(** Rank 0 of two processes that owns [0,50) and receives the chunk
    [10; 11] from one sender and the chunk [12] from another. *)
Definition adjacent_targets : list (Z * Z) := [(1, 2); (2, 1)].
Definition adjacent_expanded : list Z := [10; 11; 12].

(** * Proofs *)

(** ** Machine integers *)

Lemma uint_small x : 0 <= x < 2 ^ 32 -> uint x = x.
Proof. intros H. unfold uint. apply Z.mod_small. exact H. Qed.

Lemma dof_small x : 0 <= x < 2 ^ 64 -> dof x = x.
Proof. intros H. unfold dof. apply Z.mod_small. exact H. Qed.




(** ** Tactics *)

(** Case analysis on the integer comparisons of the goal. *)
Ltac zcases :=
  repeat match goal with
    | |- context [?a <? ?b] => destruct (Z.ltb_spec a b)
    | |- context [?a <=? ?b] => destruct (Z.leb_spec a b)
    | |- context [?a =? ?b] => destruct (Z.eqb_spec a b)
    end;
  simpl; try reflexivity; try lia.

Lemma bind_Ok {A B : Type} (c : result A) (k : A -> result B) (b : B) :
  c ≫= k = Ok b -> exists a, c = Ok a /\ k a = Ok b.
Proof. destruct c as [a|x]; simpl; [eauto | discriminate]. Qed.

Lemma AssertThrow_Ok cond x u : AssertThrow cond x = Ok u -> cond = true.
Proof. unfold AssertThrow. destruct cond; [reflexivity | discriminate]. Qed.


Lemma Assert_true e x : Assert e true x = Ok tt.
Proof. unfold Assert, AssertThrow. destruct (debug e); reflexivity. Qed.

(** Inversion of a successful run of monadic code: one bind at a time. *)
Tactic Notation "inv_bind" hyp(H) "as" simple_intropattern(a)
    simple_intropattern(Ha) :=
  apply bind_Ok in H; destruct H as (a & Ha & H).

(** ** Facts about the index sets *)

Module IndexSetFacts.
Import IndexSet.

Lemma in_ranges_app i l1 l2 :
  in_ranges i (l1 ++ l2) = in_ranges i l1 || in_ranges i l2.
Proof. unfold in_ranges. apply existsb_app. Qed.

Lemma in_ranges_insert_range i l : forall r,
  fst r < snd r ->
  in_ranges i (insert_range r l) = in_range i r || in_ranges i l.
Proof.
  induction l as [|c t IH]; intros [a b] Hr; simpl in *.
  - reflexivity.
  - destruct c as [c d]; simpl.
    destruct (Z.ltb_spec b c); [reflexivity|].
    destruct (Z.ltb_spec d a).
    + simpl. rewrite IH by (simpl; lia).
      destruct (in_range i (c, d)), (in_range i (a, b)); reflexivity.
    + rewrite IH by (simpl; lia).
      rewrite orb_assoc. f_equal.
      unfold in_range; simpl. zcases.
Qed.

Lemma in_ranges_normalise i l : in_ranges i (normalise l) = in_ranges i l.
Proof.
  induction l as [|r t IH]; simpl; [reflexivity|].
  destruct (Z.ltb_spec (fst r) (snd r)).
  - rewrite in_ranges_insert_range by assumption. rewrite IH. reflexivity.
  - rewrite IH. unfold in_range. zcases.
Qed.

Lemma in_ranges_cut i c r :
  in_ranges i (cut c r) = in_range i r && negb (in_range i c).
Proof.
  unfold cut. rewrite in_ranges_app.
  destruct c as [c d], r as [a b]; simpl.
  destruct (Z.ltb_spec a (Z.min b c)), (Z.ltb_spec (Z.max a d) b);
    simpl; unfold in_range; simpl; zcases.
Qed.

Lemma in_ranges_cut_all i c l :
  in_ranges i (cut_all c l) = in_ranges i l && negb (in_range i c).
Proof.
  unfold cut_all. induction l as [|r t IH]; simpl; [reflexivity|].
  rewrite in_ranges_app, in_ranges_cut, IH.
  destruct (in_range i r), (in_range i c), (in_ranges i t); reflexivity.
Qed.

Lemma in_ranges_subtract i l cs :
  in_ranges i (fold_right cut_all l cs) =
  in_ranges i l && negb (in_ranges i cs).
Proof.
  induction cs as [|c t IH]; simpl.
  - rewrite andb_true_r. reflexivity.
  - rewrite in_ranges_cut_all, IH.
    destruct (in_ranges i l), (in_range i c), (in_ranges i t); reflexivity.
Qed.

Lemma is_element_compress s i :
  is_element (compress s) i = is_element s i.
Proof. unfold is_element, compress. simpl. apply in_ranges_normalise. Qed.


Lemma is_element_subtract_set s o i :
  is_element (subtract_set s o) i = is_element s i && negb (is_element o i).
Proof. unfold is_element, subtract_set. simpl. apply in_ranges_subtract. Qed.

(** The normal form: non-empty ranges, ascending and separated. *)
Inductive canonical : list (Z * Z) -> Prop :=
| canonical_nil : canonical []
| canonical_one r : fst r < snd r -> canonical [r]
| canonical_cons r c t :
    fst r < snd r -> snd r < fst c -> canonical (c :: t) ->
    canonical (r :: c :: t).

Lemma canonical_tail r t : canonical (r :: t) -> canonical t.
Proof. inversion 1; subst; [constructor | assumption]. Qed.

Lemma canonical_head r t : canonical (r :: t) -> fst r < snd r.
Proof. inversion 1; subst; assumption. Qed.

Lemma insert_range_head l : forall r,
  fst r < snd r -> canonical l ->
  exists h t, insert_range r l = h :: t /\ canonical (h :: t) /\
    (fst h = fst r \/ exists c, In c l /\ fst h = fst c).
Proof.
  induction l as [|c t IH]; intros r Hr Hl; simpl.
  - exists r, []. repeat split; [constructor; assumption | left; reflexivity].
  - pose proof (canonical_head _ _ Hl) as Hc.
    pose proof (canonical_tail _ _ Hl) as Ht.
    destruct (Z.ltb_spec (snd r) (fst c)).
    + exists r, (c :: t). repeat split;
        [constructor; assumption | left; reflexivity].
    + destruct (Z.ltb_spec (snd c) (fst r)).
      * destruct (IH r Hr Ht) as (h & t' & E & Hcan & Hh).
        rewrite E. exists c, (h :: t'). repeat split.
        -- constructor; [assumption| |assumption].
           destruct Hh as [Hh | (c' & Hin & Hh)]; [lia|].
           rewrite Hh. clear - Hl Hin.
           revert c Hl. induction t as [|x t IHt]; intros c Hl;
             [destruct Hin|].
           inversion Hl; subst. destruct Hin as [->|Hin]; [assumption|].
           pose proof (canonical_head _ _ H4). specialize (IHt Hin x H4). lia.
        -- right. exists c. split; [left; reflexivity | reflexivity].
      * destruct (IH (Z.min (fst r) (fst c), Z.max (snd r) (snd c)))
          as (h & t' & E & Hcan & Hh); [simpl; lia | assumption |].
        rewrite E. exists h, t'. repeat split; [assumption|].
        simpl in Hh. destruct Hh as [Hh | (c' & Hin & Hh)].
        -- destruct (Z.min_spec (fst r) (fst c)) as [[_ Hm]|[_ Hm]];
             rewrite Hm in Hh.
           ++ left. assumption.
           ++ right. exists c. split; [left; reflexivity | assumption].
        -- right. exists c'. split; [right; assumption | assumption].
Qed.

Lemma canonical_insert_range r l :
  fst r < snd r -> canonical l -> canonical (insert_range r l).
Proof.
  intros Hr Hl. destruct (insert_range_head l r Hr Hl) as (h & t & E & H & _).
  rewrite E. exact H.
Qed.

Lemma canonical_normalise l : canonical (normalise l).
Proof.
  induction l as [|r t IH]; simpl; [constructor|].
  destruct (Z.ltb_spec (fst r) (snd r)); [|assumption].
  apply canonical_insert_range; assumption.
Qed.

Lemma normalise_canonical l : canonical l -> normalise l = l.
Proof.
  induction 1 as [|r Hr|r c t Hr Hrc Hct IH]; simpl.
  - reflexivity.
  - destruct (Z.ltb_spec (fst r) (snd r)); [reflexivity | lia].
  - simpl in IH. rewrite IH.
    destruct (Z.ltb_spec (fst r) (snd r)); [|lia].
    simpl. destruct (Z.ltb_spec (snd r) (fst c)); [reflexivity | lia].
Qed.

Lemma normalise_idem l : normalise (normalise l) = normalise l.
Proof. apply normalise_canonical, canonical_normalise. Qed.

Lemma total_canonical l : canonical l -> 0 <= total l /\ (total l = 0 -> l = []).
Proof.
  induction 1 as [|r Hr|r c t Hr Hrc Hct IH]; simpl in *; unfold width in *.
  - split; [lia | reflexivity].
  - split; [lia | intros; lia].
  - destruct IH as [IH1 IH2]. split; [lia | intros; lia].
Qed.

Lemma n_elements_nonneg s : 0 <= n_elements s.
Proof. apply total_canonical, canonical_normalise. Qed.

Lemma n_elements_compress s : n_elements (compress s) = n_elements s.
Proof. unfold n_elements, compress. simpl. rewrite normalise_idem. reflexivity. Qed.

Lemma n_elements_zero s : n_elements s = 0 -> normalise (ranges s) = [].
Proof. apply total_canonical, canonical_normalise. Qed.

End IndexSetFacts.

(** ** The shape of a successful set_ghost_indices *)

Lemma set_ghost_indices_Ok e s g larger s' :
  set_ghost_indices e s g larger = Ok s' ->
  common_fields s g s' /\
  ((n_procs s < 2 /\ plan_unchanged s s') \/
   (2 <= n_procs s /\ plan_built e s g larger s')).
Proof.
  unfold set_ghost_indices. intros H.
  inv_bind H as [] _. inv_bind H as [] Hov. apply AssertThrow_Ok in Hov.
  apply Z.ltb_lt in Hov. inv_bind H as total Htotal.
  destruct (Z.ltb_spec (n_procs s) 2) as [Hp|Hp].
  - inv_bind H as [] _. inv_bind H as [] _. inv_bind H as [] _.
    injection H as <-. simpl.
    repeat split; try assumption. left. repeat split. assumption.
  - inv_bind H as fi Hfi. inv_bind H as [fi' lr] Hfix.
    inv_bind H as gt Hgt. inv_bind H as [nimp it] Himp.
    inv_bind H as expanded Hexp. inv_bind H as [chunks ii] Hcomp.
    inv_bind H as [[sc sub] nl] Hlarger.
    injection H as <-. simpl.
    repeat split; try assumption. right. split; [assumption|].
    unfold plan_built; simpl. eauto 12.
Qed.

(** ** The scenarios of the specification *)

Example s2_set_owned :
  Partitioner_owned s2_env0 s2_owned0 comm_pair = Ok s2_owned_state.
Proof. vm_compute. reflexivity. Qed.

Example s2_set_ghost :
  set_ghost_indices s2_env0 s2_owned_state s2_ghost0 IndexSet.empty =
  Ok s2_ready_state.
Proof. vm_compute. reflexivity. Qed.

Example s2_rank1 :
  Partitioner_owned_ghost s2_env1 s2_owned1 (IndexSet.mk 10 []) comm_pair =
  Ok s2_rank1_state.
Proof. vm_compute. reflexivity. Qed.

Example s3_rank1 :
  Partitioner_owned_ghost s3_env1 s3_owned1 s3_ghost1 comm_triple =
  Ok s3_ready_state.
Proof. vm_compute. reflexivity. Qed.

Example s4_rank0 :
  Partitioner_owned_ghost s4_env0 s4_owned0 (IndexSet.mk 100 []) comm_pair =
  Ok s4_rank0_state.
Proof. vm_compute. reflexivity. Qed.

Example s5_rank2 :
  Partitioner_owned s5_env2 (IndexSet.mk 8 []) comm_triple =
    Ok s5_owned_state /\
  endpoint_exchange s5_env2 s5_owned_state = Ok [0; 0; 8; 8] /\
  local_range_fixup s5_env2 s5_owned_state [0; 0; 8; 8] =
    Ok ([0; 0; 8; 8], (8, 8)).
Proof. repeat split; vm_compute; reflexivity. Qed.

Example s6_rank1 :
  set_ghost_indices s3_env1 s3_owned_state s3_ghost1 s6_larger1 =
  Ok s6_ready_state.
Proof. vm_compute. reflexivity. Qed.

(** ** Idempotence (C1) *)

(** Without a larger ghost set, a run with two or more processes appends
    the trivial range to [ghost_indices_subset_data]: the vector is neither
    cleared nor assigned (line 409). *)
Lemma larger_ghost_mapping_appends e s lr gi ng gt larger chunks sub nl :
  IndexSet.size larger = 0 ->
  larger_ghost_mapping e s lr gi ng gt larger = Ok (chunks, sub, nl) ->
  length sub = S (length (ghost_indices_subset_data s)).
Proof.
  unfold larger_ghost_mapping. intros -> H. simpl in H.
  injection H as _ <- _. rewrite length_app. simpl. lia.
Qed.

Lemma set_ghost_indices_appends_subset e s g s' :
  2 <= n_procs s ->
  set_ghost_indices e s g IndexSet.empty = Ok s' ->
  length (ghost_indices_subset_data s') =
  S (length (ghost_indices_subset_data s)).
Proof.
  intros Hp H. apply set_ghost_indices_Ok in H.
  destruct H as [_ [[Hlt _] | [_ Hb]]]; [lia|].
  destruct Hb as (fi & fi' & _ & _ & _ & _ & ex & _ & _ & Hl).
  eapply larger_ghost_mapping_appends; [|exact Hl]. reflexivity.
Qed.

(** C1: calling [set_ghost_indices] twice with the same ghost set is not
    idempotent on the code.  On rank 0 of scenario S2 the first call leaves
    [ghost_indices_subset_data = [(5,7)]] and the second call, with the same
    input and the same answers of the other process, leaves
    [[(5,7); (5,7)]]: the two states differ. *)
Theorem set_ghost_indices_twice_differs :
  set_ghost_indices s2_env0 s2_owned_state s2_ghost0 IndexSet.empty =
    Ok s2_ready_state /\
  set_ghost_indices s2_env0 s2_ready_state s2_ghost0 IndexSet.empty =
    Ok s2_twice_state /\
  ghost_indices_subset_data s2_ready_state = [(5, 7)] /\
  ghost_indices_subset_data s2_twice_state = [(5, 7); (5, 7)] /\
  s2_twice_state <> s2_ready_state.
Proof.
  split; [vm_compute; reflexivity|].
  split; [vm_compute; reflexivity|].
  split; [reflexivity|]. split; [reflexivity|].
  intros H. apply (f_equal ghost_indices_subset_data) in H. discriminate H.
Qed.

(** ** Disjointness (C5) *)

Lemma is_element_normalise_ghosts s g i :
  IndexSet.is_element (normalise_ghosts s g) i =
  IndexSet.is_element g i &&
  negb (IndexSet.is_element (locally_owned_range_data s) i).
Proof.
  unfold normalise_ghosts.
  rewrite IndexSetFacts.is_element_compress,
    IndexSetFacts.is_element_subtract_set.
  destruct (negb _); reflexivity.
Qed.

(** C5: after a successful [set_ghost_indices], whatever the input ghost
    set, no index is an element both of [ghost_indices_data] and of
    [locally_owned_range_data]. *)
Theorem ghost_indices_disjoint_from_owned e s g larger s' :
  set_ghost_indices e s g larger = Ok s' ->
  forall i,
    ~ (IndexSet.is_element (ghost_indices_data s') i = true /\
       IndexSet.is_element (locally_owned_range_data s') i = true).
Proof.
  intros H i [Hg Ho]. apply set_ghost_indices_Ok in H.
  destruct H as [(_ & Eg & _ & Eo & _) _].
  rewrite Eg, is_element_normalise_ghosts in Hg. rewrite Eo in Ho.
  rewrite Ho in Hg. rewrite andb_false_r in Hg. discriminate Hg.
Qed.

(** An input that overlaps the owned range: rank 0 of scenario S2, which
    owns [0,5), asking for [3,7).  Index 3 is not kept as a ghost. *)
Lemma ghost_indices_disjoint_from_owned_witness :
  set_ghost_indices s2_env0 s2_owned_state (IndexSet.mk 10 [(3, 7)])
                    IndexSet.empty = Ok s2_ready_state /\
  ~ (IndexSet.is_element (ghost_indices_data s2_ready_state) 3 = true /\
     IndexSet.is_element (locally_owned_range_data s2_ready_state) 3 = true).
Proof.
  split; [vm_compute; reflexivity|].
  apply (ghost_indices_disjoint_from_owned s2_env0 s2_owned_state
           (IndexSet.mk 10 [(3, 7)]) IndexSet.empty s2_ready_state).
  vm_compute. reflexivity.
Defined.

(** ** The early return (C9) *)

(** C9: with fewer than two processes a successful [set_ghost_indices]
    returns before the communication plan and the larger-ghost-set mapping
    are touched, whatever larger ghost set is passed:
    [ghost_indices_subset_data], its chunk table,
    [n_ghost_indices_in_larger_set], [import_targets_data],
    [import_indices_data] and its chunk table keep their prior values. *)
Theorem set_ghost_indices_single_process e s g larger s' :
  n_procs s < 2 ->
  set_ghost_indices e s g larger = Ok s' ->
  ghost_indices_subset_data s' = ghost_indices_subset_data s /\
  ghost_indices_subset_chunks_by_rank_data s' =
    ghost_indices_subset_chunks_by_rank_data s /\
  n_ghost_indices_in_larger_set s' = n_ghost_indices_in_larger_set s /\
  import_targets_data s' = import_targets_data s /\
  import_indices_data s' = import_indices_data s /\
  import_indices_chunks_by_rank_data s' =
    import_indices_chunks_by_rank_data s.
Proof.
  intros Hp H. apply set_ghost_indices_Ok in H.
  destruct H as [_ [[_ Hu] | [Hge _]]]; [|lia].
  unfold plan_unchanged in Hu. tauto.
Qed.

(** A process on its own, called with an empty ghost set and a non-empty
    larger ghost set: the ghosts are reset, the plan of the earlier use
    stays. *)
Lemma set_ghost_indices_single_process_witness :
  exists s',
    set_ghost_indices (quiet_env 0) alone_state (IndexSet.mk 10 [])
                      (IndexSet.mk 10 [(2, 4)]) = Ok s' /\
    n_ghost_indices_data s' = 0 /\
    ghost_indices_subset_data s' = [(5, 7)] /\
    ghost_indices_subset_chunks_by_rank_data s' = [] /\
    n_ghost_indices_in_larger_set s' = 2 /\
    import_targets_data s' = [] /\
    import_indices_data s' = [] /\
    import_indices_chunks_by_rank_data s' = [0].
Proof.
  eexists. split; [vm_compute; reflexivity|]. split; [reflexivity|].
  apply (set_ghost_indices_single_process (quiet_env 0) alone_state
           (IndexSet.mk 10 []) (IndexSet.mk 10 [(2, 4)])).
  - vm_compute. reflexivity.
  - vm_compute. reflexivity.
Defined.

(** ** The fixup over an empty index space (C10) *)

(** C10: when [global_size] is 0 the fixup is skipped: [first_index] comes
    out of it as the broadcast and the all-gather left it, and the local
    range is not corrected, by the fixup or by the whole call. *)
Theorem fixup_skipped_on_empty_space e s :
  global_size s = 0 ->
  (forall first_index,
     local_range_fixup e s first_index =
     Ok (first_index, local_range_data s)) /\
  (forall g larger s',
     set_ghost_indices e s g larger = Ok s' ->
     local_range_data s' = local_range_data s).
Proof.
  intros Hz.
  assert (Hfix : forall first_index,
            local_range_fixup e s first_index =
            Ok (first_index, local_range_data s)).
  { intros fi. unfold local_range_fixup. rewrite Hz. reflexivity. }
  split; [exact Hfix|].
  intros g larger s' H. apply set_ghost_indices_Ok in H.
  destruct H as [_ [[_ Hu] | [_ Hb]]].
  - apply Hu.
  - destruct Hb as (fi & fi' & _ & Hf & _). rewrite Hfix in Hf.
    injection Hf as _ Hf. symmetry. exact Hf.
Qed.

Lemma fixup_skipped_on_empty_space_witness :
  (forall first_index,
     local_range_fixup s2_env0 empty_space_state first_index =
     Ok (first_index, local_range_data empty_space_state)) /\
  (forall g larger s',
     set_ghost_indices s2_env0 empty_space_state g larger = Ok s' ->
     local_range_data s' = local_range_data empty_space_state).
Proof.
  apply (fixup_skipped_on_empty_space s2_env0 empty_space_state).
  reflexivity.
Defined.

(** ** set_owned_indices with an empty owned set (C8) *)

Lemma is_contiguous_empty owned :
  IndexSet.n_elements owned = 0 -> IndexSet.is_contiguous owned = true.
Proof.
  intros H. unfold IndexSet.is_contiguous.
  rewrite (IndexSetFacts.n_elements_zero _ H). reflexivity.
Qed.

(** C8: [set_owned_indices] with an owned set of no elements keeps
    [local_range_data] at the value it held before the call, and still sets
    [my_pid], [n_procs], [locally_owned_range_data] (the old range added
    again to the resized set) and the size of the ghost set.  The call
    returns whenever the range it keeps passes the overflow check. *)
Theorem set_owned_indices_empty_keeps_local_range e s owned :
  IndexSet.n_elements owned = 0 ->
  dof (snd (local_range_data s) - fst (local_range_data s)) < UINT_MAX ->
  exists s',
    set_owned_indices e s owned = Ok s' /\
    local_range_data s' = local_range_data s /\
    my_pid s' =
      (if job_supports_mpi e then this_mpi_process e (communicator s)
       else 0) /\
    n_procs s' =
      (if job_supports_mpi e then n_mpi_processes (communicator s) else 1) /\
    locally_owned_range_data s' =
      IndexSet.compress
        (IndexSet.add_range (fst (local_range_data s))
           (snd (local_range_data s))
           (IndexSet.set_size (IndexSet.size owned)
              (locally_owned_range_data s))) /\
    IndexSet.size (ghost_indices_data s') = IndexSet.size owned.
Proof.
  intros Hz Hw. unfold set_owned_indices.
  rewrite (is_contiguous_empty _ Hz), Assert_true. simpl.
  rewrite IndexSetFacts.n_elements_compress, Hz. simpl.
  apply Z.ltb_lt in Hw. rewrite Hw. simpl.
  eexists. split; [reflexivity|]. simpl. repeat split.
Qed.

(** Rank 0 of scenario S2, whose range is [0,5), called again with an
    empty owned set: the range stays [0,5). *)
Lemma set_owned_indices_empty_keeps_local_range_witness :
  exists s',
    set_owned_indices s2_env0 s2_ready_state (IndexSet.mk 10 []) = Ok s' /\
    local_range_data s' = (0, 5) /\
    my_pid s' = 0 /\
    n_procs s' = 2 /\
    locally_owned_range_data s' = IndexSet.mk 10 [(0, 5)] /\
    IndexSet.size (ghost_indices_data s') = 10.
Proof.
  apply (set_owned_indices_empty_keeps_local_range s2_env0 s2_ready_state
           (IndexSet.mk 10 [])).
  - reflexivity.
  - vm_compute. reflexivity.
Defined.

(** ** Compatibility is symmetric (C7) *)

Lemma comm_compare_sym c1 c2 :
  match MPI_Comm_compare c1 c2 with
  | MPI_IDENT | MPI_CONGRUENT => true
  | _ => false
  end =
  match MPI_Comm_compare c2 c1 with
  | MPI_IDENT | MPI_CONGRUENT => true
  | _ => false
  end.
Proof.
  unfold MPI_Comm_compare.
  destruct (decide (comm_group c1 = comm_group c2)) as [E|N].
  - rewrite !bool_decide_eq_true_2 by congruence.
    rewrite (Z.eqb_sym (comm_context c1)).
    destruct (comm_context c2 =? comm_context c1); reflexivity.
  - rewrite !bool_decide_eq_false_2 by congruence.
    destruct (same_members _ _), (same_members _ _); reflexivity.
Qed.

Lemma pair_eqb_sym a b : pair_eqb a b = pair_eqb b a.
Proof. unfold pair_eqb. rewrite (Z.eqb_sym (fst a)), (Z.eqb_sym (snd a)). reflexivity. Qed.

Lemma IndexSet_eqb_sym a b : IndexSet.eqb a b = IndexSet.eqb b a.
Proof. unfold IndexSet.eqb. apply bool_decide_ext. split; congruence. Qed.

(** C7: [is_compatible] is symmetric: for any two partitioners of the
    store, aliased or not, over any two communicators, [a.is_compatible(b)]
    and [b.is_compatible(a)] give the same result. *)
Theorem is_compatible_symmetric e store a b :
  is_compatible e store a b = is_compatible e store b a.
Proof.
  unfold is_compatible. rewrite (Z.eqb_sym b a).
  destruct (a =? b); [reflexivity|].
  rewrite (comm_compare_sym (communicator (store b)) (communicator (store a))).
  destruct (job_supports_mpi e); simpl.
  - destruct (AssertThrowMPI (ierr_Comm_compare e)); simpl; [|reflexivity].
    destruct (match MPI_Comm_compare _ _ with
              | MPI_IDENT | MPI_CONGRUENT => true | _ => false end);
      simpl; [|reflexivity].
    rewrite (Z.eqb_sym (global_size (store a))),
      (pair_eqb_sym (local_range_data (store a))),
      (IndexSet_eqb_sym (ghost_indices_data (store a))). reflexivity.
  - rewrite (Z.eqb_sym (global_size (store a))),
      (pair_eqb_sym (local_range_data (store a))),
      (IndexSet_eqb_sym (ghost_indices_data (store a))). reflexivity.
Qed.

(** ** The overflow checks (C3) *)

(** The owned check on the code: with a non-empty owned set of fewer than
    2^64 elements that passes the contiguity assertion, the overflow
    exception is thrown exactly from 2^32 - 1 elements on. *)
Lemma set_owned_indices_overflow e s owned :
  IndexSet.is_contiguous owned = true ->
  0 < IndexSet.n_elements owned < 2 ^ 64 ->
  set_owned_indices e s owned = Throw ExcIndexOverflowOwned <->
  UINT_MAX <= IndexSet.n_elements owned.
Proof.
  intros Hc Hn. unfold set_owned_indices.
  rewrite Hc, Assert_true. simpl.
  rewrite IndexSetFacts.n_elements_compress.
  destruct (Z.ltb_spec 0 (IndexSet.n_elements owned)); [|lia]. simpl.
  set (a := IndexSet.nth_index_in_set _ 0).
  assert (E : dof (dof (a + IndexSet.n_elements owned) - a) =
              IndexSet.n_elements owned).
  { unfold dof. rewrite Zminus_mod_idemp_l.
    replace (a + IndexSet.n_elements owned - a)
      with (IndexSet.n_elements owned) by lia.
    apply Z.mod_small. lia. }
  rewrite E. unfold AssertThrow.
  destruct (Z.ltb_spec (IndexSet.n_elements owned) UINT_MAX); simpl.
  - split; [discriminate | lia].
  - split; [intros _; assumption | reflexivity].
Qed.

(** The ghost check on the code: from 2^32 - 1 tight ghosts on, the
    overflow exception is thrown. *)
Lemma set_ghost_indices_overflow e s g larger :
  IndexSet.size g = IndexSet.size (locally_owned_range_data s) ->
  UINT_MAX <= IndexSet.n_elements (normalise_ghosts s g) ->
  set_ghost_indices e s g larger = Throw ExcIndexOverflowGhost.
Proof.
  intros Hs Hn. unfold set_ghost_indices.
  rewrite Hs, Z.eqb_refl, orb_true_r, Assert_true. simpl.
  unfold AssertThrow.
  destruct (Z.ltb_spec (IndexSet.n_elements (normalise_ghosts s g)) UINT_MAX);
    [lia | reflexivity].
Qed.

(** C3: the code throws the overflow exceptions one element early.  An
    owned set of exactly 2^32 - 1 elements, and a tight ghost set of exactly
    2^32 - 1 elements, both below 2^32, are rejected: the checks compare
    with [<] against [2^32 - 1], while their messages promise support for
    "at most 2^32-1" entries. *)
Theorem overflow_thrown_at_uint_max :
  IndexSet.n_elements full_owned = 2 ^ 32 - 1 /\
  set_owned_indices (quiet_env 0)
    (Partitioner_init full_owned (MPI_COMM_SELF (quiet_env 0))) full_owned =
    Throw ExcIndexOverflowOwned /\
  IndexSet.n_elements (normalise_ghosts wide_owned_state wide_ghost) =
    2 ^ 32 - 1 /\
  set_ghost_indices s2_env0 wide_owned_state wide_ghost IndexSet.empty =
    Throw ExcIndexOverflowGhost.
Proof.
  repeat split; vm_compute; reflexivity.
Qed.

(** ** Ghost targets (C6) *)

Lemma back_snoc v x : back (v ++ [x]) = x.
Proof. unfold back. apply last_last. Qed.

Lemma update_back_snoc f v x : update_back f (v ++ [x]) = v ++ [f x].
Proof.
  induction v as [|a v IH]; [reflexivity|].
  change ((a :: v) ++ [x]) with (a :: (v ++ [x])).
  change ((a :: v) ++ [f x]) with (a :: (v ++ [f x])).
  rewrite <- IH. destruct v; reflexivity.
Qed.

Lemma Assert_holds e cond x : cond = true -> Assert e cond x = Ok tt.
Proof. intros ->. apply Assert_true. Qed.

Lemma group_step_snoc e G r c o :
  r <= o ->
  group_step e (G ++ [(r, c)]) o =
  Ok (if o =? r then G ++ [(r, uint (c + 1))] else (G ++ [(r, c)]) ++ [(o, 1)]).
Proof.
  intros H. unfold group_step. rewrite back_snoc. cbn [fst].
  rewrite Assert_holds by (apply Z.leb_le; exact H).
  cbn [mbind result_bind]. rewrite update_back_snoc.
  destruct (o =? r); reflexivity.
Qed.

(** The grouping loop from a state whose last run is [(r, c)]: the owners
    equal to [r] extend that run, the others open the runs [T]. *)
Lemma group_loop e owners : forall G r c,
  Sorted Z.le (r :: owners) ->
  0 <= c ->
  c + Z.of_nat (length owners) < 2 ^ 32 ->
  exists k T,
    for_each owners (group_step e) (G ++ [(r, c)]) =
      Ok (G ++ (r, c + k) :: T) /\
    0 <= k /\
    (forall o os, owners = o :: os -> o = r -> 1 <= k) /\
    Sorted Z.lt (r :: map fst T) /\
    Forall (fun t => 0 < snd t) T /\
    k + sum_counts T = Z.of_nat (length owners).
Proof.
  induction owners as [|o os IH]; intros G r c Hs Hc Hlen.
  - exists 0, []. simpl. rewrite Z.add_0_r.
    repeat split; try lia; [discriminate | repeat constructor | constructor].
  - apply Sorted_inv in Hs. destruct Hs as [Hs Hhd].
    apply HdRel_inv in Hhd.
    cbn [for_each]. rewrite group_step_snoc by exact Hhd.
    cbn [mbind result_bind].
    cbn [length] in Hlen. rewrite Nat2Z.inj_succ in Hlen.
    destruct (Z.eqb_spec o r) as [->|Hne].
    + rewrite uint_small by lia.
      destruct (IH G r (c + 1)) as (k & T & Hrun & Hk & _ & HT & Hpos & Hsum);
        [assumption | lia | lia |].
      exists (k + 1), T. rewrite Hrun.
      replace (c + (k + 1)) with (c + 1 + k) by lia.
      repeat split; try assumption; try lia.
      cbn [length]. lia.
    + destruct (IH (G ++ [(r, c)]) o 1)
        as (k & T & Hrun & Hk & _ & HT & Hpos & Hsum);
        [assumption | lia | lia |].
      exists 0, ((o, 1 + k) :: T). rewrite Hrun.
      rewrite <- app_assoc. cbn [app]. rewrite Z.add_0_r.
      repeat split; try lia.
      * intros o' os' E. injection E as -> _. intros ->. contradiction.
      * cbn [map fst]. constructor; [assumption|]. constructor. lia.
      * constructor; [cbn [snd]; lia | assumption].
      * unfold sum_counts in *. cbn [fold_right snd length]. lia.
Qed.

(** The grouping of a non-decreasing list of owners returns, and its runs
    are strictly ascending in rank, of positive counts that sum to the
    number of owners. *)
Lemma group_ghost_targets_sorted e owners :
  Sorted Z.le owners ->
  Z.of_nat (length owners) < 2 ^ 32 ->
  exists targets,
    group_ghost_targets e owners = Ok targets /\
    Sorted Z.lt (map fst targets) /\
    Forall (fun t => 0 < snd t) targets /\
    sum_counts targets = Z.of_nat (length owners).
Proof.
  intros Hs Hlen. unfold group_ghost_targets.
  destruct owners as [|o os].
  - exists []. repeat split; constructor.
  - replace (0 <? vsize (o :: os)) with true
      by (symmetry; apply Z.ltb_lt; unfold vsize; cbn [length]; lia).
    change (get (o :: os) 0) with o.
    destruct (group_loop e (o :: os) [] o 0)
      as (k & T & Hrun & Hk & Hone & HT & Hpos & Hsum).
    + constructor; [assumption | constructor; lia].
    + lia.
    + lia.
    + specialize (Hone o os eq_refl eq_refl).
      exists ((o, 0 + k) :: T). split; [exact Hrun|].
      repeat split.
      * exact HT.
      * constructor; [cbn [snd]; lia | assumption].
      * unfold sum_counts in *. cbn [fold_right snd]. lia.
Qed.

Lemma Sorted_lt_NoDup l : Sorted Z.lt l -> NoDup l.
Proof.
  intros H. apply Sorted_StronglySorted in H; [|intros x y z; lia].
  induction H as [|a l Hl IH Hall]; constructor; [|assumption].
  intros Hin. rewrite Forall_forall in Hall. specialize (Hall a Hin). lia.
Qed.




(** ** Loops over indices and vectors *)

Lemma upto_nil lo hi : hi <= lo -> upto lo hi = [].
Proof. intros H. unfold upto. apply seqZ_nil. lia. Qed.

Lemma upto_cons lo hi : lo < hi -> upto lo hi = lo :: upto (lo + 1) hi.
Proof.
  intros H. unfold upto. rewrite seqZ_cons by lia.
  f_equal. f_equal; lia.
Qed.

Lemma vsize_app {A} (l1 l2 : list A) : vsize (l1 ++ l2) = vsize l1 + vsize l2.
Proof. unfold vsize. rewrite length_app. lia. Qed.

Lemma vsize_cons {A} (x : A) (l : list A) : vsize (x :: l) = 1 + vsize l.
Proof. unfold vsize. cbn [length]. lia. Qed.

Lemma vsize_nonneg {A} (l : list A) : 0 <= vsize l.
Proof. unfold vsize. lia. Qed.

Lemma get_middle {A} `{Inhabited A} (l1 l2 : list A) (x : A) :
  get (l1 ++ x :: l2) (vsize l1) = x.
Proof.
  unfold get, vsize. rewrite Nat2Z.id.
  apply list_lookup_total_middle. reflexivity.
Qed.

Lemma put_middle {A} (l1 l2 : list A) (x y : A) :
  put (l1 ++ x :: l2) (vsize l1) y = l1 ++ y :: l2.
Proof.
  unfold put, vsize. rewrite Nat2Z.id.
  induction l1 as [|a l1 IH]; simpl; [reflexivity|]. f_equal. exact IH.
Qed.

Lemma lookup_map {A B} (f : A -> B) (l : list A) : forall (i : nat) (x : A),
  l !! i = Some x -> map f l !! i = Some (f x).
Proof.
  induction l as [|a l IH]; intros i x Hl; [discriminate|].
  destruct i as [|i].
  - injection Hl as ->. reflexivity.
  - apply (IH i x Hl).
Qed.

Lemma put_head {A} (a x : A) (l : list A) : put (a :: l) 0 x = x :: l.
Proof. reflexivity. Qed.

Lemma get_lookup {A} `{Inhabited A} (l : list A) (i : Z) (x : A) :
  l !! Z.to_nat i = Some x -> get l i = x.
Proof. intros Hl. unfold get. apply list_lookup_total_correct. exact Hl. Qed.

Lemma map_get_upto (l : list Z) : forall pre,
  map (get (pre ++ l)) (upto (vsize pre) (vsize pre + vsize l)) = l.
Proof.
  induction l as [|a t IH]; intros pre.
  - rewrite upto_nil by (unfold vsize; simpl; lia). reflexivity.
  - rewrite upto_cons by (rewrite vsize_cons; pose proof (vsize_nonneg t); lia).
    cbn [map]. rewrite get_middle. f_equal.
    specialize (IH (pre ++ [a])).
    rewrite <- app_assoc in IH. cbn [app] in IH.
    rewrite vsize_app in IH. change (vsize [a]) with 1 in IH.
    rewrite vsize_cons.
    replace (vsize pre + (1 + vsize t)) with (vsize pre + 1 + vsize t) by lia.
    exact IH.
Qed.

(** ** The endpoint exchange and the fixup (C2) *)

Lemma allgather_layout me (own : Z) (others : list Z) :
  get others me = own ->
  allgather me (vsize others) own others = others.
Proof.
  intros Hown. unfold allgather.
  pose proof (map_get_upto others []) as E.
  change (vsize []) with 0 in E. rewrite Z.add_0_l in E. cbn [app] in E.
  rewrite <- E at 2.
  apply map_ext. intros i. destruct (Z.eqb_spec i me) as [->|]; congruence.
Qed.

Lemma fill_zeros_from n : forall pre x l hi,
  (n <= length l)%nat ->
  hi = vsize pre + 1 + Z.of_nat n ->
  foldl (fun fi i => if get fi i =? 0 then put fi i (get fi (i - 1)) else fi)
        (pre ++ x :: l) (upto (vsize pre + 1) hi) =
  pre ++ x :: fill_n n x l.
Proof.
  induction n as [|n IH]; intros pre x l hi Hn ->.
  - rewrite upto_nil by lia. reflexivity.
  - destruct l as [|y t]; [simpl in Hn; lia|].
    rewrite upto_cons by lia. cbn [foldl fill_n].
    assert (E : pre ++ x :: y :: t = (pre ++ [x]) ++ y :: t)
      by (rewrite <- app_assoc; reflexivity).
    assert (V : vsize pre + 1 = vsize (pre ++ [x]))
      by (rewrite vsize_app; reflexivity).
    rewrite E, V, get_middle, put_middle.
    replace (vsize (pre ++ [x]) - 1) with (vsize pre) by lia.
    rewrite <- E, get_middle.
    assert (E' : (if y =? 0 then (pre ++ [x]) ++ x :: t
                  else pre ++ x :: y :: t) =
                 (pre ++ [x]) ++ (if y =? 0 then x else y) :: t)
      by (destruct (y =? 0); [reflexivity | exact E]).
    rewrite E'. rewrite IH; [|simpl in Hn; lia | lia].
    rewrite <- app_assoc. reflexivity.
Qed.

Lemma fill_n_app bs : forall prev rest,
  fill_n (length bs) prev (bs ++ rest) = fill_n (length bs) prev bs ++ rest.
Proof.
  induction bs as [|b t IH]; intros prev rest; [reflexivity|].
  cbn [length app fill_n]. rewrite IH. reflexivity.
Qed.

Lemma fill_n_zeros bs :
  Forall (fun b => b = 0) bs -> fill_n (length bs) 0 bs = bs.
Proof.
  induction 1 as [|b t Hb Ht IH]; [reflexivity|].
  cbn [length fill_n]. subst b. cbn. rewrite IH. reflexivity.
Qed.

Lemma laid_out_le lrs : forall cur N, laid_out cur lrs N -> cur <= N.
Proof.
  induction lrs as [|r t IH]; intros cur N H; simpl in H.
  - lia.
  - destruct H as [(_ & _ & H) | (Hr & Hc & H)].
    + apply IH, H.
    + apply IH in H. lia.
Qed.

Lemma laid_out_zero lrs : forall cur,
  laid_out cur lrs 0 -> 0 <= cur ->
  Forall (fun r => fst r = 0 /\ snd r = 0) lrs.
Proof.
  induction lrs as [|r t IH]; intros cur H Hc; [constructor|].
  pose proof (laid_out_le _ _ _ H) as Hle. simpl in H.
  destruct H as [(Hr & H0 & H) | (Hr & Hcur & H)].
  - constructor; [lia | eapply IH; eassumption].
  - apply laid_out_le in H. lia.
Qed.

Lemma starts_fill lrs : forall cur rl N,
  laid_out cur (lrs ++ [rl]) N -> 0 <= cur ->
  cur :: fill_n (length lrs) cur (map snd lrs) = starts cur (lrs ++ [rl]).
Proof.
  induction lrs as [|r t IH]; intros cur rl N H Hc; [reflexivity|].
  cbn [app starts length map fill_n]. f_equal.
  cbn [app laid_out] in H.
  destruct H as [(Hr & H0 & H) | (Hr & Hcur & H)].
  - destruct (Z.ltb_spec (fst r) (snd r)); [lia|].
    replace (if snd r =? 0 then cur else snd r) with cur
      by (destruct (Z.eqb_spec (snd r) 0); lia).
    eapply IH; eassumption.
  - destruct (Z.ltb_spec (fst r) (snd r)); [|lia].
    destruct (Z.eqb_spec (snd r) 0); [lia|].
    eapply IH; [eassumption | lia].
Qed.

Lemma length_starts lrs : forall cur, length (starts cur lrs) = length lrs.
Proof.
  induction lrs as [|r t IH]; intros cur; [reflexivity|].
  cbn [starts length]. rewrite IH. reflexivity.
Qed.

Lemma starts_sorted lrs : forall cur N,
  laid_out cur lrs N -> Sorted Z.le (starts cur lrs ++ [N]).
Proof.
  induction lrs as [|r t IH]; intros cur N H.
  - repeat constructor.
  - cbn [starts app]. cbn [laid_out] in H.
    assert (Hnext : laid_out (if fst r <? snd r then snd r else cur) t N /\
                    cur <= (if fst r <? snd r then snd r else cur)).
    { destruct H as [(Hr & H0 & H) | (Hr & Hcur & H)].
      - destruct (Z.ltb_spec (fst r) (snd r)); [lia|]. split; [assumption|lia].
      - destruct (Z.ltb_spec (fst r) (snd r)); [|lia]. split; [assumption|lia]. }
    destruct Hnext as [Hl Hle]. constructor; [apply IH, Hl|].
    destruct t as [|r' t'].
    + cbn [starts app]. constructor. cbn [laid_out] in Hl. lia.
    + cbn [starts app]. constructor. exact Hle.
Qed.

Lemma starts_lookup lrs : forall cur N (j : nat) r,
  laid_out cur lrs N ->
  lrs !! j = Some r ->
  exists sj,
    starts cur lrs !! j = Some sj /\ cur <= sj <= N /\
    (fst r = snd r \/ (fst r < snd r /\ fst r = sj)).
Proof.
  induction lrs as [|r0 t IH]; intros cur N j r H Hj; [discriminate|].
  pose proof (laid_out_le _ _ _ H) as Hle.
  cbn [laid_out] in H. destruct j as [|j].
  - injection Hj as ->. exists cur. cbn [starts].
    split; [reflexivity|]. split; [lia|].
    destruct H as [(Hr & _) | (Hr & Hcur & _)]; [left | right]; lia.
  - cbn [starts]. change ((r0 :: t) !! S j) with (t !! j) in Hj.
    change ((?a :: ?l) !! S j) with (l !! j).
    destruct H as [(Hr & H0 & H) | (Hr & Hcur & H)].
    + destruct (Z.ltb_spec (fst r0) (snd r0)); [lia|].
      destruct (IH cur N j r H Hj) as (sj & ? & ? & ?). eauto.
    + destruct (Z.ltb_spec (fst r0) (snd r0)); [|lia].
      destruct (IH (snd r0) N j r H Hj) as (sj & ? & ? & ?).
      exists sj. repeat split; try assumption; lia.
Qed.

Lemma Sorted_le_get l :
  Sorted Z.le l ->
  forall i, 0 <= i -> i + 1 < vsize l -> get l i <= get l (i + 1).
Proof.
  induction 1 as [|a l Hl IH Hhd]; intros i Hi Hlen.
  - unfold vsize in Hlen. simpl in Hlen. lia.
  - rewrite vsize_cons in Hlen. unfold get.
    replace (Z.to_nat (i + 1)) with (S (Z.to_nat i)) by lia.
    destruct (Z.to_nat i) as [|k] eqn:Ek.
    + destruct Hhd as [|b l' Hab]; [unfold vsize in Hlen; simpl in Hlen; lia|].
      exact Hab.
    + specialize (IH (Z.of_nat k)). unfold get in IH.
      replace (Z.to_nat (Z.of_nat k + 1)) with (S k) in IH by lia.
      rewrite Nat2Z.id in IH. apply IH; lia.
Qed.

(** [first_index] as the exchange leaves it when the other processes hold
    the ranges [lrs ++ [rl]]. *)
Lemma endpoint_exchange_layout e s lrs rl first_index :
  2 <= n_procs s < 2 ^ 32 - 1 ->
  vsize (lrs ++ [rl]) = n_procs s ->
  0 <= my_pid s ->
  (lrs ++ [rl]) !! Z.to_nat (my_pid s) = Some (local_range_data s) ->
  root_first e = fst (get (lrs ++ [rl]) 0) ->
  gathered_second e = map snd (lrs ++ [rl]) ->
  endpoint_exchange e s = Ok first_index ->
  first_index =
    fst (get (lrs ++ [rl]) 0) :: map snd lrs ++ [global_size s].
Proof.
  intros Hp Hlen Hme0 Hme Hroot Hgather H.
  unfold endpoint_exchange in H.
  inv_bind H as [] _. inv_bind H as [] _. injection H as <-.
  rewrite uint_small by lia.
  replace (Z.to_nat (n_procs s + 1)) with (S (length (lrs ++ [rl])))
    by (unfold vsize in Hlen; lia).
  cbn [replicate]. rewrite !put_head.
  assert (E0 : (if my_pid s =? 0
                then fst (local_range_data s) :: replicate (length (lrs ++ [rl])) 0
                else root_first e :: replicate (length (lrs ++ [rl])) 0) =
               fst (get (lrs ++ [rl]) 0) :: replicate (length (lrs ++ [rl])) 0).
  { destruct (Z.eqb_spec (my_pid s) 0) as [Ez|]; [|rewrite Hroot; reflexivity].
    rewrite Ez in Hme. rewrite (get_lookup _ 0 _ Hme). reflexivity. }
  rewrite E0. rewrite list_inserts_cons.
  rewrite Hgather, <- Hlen.
  assert (Hv : vsize (lrs ++ [rl]) = vsize (map snd (lrs ++ [rl])))
    by (unfold vsize; rewrite length_map; reflexivity).
  rewrite Hv at 1. rewrite allgather_layout.
  2:{ apply get_lookup. apply lookup_map. exact Hme. }
  rewrite <- (app_nil_r (replicate _ _)).
  rewrite list_inserts_0_r by (rewrite length_map, length_replicate; reflexivity).
  rewrite app_nil_r. rewrite map_app. cbn [map].
  assert (Hput : forall (x : Z) (l : list Z) (a b : Z),
            put (x :: l ++ [a]) (vsize (l ++ [a])) b = x :: l ++ [b]).
  { intros x l a b.
    change (x :: l ++ [a]) with ((x :: l) ++ a :: []).
    replace (vsize (l ++ [a])) with (vsize (x :: l))
      by (rewrite vsize_app, vsize_cons; change (vsize [a]) with 1; lia).
    apply (put_middle (x :: l) [] a b). }
  replace (vsize (lrs ++ [rl])) with (vsize (map snd lrs ++ [snd rl]))
    by (unfold vsize; rewrite !length_app, length_map; reflexivity).
  apply Hput.
Qed.

Lemma laid_out_first r t N : laid_out 0 (r :: t) N -> fst r = 0.
Proof. cbn [laid_out]. intros [(_ & H & _) | (_ & H & _)]; lia. Qed.

(** [first_index] after the guarded forward fill holds the start of every
    process, and N at the end. *)
Lemma filled_layout lrs rl N (P : Z) :
  vsize (lrs ++ [rl]) = P ->
  laid_out 0 (lrs ++ [rl]) N ->
  (if 0 <? N
   then fill_zeros P
          (fst (get (lrs ++ [rl]) 0) :: map snd lrs ++ [N])
   else fst (get (lrs ++ [rl]) 0) :: map snd lrs ++ [N]) =
  starts 0 (lrs ++ [rl]) ++ [N].
Proof.
  intros Hlen Hlay.
  assert (Hx : fst (get (lrs ++ [rl]) 0) = 0).
  { destruct lrs as [|r0 t]; cbn [app] in *;
      (change (get (?r :: ?l) 0) with r); eapply laid_out_first, Hlay. }
  rewrite Hx. rewrite <- (starts_fill lrs 0 rl N Hlay) by lia.
  cbn [app].
  assert (Hfill : fill_zeros P (0 :: map snd lrs ++ [N]) =
                  0 :: fill_n (length lrs) 0 (map snd lrs) ++ [N]).
  { unfold fill_zeros.
    pose proof (fill_zeros_from (length lrs) [] 0 (map snd lrs ++ [N]) P) as E.
    cbn [app] in E. change (vsize []) with 0 in E. rewrite Z.add_0_l in E.
    rewrite E.
    - rewrite <- (length_map snd lrs) at 1. rewrite fill_n_app.
      rewrite length_map. reflexivity.
    - rewrite length_app, length_map. lia.
    - rewrite vsize_app in Hlen. unfold vsize in Hlen. cbn [length] in Hlen.
      lia. }
  destruct (Z.ltb_spec 0 N) as [Hpos|Hz]; [exact Hfill|].
  pose proof (laid_out_le _ _ _ Hlay) as Hle.
  assert (N = 0) by lia. subst N.
  pose proof (laid_out_zero _ _ Hlay (Z.le_refl 0)) as Hall.
  apply Forall_app in Hall. destruct Hall as [Hall _].
  rewrite <- (length_map snd lrs). rewrite fill_n_zeros; [reflexivity|].
  clear - Hall. induction Hall as [|r t [_ Hr] _ IH]; constructor; assumption.
Qed.




(** Outside such a layout: a process that was given an empty owned set
    after it held [3,7) keeps that range ([set_owned_indices] leaves it),
    so that the ranges of the processes overlap; in a release build
    [first_index] then comes out of the fixup as [0; 8; 7; 8]. *)
Example stale_range_is_not_a_layout :
  set_owned_indices stale_env1 stale_owned_state (IndexSet.mk 8 []) =
    Ok stale_owned_state /\
  endpoint_exchange stale_env1 stale_owned_state = Ok [0; 8; 7; 8] /\
  local_range_fixup stale_env1 stale_owned_state [0; 8; 7; 8] =
    Ok ([0; 8; 7; 8], (8, 8)).
Proof. repeat split; vm_compute; reflexivity. Qed.

(** ** The local compression pass (C4) *)

Lemma compress_step_value e lr expanded shift st ii :
  compress_step e lr expanded shift st ii =
  compress_value e lr st (get expanded (uint (shift + ii))).
Proof. destruct st as [last C]. reflexivity. Qed.

Lemma drop_get (l : list Z) (k : Z) :
  0 <= k < vsize l ->
  drop (Z.to_nat k) l = get l k :: drop (Z.to_nat (k + 1)) l.
Proof.
  intros Hk. unfold get, vsize in *.
  replace (Z.to_nat (k + 1)) with (S (Z.to_nat k)) by lia.
  apply drop_S. apply list_lookup_lookup_total_lt. lia.
Qed.

(** An index loop over a window of a vector is a loop over the elements of
    the window. *)
Lemma for_each_window {St} (f : St -> Z -> result St) (l : list Z)
    (shift : Z) (n : nat) : forall k st,
  0 <= shift -> 0 <= k ->
  shift + k + Z.of_nat n <= vsize l ->
  vsize l < 2 ^ 32 ->
  for_each (upto k (k + Z.of_nat n))
           (fun st ii => f st (get l (uint (shift + ii)))) st =
  for_each (take n (drop (Z.to_nat (shift + k)) l)) f st.
Proof.
  induction n as [|n IH]; intros k st Hs Hk Hn Hl.
  - rewrite upto_nil by lia. reflexivity.
  - rewrite upto_cons by lia. rewrite drop_get by lia.
    cbn [take for_each]. rewrite uint_small by lia.
    destruct (f st (get l (shift + k))) as [st'|x]; [|reflexivity].
    cbn [mbind result_bind].
    replace (k + Z.of_nat (S n)) with (k + 1 + Z.of_nat n) by lia.
    rewrite IH by lia. do 3 f_equal. lia.
Qed.


Lemma upto_snoc lo hi : lo <= hi -> upto lo (hi + 1) = upto lo hi ++ [hi].
Proof.
  intros H. unfold upto.
  replace (hi + 1 - lo) with ((hi - lo) + 1) by lia.
  rewrite seqZ_app by lia. f_equal.
  rewrite seqZ_cons by lia. rewrite seqZ_nil by lia. f_equal. lia.
Qed.

Lemma upto_single y : upto y (y + 1) = [y].
Proof. rewrite upto_cons by lia. rewrite upto_nil by lia. reflexivity. Qed.

Section Compression.
Variable e : Env.
Variable lr : Z * Z.
Hypothesis local_size_fits : snd lr - fst lr <= 2 ^ 32 - 1.

Let in_local_range (x : Z) : Prop := fst lr <= x < snd lr.
Let bounded (r : Z * Z) : Prop := 0 <= fst r /\ snd r <= snd lr - fst lr.

Lemma compress_value_in_range st x :
  in_local_range x ->
  compress_value e lr st x =
  Ok (x - fst lr,
      if x - fst lr =? dof (fst st + 1)
      then update_back incr_second (snd st)
      else snd st ++ [(x - fst lr, x - fst lr + 1)]).
Proof.
  intros Hx. unfold in_local_range in Hx. unfold compress_value.
  rewrite (Assert_holds e (_ && _))
    by (apply andb_true_intro; split; [apply Z.leb_le | apply Z.ltb_lt]; lia).
  cbn [mbind result_bind].
  rewrite (dof_small (x - fst lr)) by lia.
  rewrite (Assert_holds e (_ <? _))
    by (apply Z.ltb_lt; unfold invalid_unsigned_int; lia).
  cbn [mbind result_bind].
  rewrite (dof_small (x - fst lr + 1)) by lia.
  rewrite !uint_small by lia. reflexivity.
Qed.

(** The loop inside a run: the state holds the open range [[a, b)] and
    [last_index = b - 1]. *)
Lemma run_loop xs : forall C a b,
  0 <= a < b -> b <= snd lr - fst lr ->
  Forall in_local_range xs ->
  Sorted Z.lt (fst lr + (b - 1) :: xs) ->
  exists b' T last',
    for_each xs (compress_value e lr) (b - 1, C ++ [(a, b)]) =
      Ok (last', C ++ (a, b') :: T) /\
    decode ((a, b') :: T) = upto a b ++ map (fun x => x - fst lr) xs /\
    separated ((a, b') :: T) /\
    Forall bounded ((a, b') :: T).
Proof.
  induction xs as [|x xs IH]; intros C a b Hab Hb Hin Hs.
  - exists b, [], (b - 1). cbn [for_each map].
    split; [reflexivity|]. split.
    { unfold decode. cbn [flat_map fst snd]. reflexivity. }
    split.
    { split; repeat constructor. cbn [fst snd]. lia. }
    repeat constructor; cbn [fst snd]; lia.
  - apply Forall_cons in Hin. destruct Hin as [Hx Hin].
    apply Sorted_inv in Hs. destruct Hs as [Hs Hhd]. apply HdRel_inv in Hhd.
    pose proof Hx as Hx'. unfold in_local_range in Hx'.
    cbn [for_each]. rewrite compress_value_in_range by exact Hx.
    cbn [mbind result_bind fst snd].
    rewrite (dof_small (b - 1 + 1)) by lia.
    destruct (Z.eqb_spec (x - fst lr) (b - 1 + 1)) as [E|N].
    + rewrite update_back_snoc. unfold incr_second. cbn [fst snd].
      rewrite uint_small by lia.
      replace (x - fst lr) with (b + 1 - 1) by lia.
      destruct (IH C a (b + 1)) as (b' & T & last' & Hrun & Hdec & Hsep & Hbd);
        [lia | lia | exact Hin | |].
      { replace (fst lr + (b + 1 - 1)) with x by lia. exact Hs. }
      exists b', T, last'. split; [exact Hrun|].
      split; [|split; assumption].
      rewrite Hdec. rewrite upto_snoc by lia. rewrite <- app_assoc.
      cbn [map app]. do 3 f_equal. lia.
    + destruct (IH (C ++ [(a, b)]) (x - fst lr) (x - fst lr + 1))
        as (b' & T & last' & Hrun & Hdec & Hsep & Hbd);
        [lia | lia | exact Hin | |].
      { replace (fst lr + (x - fst lr + 1 - 1)) with x by lia. exact Hs. }
      replace (x - fst lr + 1 - 1) with (x - fst lr) in Hrun by lia.
      exists b, ((x - fst lr, b') :: T), last'.
      rewrite Hrun. rewrite <- app_assoc. cbn [app].
      split; [reflexivity|]. split.
      { change (decode ((a, b) :: (x - fst lr, b') :: T))
          with (upto a b ++ decode ((x - fst lr, b') :: T)).
        rewrite Hdec. rewrite upto_single. reflexivity. }
      split.
      { destruct Hsep as [Hne Hso]. split.
        - constructor; [cbn [fst snd]; lia | exact Hne].
        - constructor; [exact Hso|]. constructor. cbn [fst snd]. lia. }
      constructor; [|exact Hbd]. unfold bounded. cbn [fst snd]. lia.
Qed.

(** One chunk: strictly ascending indices of the local range are stored
    as separated ranges that decode to their local offsets, after the
    ranges [C] of the chunks before. *)
Lemma chunk_loop xs C :
  Forall in_local_range xs ->
  Sorted Z.lt xs ->
  exists R last',
    for_each xs (compress_value e lr) (dof (invalid_dof_index - 1), C) =
      Ok (last', C ++ R) /\
    decode R = map (fun x => x - fst lr) xs /\
    separated R /\
    Forall bounded R.
Proof.
  intros Hin Hs. destruct xs as [|x xs].
  - exists [], (dof (invalid_dof_index - 1)). cbn [for_each map].
    rewrite app_nil_r. split; [reflexivity|]. split; [reflexivity|].
    split; [split; constructor | constructor].
  - apply Forall_cons in Hin. destruct Hin as [Hx Hin].
    pose proof Hx as Hx'. unfold in_local_range in Hx'.
    cbn [for_each]. rewrite compress_value_in_range by exact Hx.
    cbn [mbind result_bind fst snd].
    replace (x - fst lr =? dof (dof (invalid_dof_index - 1) + 1)) with false
      by (symmetry; apply Z.eqb_neq; vm_compute dof; lia).
    destruct (run_loop xs C (x - fst lr) (x - fst lr + 1))
      as (b' & T & last' & Hrun & Hdec & Hsep & Hbd);
      [lia | lia | exact Hin | |].
    { replace (fst lr + (x - fst lr + 1 - 1)) with x by lia. exact Hs. }
    replace (x - fst lr + 1 - 1) with (x - fst lr) in Hrun by lia.
    exists ((x - fst lr, b') :: T), last'.
    split; [exact Hrun|]. split; [|split; assumption].
    rewrite Hdec, upto_single. reflexivity.
Qed.

End Compression.

Lemma for_each_ext {A St} (f g : St -> A -> result St) (l : list A) :
  (forall s a, f s a = g s a) -> forall s, for_each l f s = for_each l g s.
Proof.
  intros Hfg. induction l as [|a l IH]; intros s; [reflexivity|].
  cbn [for_each]. rewrite Hfg. destruct (g s a); [apply IH | reflexivity].
Qed.

Lemma get_put_same (l : list Z) (i x : Z) :
  0 <= i < vsize l -> get (put l i x) i = x.
Proof.
  intros Hi. unfold get, put, vsize in *.
  apply list_lookup_total_insert_eq. lia.
Qed.

Lemma get_put_other (l : list Z) (i j x : Z) :
  0 <= i -> 0 <= j -> i <> j -> get (put l i x) j = get l j.
Proof.
  intros Hi Hj Hne. unfold get, put.
  apply list_lookup_total_insert_ne. lia.
Qed.

Lemma vsize_put {A} (l : list A) (i : Z) (x : A) : vsize (put l i x) = vsize l.
Proof. unfold vsize, put. rewrite length_insert. reflexivity. Qed.

Lemma vsize_resize n v : 0 <= n -> vsize (resize n v) = n.
Proof.
  intros Hn. unfold vsize, resize.
  rewrite length_app, length_take, length_replicate. lia.
Qed.

Lemma slice_middle {A} (l1 l2 l3 : list A) :
  slice (l1 ++ l2 ++ l3) (vsize l1) (vsize (l1 ++ l2)) = l2.
Proof.
  unfold slice. rewrite vsize_app. unfold vsize.
  replace (Z.of_nat (length l1) + Z.of_nat (length l2) - Z.of_nat (length l1))
    with (Z.of_nat (length l2)) by lia.
  rewrite !Nat2Z.id. rewrite drop_app_length. apply take_app_length.
Qed.

Lemma sum_counts_app t1 t2 :
  sum_counts (t1 ++ t2) = sum_counts t1 + sum_counts t2.
Proof.
  unfold sum_counts. induction t1 as [|a t1 IH]; cbn [app fold_right]; lia.
Qed.

Lemma sum_counts_nonneg t :
  Forall (fun t => 0 <= snd t) t -> 0 <= sum_counts t.
Proof.
  unfold sum_counts. induction 1; cbn [fold_right]; lia.
Qed.

Lemma chunk_start_next targets p :
  0 <= p < vsize targets ->
  chunk_start targets (p + 1) = chunk_start targets p + snd (get targets p).
Proof.
  intros Hp. unfold chunk_start, get, vsize in *.
  replace (Z.to_nat (p + 1)) with (S (Z.to_nat p)) by lia.
  assert (Hl : targets !! Z.to_nat p = Some (targets !!! Z.to_nat p))
    by (apply list_lookup_lookup_total_lt; lia).
  rewrite (take_S_r _ _ _ Hl), sum_counts_app.
  unfold sum_counts at 2. cbn [fold_right]. lia.
Qed.

Lemma chunk_start_bounds targets p :
  Forall (fun t => 0 <= snd t) targets ->
  0 <= chunk_start targets p <= sum_counts targets.
Proof.
  intros Hc. unfold chunk_start.
  rewrite <- (take_drop (Z.to_nat p) targets) at 3.
  rewrite sum_counts_app.
  pose proof (sum_counts_nonneg _ (Forall_take _ (Z.to_nat p) _ Hc)).
  pose proof (sum_counts_nonneg _ (Forall_drop _ (Z.to_nat p) _ Hc)). lia.
Qed.

Lemma vsize_upto lo hi : lo <= hi -> vsize (upto lo hi) = hi - lo.
Proof. intros H. unfold vsize, upto. rewrite length_seqZ. lia. Qed.

Lemma vsize_decode R :
  Forall (fun r => fst r < snd r) R -> vsize R <= vsize (decode R).
Proof.
  induction 1 as [|r R Hr HR IH]; [reflexivity|].
  change (decode (r :: R)) with (upto (fst r) (snd r) ++ decode R).
  rewrite vsize_app, vsize_cons, vsize_upto by lia. lia.
Qed.

Section CompressionPass.
Variable e : Env.
Variable lr : Z * Z.
Variable targets : list (Z * Z).
Variable expanded : list Z.
Hypothesis local_size_fits : snd lr - fst lr <= 2 ^ 32 - 1.
Hypothesis targets_fit : vsize targets < 2 ^ 32 - 1.
Hypothesis counts_nonneg : Forall (fun t => 0 <= snd t) targets.
Hypothesis buffer_size : vsize expanded = sum_counts targets.
Hypothesis buffer_fits : sum_counts targets < 2 ^ 32.
Hypothesis received_in_range :
  Forall (fun x => fst lr <= x < snd lr) expanded.
Hypothesis chunks_ascending :
  forall p, 0 <= p < vsize targets ->
            Sorted Z.lt (received_chunk targets expanded p).

Let stored_ok (r : Z * Z) : Prop :=
  0 <= fst r /\ fst r < snd r /\ snd r <= snd lr - fst lr.

Lemma count_nonneg p : 0 <= p < vsize targets -> 0 <= snd (get targets p).
Proof.
  intros Hp. rewrite Forall_forall in counts_nonneg.
  apply counts_nonneg. unfold get. apply list_elem_of_lookup_total_2.
  unfold vsize in Hp. lia.
Qed.

Lemma vsize_received_chunk p :
  0 <= p < vsize targets ->
  vsize (received_chunk targets expanded p) = snd (get targets p).
Proof.
  intros Hp. pose proof (count_nonneg p Hp) as Hc.
  pose proof (chunk_start_bounds targets p counts_nonneg) as Hb.
  pose proof (chunk_start_bounds targets (p + 1) counts_nonneg) as Hb'.
  rewrite chunk_start_next in Hb' by exact Hp.
  unfold received_chunk, slice, vsize in *.
  rewrite length_take, length_drop. lia.
Qed.

(** One iteration of the outer loop. *)
Lemma chunk_step p C chunks :
  0 <= p < vsize targets ->
  vsize C <= chunk_start targets p ->
  exists R,
    compress_chunk e lr targets expanded (chunk_start targets p, C, chunks) p =
      Ok (chunk_start targets (p + 1), C ++ R,
          put chunks (p + 1) (vsize (C ++ R))) /\
    decode R =
      map (fun x => x - fst lr) (received_chunk targets expanded p) /\
    separated R /\
    Forall stored_ok R /\
    vsize (C ++ R) <= chunk_start targets (p + 1).
Proof.
  intros Hp HC. pose proof (count_nonneg p Hp) as Hc.
  pose proof (chunk_start_bounds targets p counts_nonneg) as Hb.
  pose proof (chunk_start_bounds targets (p + 1) counts_nonneg) as Hb'.
  pose proof (chunk_start_next targets p Hp) as Hnext.
  unfold compress_chunk.
  rewrite (for_each_ext _ _ _ (compress_step_value e lr expanded _)).
  pose proof (for_each_window (compress_value e lr) expanded
                (chunk_start targets p) (Z.to_nat (snd (get targets p)))
                0 (dof (invalid_dof_index - 1), C)) as Hloop.
  rewrite Z.add_0_l, Z.add_0_r, Z2Nat.id in Hloop by lia.
  rewrite Hloop by lia. clear Hloop.
  assert (Hchunk : take (Z.to_nat (snd (get targets p)))
                     (drop (Z.to_nat (chunk_start targets p)) expanded) =
                   received_chunk targets expanded p).
  { unfold received_chunk, slice. do 2 f_equal. lia. }
  rewrite Hchunk.
  destruct (chunk_loop e lr local_size_fits
              (received_chunk targets expanded p) C)
    as (R & last' & Hrun & Hdec & Hsep & Hbd).
  { unfold received_chunk, slice. apply Forall_take, Forall_drop.
    exact received_in_range. }
  { apply chunks_ascending, Hp. }
  rewrite Hrun. cbn [mbind result_bind].
  assert (HR : vsize R <= snd (get targets p)).
  { destruct Hsep as [Hne _]. pose proof (vsize_decode R Hne) as Hle.
    rewrite Hdec in Hle. unfold vsize at 2 in Hle. rewrite length_map in Hle.
    fold (vsize (received_chunk targets expanded p)) in Hle.
    rewrite vsize_received_chunk in Hle by exact Hp. exact Hle. }
  pose proof (vsize_nonneg C). pose proof (vsize_nonneg R).
  exists R. rewrite vsize_app. rewrite !uint_small by lia.
  rewrite <- Hnext. split; [reflexivity|].
  split; [exact Hdec|]. split; [exact Hsep|]. split; [|lia].
  destruct Hsep as [Hne _]. rewrite Forall_forall in *.
  intros r Hr. specialize (Hne r Hr). specialize (Hbd r Hr).
  unfold stored_ok. lia.
Qed.

(** The outer loop from chunk [p] on, [k] chunks to go. *)
Lemma chunks_loop (k : nat) : forall p C chunks,
  Z.of_nat k = vsize targets - p ->
  0 <= p ->
  vsize C <= chunk_start targets p ->
  get chunks p = vsize C ->
  vsize chunks = vsize targets + 1 ->
  exists F chunks' shift',
    for_each (upto p (vsize targets))
             (compress_chunk e lr targets expanded)
             (chunk_start targets p, C, chunks) =
      Ok (shift', C ++ F, chunks') /\
    vsize chunks' = vsize targets + 1 /\
    (forall q, 0 <= q <= p -> get chunks' q = get chunks q) /\
    get chunks' (vsize targets) = vsize (C ++ F) /\
    Forall stored_ok F /\
    (forall q, p <= q < vsize targets ->
       get chunks' q <= get chunks' (q + 1) /\
       separated (stored_chunk chunks' (C ++ F) q) /\
       decode (stored_chunk chunks' (C ++ F) q) =
         map (fun x => x - fst lr) (received_chunk targets expanded q)).
Proof.
  induction k as [|k IH]; intros p C chunks Hk Hp HC Hget Hsize.
  - rewrite upto_nil by lia. exists [], chunks, (chunk_start targets p).
    rewrite app_nil_r. cbn [for_each].
    split; [reflexivity|]. split; [exact Hsize|].
    split; [reflexivity|]. split.
    { replace (vsize targets) with p by lia. exact Hget. }
    split; [constructor|]. intros q Hq. lia.
  - rewrite upto_cons by lia. cbn [for_each].
    destruct (chunk_step p C chunks) as (R & Hstep & Hdec & Hsep & Hok & HC');
      [lia | exact HC |].
    rewrite Hstep. cbn [mbind result_bind].
    destruct (IH (p + 1) (C ++ R) (put chunks (p + 1) (vsize (C ++ R))))
      as (F & chunks' & shift' & Hrun & Hsize' & Hsame & Hlast & HokF & Hall).
    { lia. } { lia. } { exact HC'. }
    { apply get_put_same. lia. }
    { rewrite vsize_put. exact Hsize. }
    exists (R ++ F), chunks', shift'.
    rewrite app_assoc. split; [exact Hrun|]. split; [exact Hsize'|].
    assert (Hp0 : get chunks' p = vsize C).
    { rewrite Hsame by lia. rewrite get_put_other by lia. exact Hget. }
    assert (Hp1 : get chunks' (p + 1) = vsize (C ++ R)).
    { rewrite Hsame by lia. apply get_put_same. lia. }
    split.
    { intros q Hq. rewrite Hsame by lia. apply get_put_other; lia. }
    split; [exact Hlast|].
    split; [apply Forall_app; split; assumption|].
    intros q Hq. destruct (Z.eq_dec q p) as [->|Hne].
    + unfold stored_chunk. rewrite Hp0, Hp1. rewrite <- app_assoc.
      rewrite slice_middle.
      split; [rewrite vsize_app; pose proof (vsize_nonneg R); lia|].
      split; assumption.
    + apply Hall. lia.
Qed.

Lemma sanity_check_passes F :
  Forall stored_ok F ->
  for_each F
    (fun (_ : unit) range =>
       Assert e (fst range <? dof (snd lr - fst lr))
              (ExcIndexRange (fst range) 0 (dof (snd lr - fst lr)));;
       Assert e (uint (snd range - 1) <? dof (snd lr - fst lr))
              (ExcIndexRange (uint (snd range - 1)) 0
                             (dof (snd lr - fst lr))))
    tt = Ok tt.
Proof.
  induction 1 as [|r F Hr HF IH]; [reflexivity|].
  cbn [for_each]. unfold stored_ok in Hr.
  rewrite (dof_small (snd lr - fst lr)) in * by lia.
  rewrite uint_small by lia.
  rewrite !Assert_holds by (apply Z.ltb_lt; lia).
  cbn [mbind result_bind]. exact IH.
Qed.

(** The whole pass. *)
Lemma compress_import_indices_spec old_chunks :
  exists chunks ranges,
    compress_import_indices e lr targets expanded old_chunks =
      Ok (chunks, ranges) /\
    vsize chunks = vsize targets + 1 /\
    get chunks 0 = 0 /\
    get chunks (vsize targets) = vsize ranges /\
    forall p, 0 <= p < vsize targets ->
      get chunks p <= get chunks (p + 1) /\
      separated (stored_chunk chunks ranges p) /\
      decode (stored_chunk chunks ranges p) =
        map (fun x => x - fst lr) (received_chunk targets expanded p).
Proof.
  pose proof (vsize_nonneg targets) as Hn.
  destruct (chunks_loop (Z.to_nat (vsize targets)) 0 []
              (put (resize (vsize targets + 1) old_chunks) 0 0))
    as (F & chunks' & shift' & Hrun & Hsize & Hsame & Hlast & Hok & Hall).
  { lia. } { lia. } { reflexivity. }
  { apply get_put_same. rewrite vsize_resize; lia. }
  { rewrite vsize_put. apply vsize_resize. lia. }
  exists chunks', F. unfold compress_import_indices.
  change (chunk_start targets 0) with 0 in Hrun.
  rewrite Hrun. cbn [mbind result_bind app].
  rewrite (sanity_check_passes F Hok). cbn [mbind result_bind].
  split; [reflexivity|]. split; [exact Hsize|]. split.
  { rewrite Hsame by lia. apply get_put_same. rewrite vsize_resize; lia. }
  split; [exact Hlast|]. intros p Hp. apply Hall. lia.
Qed.

End CompressionPass.

(** The pass inside [set_ghost_indices]: among two or more processes,
    [import_indices_data] and its chunk table are what the pass makes of the
    received indices, so that they satisfy the properties above whenever
    the received indices do. *)
Lemma set_ghost_indices_import_chunks e s g larger s' :
  set_ghost_indices e s g larger = Ok s' ->
  2 <= n_procs s ->
  exists expanded,
    exchange_indices e (n_ghost_indices_data s') (n_import_indices_data s')
      (ghost_targets_data s') (import_targets_data s') = Ok expanded /\
    (snd (local_range_data s') - fst (local_range_data s') <= 2 ^ 32 - 1 ->
     vsize (import_targets_data s') < 2 ^ 32 - 1 ->
     Forall (fun t => 0 <= snd t) (import_targets_data s') ->
     vsize expanded = sum_counts (import_targets_data s') ->
     sum_counts (import_targets_data s') < 2 ^ 32 ->
     Forall (fun x => fst (local_range_data s') <= x < snd (local_range_data s'))
            expanded ->
     (forall p, 0 <= p < vsize (import_targets_data s') ->
        Sorted Z.lt (received_chunk (import_targets_data s') expanded p)) ->
     forall p, 0 <= p < vsize (import_targets_data s') ->
       separated (stored_chunk (import_indices_chunks_by_rank_data s')
                               (import_indices_data s') p) /\
       decode (stored_chunk (import_indices_chunks_by_rank_data s')
                            (import_indices_data s') p) =
         map (fun x => x - fst (local_range_data s'))
             (received_chunk (import_targets_data s') expanded p)).
Proof.
  intros H Hp. apply set_ghost_indices_Ok in H.
  destruct H as [_ [[Hlt _] | [_ Hb]]]; [lia|].
  destruct Hb as (fi & fi' & _ & _ & _ & _ & expanded & Hex & Hcomp & _).
  exists expanded. split; [exact Hex|].
  intros H1 H2 H3 H4 H5 H6 H7 p Hpp.
  destruct (compress_import_indices_spec e (local_range_data s')
              (import_targets_data s') expanded H1 H2 H3 H4 H5 H6 H7
              (import_indices_chunks_by_rank_data s))
    as (chunks & ranges & Hrun & _ & _ & _ & Hall).
  rewrite Hrun in Hcomp. injection Hcomp as <- <-.
  destruct (Hall p Hpp) as (_ & Hsep & Hdec). split; assumption.
Qed.

(** C4: the local compression pass, run on received indices that lie in
    [[local_range.first, local_range.second)] and are strictly ascending
    within each chunk, returns; the chunk table has one more entry than
    there are import targets, starts at 0, is non-decreasing and ends at the
    number of ranges, so that every stored range belongs to exactly one
    chunk; and for every chunk [p] the ranges stored for it are non-empty,
    strictly ascending and not adjacent, and decode to exactly the local
    offsets of the indices received for [p], in order.  Since each chunk is
    decoded from its own ranges only, no range spans two chunks. *)
Theorem import_chunks_compressed e lr targets expanded old_chunks :
  snd lr - fst lr <= 2 ^ 32 - 1 ->
  vsize targets < 2 ^ 32 - 1 ->
  Forall (fun t => 0 <= snd t) targets ->
  vsize expanded = sum_counts targets ->
  sum_counts targets < 2 ^ 32 ->
  Forall (fun x => fst lr <= x < snd lr) expanded ->
  (forall p, 0 <= p < vsize targets ->
             Sorted Z.lt (received_chunk targets expanded p)) ->
  exists chunks ranges,
    compress_import_indices e lr targets expanded old_chunks =
      Ok (chunks, ranges) /\
    vsize chunks = vsize targets + 1 /\
    get chunks 0 = 0 /\
    get chunks (vsize targets) = vsize ranges /\
    forall p, 0 <= p < vsize targets ->
      get chunks p <= get chunks (p + 1) /\
      separated (stored_chunk chunks ranges p) /\
      decode (stored_chunk chunks ranges p) =
        map (fun x => x - fst lr) (received_chunk targets expanded p).
Proof.
  intros H1 H2 H3 H4 H5 H6 H7.
  exact (compress_import_indices_spec e lr targets expanded
           H1 H2 H3 H4 H5 H6 H7 old_chunks).
Qed.

(** Two senders whose chunks touch: [10; 11] from rank 1 and [12] from
    rank 2 are stored as [(10,12)] and [(12,13)], not as one range. *)
Example adjacent_chunks_not_merged :
  compress_import_indices s2_env0 (0, 50) adjacent_targets adjacent_expanded
                          [] =
  Ok ([0; 1; 2], [(10, 12); (12, 13)]).
Proof. vm_compute. reflexivity. Qed.

Lemma import_chunks_compressed_witness :
  exists chunks ranges,
    compress_import_indices s2_env0 (0, 50) adjacent_targets
                            adjacent_expanded [] =
      Ok (chunks, ranges) /\
    vsize chunks = vsize adjacent_targets + 1 /\
    get chunks 0 = 0 /\
    get chunks (vsize adjacent_targets) = vsize ranges /\
    forall p, 0 <= p < vsize adjacent_targets ->
      get chunks p <= get chunks (p + 1) /\
      separated (stored_chunk chunks ranges p) /\
      decode (stored_chunk chunks ranges p) =
        map (fun x => x - fst (0, 50))
            (received_chunk adjacent_targets adjacent_expanded p).
Proof.
  apply (import_chunks_compressed s2_env0 (0, 50) adjacent_targets
           adjacent_expanded []).
  - simpl. lia.
  - vm_compute. reflexivity.
  - repeat constructor; simpl; lia.
  - reflexivity.
  - vm_compute. reflexivity.
  - repeat constructor; simpl; lia.
  - intros p Hp. change (vsize adjacent_targets) with 2 in Hp.
    assert (Hcase : p = 0 \/ p = 1) by lia.
    destruct Hcase as [-> | ->]; vm_compute; repeat constructor.
Defined.

(** * Further properties of the code *)

(** ** set_owned_indices on a new partitioner *)

(** X1: the constructor from an owned set that compresses to the single
    range [[a, b)] of fewer than 2^32 - 1 indices returns a partitioner
    whose local range is [(a, b)], whose owned set is exactly that range
    over the index space of the input, whose ghost set is empty over the
    same space and whose [global_size] is the size of the input. *)
Theorem constructor_takes_contiguous_range e size rs comm a b :
  IndexSet.normalise rs = [(a, b)] ->
  0 <= a < b -> b < 2 ^ 64 -> b - a < UINT_MAX ->
  exists s',
    Partitioner_owned e (IndexSet.mk size rs) comm = Ok s' /\
    local_range_data s' = (a, b) /\
    locally_owned_range_data s' = IndexSet.mk size [(a, b)] /\
    ghost_indices_data s' = IndexSet.mk size [] /\
    global_size s' = dof size /\
    communicator s' = comm.
Proof.
  intros Hn Hab Hb Hw. unfold Partitioner_owned, set_owned_indices.
  assert (Hc : IndexSet.is_contiguous (IndexSet.mk size rs) = true).
  { unfold IndexSet.is_contiguous. cbn [IndexSet.ranges]. rewrite Hn.
    reflexivity. }
  rewrite Hc, Assert_true. cbn [mbind result_bind].
  assert (Hcount : IndexSet.n_elements (IndexSet.compress (IndexSet.mk size rs))
                   = b - a).
  { rewrite IndexSetFacts.n_elements_compress. unfold IndexSet.n_elements.
    cbn [IndexSet.ranges]. rewrite Hn. unfold IndexSet.total, IndexSet.width.
    cbn [fold_right fst snd]. lia. }
  assert (Hfirst : IndexSet.nth_index_in_set
                     (IndexSet.compress (IndexSet.mk size rs)) 0 = a).
  { unfold IndexSet.nth_index_in_set, IndexSet.compress.
    cbn [IndexSet.ranges]. rewrite IndexSetFacts.normalise_idem, Hn.
    cbn [IndexSet.nth_in]. unfold IndexSet.width. cbn [fst snd].
    destruct (Z.ltb_spec 0 (b - a)); lia. }
  rewrite Hcount, Hfirst.
  destruct (Z.ltb_spec 0 (b - a)) as [_|]; [|lia].
  replace (a + (b - a)) with b by lia. rewrite (dof_small b) by lia.
  cbn [fst snd]. rewrite (dof_small (b - a)) by (unfold UINT_MAX in Hw; lia).
  unfold AssertThrow. destruct (Z.ltb_spec (b - a) UINT_MAX) as [_|]; [|lia].
  cbn [mbind result_bind]. eexists. split; [reflexivity|].
  cbn [local_range_data locally_owned_range_data ghost_indices_data
       global_size communicator Partitioner_init].
  repeat split.
  unfold IndexSet.add_range, IndexSet.compress, IndexSet.set_size.
  destruct (Z.ltb_spec a b) as [_|]; [|lia].
  cbn [IndexSet.size IndexSet.ranges IndexSet.empty IndexSet.normalise
       fold_right IndexSet.insert_range fst snd].
  destruct (Z.ltb_spec a b) as [_|]; [reflexivity | lia].
Qed.

Lemma constructor_takes_contiguous_range_witness :
  exists s',
    Partitioner_owned s2_env0 (IndexSet.mk 10 [(2, 5); (0, 2)]) comm_pair =
      Ok s' /\
    local_range_data s' = (0, 5) /\
    locally_owned_range_data s' = IndexSet.mk 10 [(0, 5)] /\
    ghost_indices_data s' = IndexSet.mk 10 [] /\
    global_size s' = dof 10 /\
    communicator s' = comm_pair.
Proof.
  apply (constructor_takes_contiguous_range s2_env0 10 [(2, 5); (0, 2)]
           comm_pair 0 5).
  - reflexivity.
  - lia.
  - reflexivity.
  - reflexivity.
Defined.

(** ** The ghost targets stand for the owners *)

Lemma expand_targets_app t1 t2 :
  expand_targets (t1 ++ t2) = expand_targets t1 ++ expand_targets t2.
Proof. unfold expand_targets. apply flat_map_app. Qed.

Lemma group_step_snoc_Ok e G r c o gt :
  group_step e (G ++ [(r, c)]) o = Ok gt ->
  gt = (if o =? r then G ++ [(r, uint (c + 1))]
        else (G ++ [(r, c)]) ++ [(o, 1)]) /\
  (debug e = true -> r <= o).
Proof.
  unfold group_step. rewrite back_snoc. cbn [fst]. intros H.
  inv_bind H as [] Ha. rewrite update_back_snoc in H. split.
  - destruct (o =? r); injection H as <-; reflexivity.
  - intros Hd. unfold Assert in Ha. rewrite Hd in Ha.
    apply AssertThrow_Ok in Ha. apply Z.leb_le. exact Ha.
Qed.

(** The grouping loop on any list of owners, from a state whose last run
    is [(r, c)]. *)
Lemma group_loop_expand e owners : forall G r c gt,
  0 <= c ->
  c + Z.of_nat (length owners) < 2 ^ 32 ->
  for_each owners (group_step e) (G ++ [(r, c)]) = Ok gt ->
  exists k T,
    gt = G ++ (r, c + k) :: T /\
    0 <= k /\
    (forall o os, owners = o :: os -> o = r -> 1 <= k) /\
    Forall (fun t => 0 < snd t) T /\
    replicate (Z.to_nat k) r ++ expand_targets T = owners /\
    k + sum_counts T = Z.of_nat (length owners) /\
    (debug e = true -> Sorted Z.le (r :: owners)).
Proof.
  induction owners as [|o os IH]; intros G r c gt Hc Hlen H.
  - cbn [for_each] in H. injection H as <-. exists 0, [].
    rewrite Z.add_0_r. repeat split; try reflexivity; try lia.
    + discriminate.
    + constructor.
    + intros _. repeat constructor.
  - cbn [for_each] in H. inv_bind H as gt1 Hstep.
    apply group_step_snoc_Ok in Hstep. destruct Hstep as [-> Hle].
    cbn [length] in Hlen. rewrite Nat2Z.inj_succ in Hlen.
    destruct (Z.eqb_spec o r) as [->|Hne].
    + rewrite uint_small in H by lia.
      destruct (IH G r (c + 1) gt)
        as (k & T & -> & Hk & _ & Hpos & Hexp & Hsum & Hs);
        [lia | lia | exact H |].
      exists (k + 1), T.
      replace (c + (k + 1)) with (c + 1 + k) by lia.
      repeat split; try assumption; try lia.
      * replace (Z.to_nat (k + 1)) with (S (Z.to_nat k)) by lia.
        cbn [replicate app]. rewrite Hexp. reflexivity.
      * cbn [length]. lia.
      * intros Hd. specialize (Hs Hd). constructor; [exact Hs|].
        constructor. lia.
    + destruct (IH (G ++ [(r, c)]) o 1 gt)
        as (k & T & -> & Hk & _ & Hpos & Hexp & Hsum & Hs);
        [lia | lia | exact H |].
      exists 0, ((o, 1 + k) :: T).
      rewrite <- app_assoc. cbn [app]. rewrite Z.add_0_r.
      repeat split; try lia.
      * intros o' os' E. injection E as -> _. intros ->. contradiction.
      * constructor; [cbn [snd]; lia | exact Hpos].
      * cbn [Z.to_nat replicate app].
        change (expand_targets ((o, 1 + k) :: T))
          with (replicate (Z.to_nat (1 + k)) o ++ expand_targets T).
        replace (Z.to_nat (1 + k)) with (S (Z.to_nat k)) by lia.
        cbn [replicate app]. rewrite Hexp. reflexivity.
      * unfold sum_counts in *. cbn [fold_right snd length]. lia.
      * intros Hd. specialize (Hs Hd). constructor; [exact Hs|].
        constructor. apply Hle, Hd.
Qed.

(** X2: whatever [compute_index_owner] returned for fewer than 2^32
    ghosts, a successful [set_ghost_indices] among two or more processes
    leaves ghost targets of positive counts that stand for exactly that
    list of owners: expanding every [(rank, count)] into [count] copies of
    [rank] gives the list back, and the counts sum to its length.  In a
    debug build the call succeeds only if the list is non-decreasing. *)
Theorem ghost_targets_stand_for_owners e s g larger s' :
  set_ghost_indices e s g larger = Ok s' ->
  2 <= n_procs s ->
  Z.of_nat
    (length (compute_index_owner e (locally_owned_range_data s)
               (normalise_ghosts s g) (communicator s))) < 2 ^ 32 ->
  expand_targets (ghost_targets_data s') =
    compute_index_owner e (locally_owned_range_data s)
      (normalise_ghosts s g) (communicator s) /\
  Forall (fun t => 0 < snd t) (ghost_targets_data s') /\
  sum_counts (ghost_targets_data s') =
    Z.of_nat
      (length (compute_index_owner e (locally_owned_range_data s)
                 (normalise_ghosts s g) (communicator s))) /\
  (debug e = true ->
   Sorted Z.le
     (compute_index_owner e (locally_owned_range_data s)
        (normalise_ghosts s g) (communicator s))).
Proof.
  intros H Hp Hlen. apply set_ghost_indices_Ok in H.
  destruct H as [_ [[Hlt _] | [_ Hb]]]; [lia|].
  destruct Hb as (fi & fi' & _ & _ & Hg & _).
  set (owners := compute_index_owner e (locally_owned_range_data s)
                   (normalise_ghosts s g) (communicator s)) in *.
  unfold group_ghost_targets in Hg. destruct owners as [|o os].
  - cbn in Hg. injection Hg as <-.
    repeat split; try constructor.
  - replace (0 <? vsize (o :: os)) with true in Hg
      by (symmetry; apply Z.ltb_lt; unfold vsize; cbn [length]; lia).
    change (get (o :: os) 0) with o in Hg.
    destruct (group_loop_expand e (o :: os) [] o 0 _ (Z.le_refl 0) Hlen Hg)
      as (k & T & -> & Hk & Hk1 & Hpos & Hexp & Hsum & Hs).
    cbn [app]. rewrite Z.add_0_l.
    specialize (Hk1 o os eq_refl eq_refl).
    repeat split.
    + exact Hexp.
    + constructor; [cbn [snd]; lia | exact Hpos].
    + unfold sum_counts in *. cbn [fold_right snd]. lia.
    + intros Hd. specialize (Hs Hd). apply Sorted_inv in Hs. apply Hs.
Qed.

Lemma ghost_targets_stand_for_owners_witness :
  expand_targets (ghost_targets_data s2_ready_state) = [1; 1] /\
  Forall (fun t => 0 < snd t) (ghost_targets_data s2_ready_state) /\
  sum_counts (ghost_targets_data s2_ready_state) = 2 /\
  (debug s2_env0 = true -> Sorted Z.le [1; 1]).
Proof.
  apply (ghost_targets_stand_for_owners s2_env0 s2_owned_state s2_ghost0
           IndexSet.empty s2_ready_state).
  - vm_compute. reflexivity.
  - vm_compute. discriminate.
  - vm_compute. reflexivity.
Defined.

(** ** The import targets *)

Lemma uint_add_l a b : uint (uint a + b) = uint (a + b).
Proof. unfold uint. apply Zplus_mod_idemp_l. Qed.

(** The collecting loop over the ranks [lo, lo + k). *)
Lemma collect_loop (rb : list Z) (k : nat) : forall lo n T,
  0 <= n < 2 ^ 32 ->
  exists T',
    foldl (fun '(n_import_indices, import_targets_temp) i =>
             if 0 <? get rb i then
               (uint (n_import_indices + get rb i),
                import_targets_temp ++ [(i, uint (get rb i))])
             else (n_import_indices, import_targets_temp))
          (n, T) (upto lo (lo + Z.of_nat k)) =
      (uint (n + sum_counts T'), T ++ T') /\
    Sorted Z.lt (map fst T') /\
    Forall (fun t => lo <= fst t < lo + Z.of_nat k /\
                     0 < get rb (fst t) /\
                     snd t = uint (get rb (fst t))) T' /\
    (forall i, lo <= i < lo + Z.of_nat k -> 0 < get rb i ->
               In (i, uint (get rb i)) T').
Proof.
  induction k as [|k IH]; intros lo n T Hn.
  - rewrite upto_nil by lia. exists []. cbn [foldl sum_counts fold_right map].
    rewrite Z.add_0_r, uint_small, app_nil_r by lia.
    repeat split; try constructor. intros i Hi. lia.
  - rewrite upto_cons by lia. cbn [foldl].
    replace (lo + Z.of_nat (S k)) with (lo + 1 + Z.of_nat k) by lia.
    destruct (Z.ltb_spec 0 (get rb lo)) as [Hpos|Hnon].
    + destruct (IH (lo + 1) (uint (n + get rb lo))
                  (T ++ [(lo, uint (get rb lo))]))
        as (T' & Hrun & Hs & Hall & Hin).
      { unfold uint. apply Z.mod_pos_bound. lia. }
      exists ((lo, uint (get rb lo)) :: T'). rewrite Hrun.
      rewrite <- app_assoc. cbn [app]. split.
      { f_equal. unfold sum_counts. cbn [fold_right snd].
        fold (sum_counts T'). unfold uint. rewrite Zplus_mod_idemp_l.
        replace (n + (get rb lo mod 2 ^ 32 + sum_counts T'))
          with (get rb lo mod 2 ^ 32 + (n + sum_counts T')) by lia.
        rewrite Zplus_mod_idemp_l. f_equal. lia. }
      split.
      { cbn [map fst]. constructor; [exact Hs|].
        destruct T' as [|t T'']; constructor.
        apply Forall_cons in Hall. destruct Hall as [[Ht _] _]. cbn [fst]. lia. }
      split.
      { constructor.
        - cbn [fst snd]. repeat split; try lia.
        - eapply Forall_impl; [exact Hall|]. cbn beta.
          intros t [Ht Hrest]. split; [lia | exact Hrest]. }
      intros i Hi Hip. destruct (Z.eq_dec i lo) as [->|Hne].
      * left. reflexivity.
      * right. apply Hin; [lia | exact Hip].
    + destruct (IH (lo + 1) n T Hn) as (T' & Hrun & Hs & Hall & Hin).
      exists T'. rewrite Hrun. split; [reflexivity|].
      split; [exact Hs|]. split.
      { eapply Forall_impl; [exact Hall|]. cbn beta.
        intros t [Ht Hrest]. split; [lia | exact Hrest]. }
      intros i Hi Hip. destruct (Z.eq_dec i lo) as [->|Hne]; [lia|].
      apply Hin; [lia | exact Hip].
Qed.

Lemma cint_small x : - 2 ^ 31 <= x < 2 ^ 31 -> cint x = x.
Proof. intros H. unfold cint. rewrite Z.mod_small; lia. Qed.

Lemma cint_range x : - 2 ^ 31 <= cint x < 2 ^ 31.
Proof.
  unfold cint. pose proof (Z.mod_pos_bound (x + 2 ^ 31) (2 ^ 32)). lia.
Qed.

Lemma foldl_get_upto {A B} `{Inhabited A} (f : B -> A -> B) (l : list A) :
  forall pre acc,
    foldl (fun acc i => f acc (get (pre ++ l) i)) acc
          (upto (vsize pre) (vsize pre + vsize l)) =
    foldl f acc l.
Proof.
  induction l as [|a t IH]; intros pre acc.
  - rewrite upto_nil by (unfold vsize; simpl; lia). reflexivity.
  - rewrite upto_cons by (rewrite vsize_cons; pose proof (vsize_nonneg t); lia).
    cbn [foldl]. rewrite get_middle.
    specialize (IH (pre ++ [a]) (f acc a)).
    rewrite <- app_assoc in IH. cbn [app] in IH.
    rewrite vsize_app in IH. change (vsize [a]) with 1 in IH.
    rewrite vsize_cons.
    replace (vsize pre + (1 + vsize t)) with (vsize pre + 1 + vsize t) by lia.
    exact IH.
Qed.

Lemma get_map_upto (f : Z -> Z) (k : nat) : forall lo hi i,
  Z.to_nat i = k -> 0 <= i -> lo + i < hi ->
  get (map f (upto lo hi)) i = f (lo + i).
Proof.
  induction k as [|k IH]; intros lo hi i Hk Hi Hlt.
  - assert (i = 0) by lia. subst i. rewrite upto_cons by lia.
    rewrite Z.add_0_r. reflexivity.
  - rewrite upto_cons by lia. cbn [map]. unfold get. rewrite Hk.
    change ((?x :: ?l) !!! S k) with (l !!! k).
    specialize (IH (lo + 1) hi (i - 1)). unfold get in IH.
    replace (Z.to_nat (i - 1)) with k in IH by lia.
    rewrite IH by lia. f_equal. lia.
Qed.

Lemma vsize_map_upto (f : Z -> Z) lo hi :
  lo <= hi -> vsize (map f (upto lo hi)) = hi - lo.
Proof. intros H. unfold vsize. rewrite length_map. apply vsize_upto, H. Qed.

(** ** The send buffer *)

Lemma fill_send_buffer_list np targets :
  vsize targets < 2 ^ 32 ->
  fill_send_buffer np targets =
  foldl (fun buf t => put buf (fst t) (cint (snd t)))
        (replicate (Z.to_nat np) 0) targets.
Proof.
  intros Hn. unfold fill_send_buffer.
  rewrite uint_small by (pose proof (vsize_nonneg targets); lia).
  apply (foldl_get_upto (fun buf t => put buf (fst t) (cint (snd t)))
           targets []).
Qed.

Lemma send_loop_vsize targets : forall buf,
  vsize (foldl (fun buf t => put buf (fst t) (cint (snd t))) buf targets) =
  vsize buf.
Proof.
  induction targets as [|t ts IH]; intros buf; [reflexivity|].
  cbn [foldl]. rewrite IH. apply vsize_put.
Qed.

Lemma send_loop_other targets : forall buf r,
  0 <= r ->
  Forall (fun t => 0 <= fst t) targets ->
  ~ In r (map fst targets) ->
  get (foldl (fun buf t => put buf (fst t) (cint (snd t))) buf targets) r =
  get buf r.
Proof.
  induction targets as [|t ts IH]; intros buf r Hr Hall Hnot; [reflexivity|].
  apply Forall_cons in Hall. destruct Hall as [Ht Hall].
  cbn [foldl]. rewrite IH; [|exact Hr | exact Hall |].
  - apply get_put_other; [exact Ht | exact Hr |].
    intros E. apply Hnot. left. exact E.
  - intros Hin. apply Hnot. right. exact Hin.
Qed.

Lemma send_loop_entry targets : forall buf r c,
  0 <= r < vsize buf ->
  Forall (fun t => 0 <= fst t) targets ->
  List.NoDup (map fst targets) ->
  In (r, c) targets ->
  get (foldl (fun buf t => put buf (fst t) (cint (snd t))) buf targets) r =
  cint c.
Proof.
  induction targets as [|t ts IH]; intros buf r c Hr Hall Hnd Hin;
    [destruct Hin|].
  apply Forall_cons in Hall. destruct Hall as [Ht Hall].
  cbn [map] in Hnd. apply List.NoDup_cons_iff in Hnd.
  destruct Hnd as [Hnot Hnd]. cbn [foldl].
  destruct Hin as [->|Hin].
  - cbn [fst snd] in *. rewrite send_loop_other; [|lia | exact Hall | exact Hnot].
    apply get_put_same. exact Hr.
  - apply IH; [rewrite vsize_put; exact Hr | exact Hall | exact Hnd | exact Hin].
Qed.

Lemma Sorted_lt_NoDup_In l : Sorted Z.lt l -> List.NoDup l.
Proof.
  intros H. apply Sorted_StronglySorted in H; [|intros x y z; lia].
  induction H as [|a l Hl IH Hall]; constructor; [|assumption].
  intros Hin. rewrite List.Forall_forall in Hall. specialize (Hall a Hin). lia.
Qed.

(** X3: the send buffer built from ghost targets of strictly ascending
    ranks below [np] has [np] entries, holds the count (as an [int]) of
    every target at its rank and 0 at every other rank. *)
Theorem send_buffer_holds_counts np targets :
  0 <= np ->
  vsize targets < 2 ^ 32 ->
  Sorted Z.lt (map fst targets) ->
  Forall (fun t => 0 <= fst t < np) targets ->
  vsize (fill_send_buffer np targets) = np /\
  (forall r c, In (r, c) targets ->
               get (fill_send_buffer np targets) r = cint c) /\
  (forall r, 0 <= r < np -> ~ In r (map fst targets) ->
             get (fill_send_buffer np targets) r = 0).
Proof.
  intros Hnp Hn Hs Hall. rewrite (fill_send_buffer_list np targets Hn).
  assert (Hnn : Forall (fun t : Z * Z => 0 <= fst t) targets)
    by (eapply Forall_impl; [exact Hall | cbn beta; intros t Ht; lia]).
  assert (Hsize : vsize (replicate (Z.to_nat np) 0) = np)
    by (unfold vsize; rewrite length_replicate; lia).
  split; [rewrite send_loop_vsize; exact Hsize|]. split.
  - intros r c Hin. apply send_loop_entry; try assumption.
    + rewrite Hsize. rewrite List.Forall_forall in Hall.
      apply (Hall (r, c) Hin).
    + apply Sorted_lt_NoDup_In, Hs.
  - intros r Hr Hnot. rewrite send_loop_other by (try assumption; lia).
    unfold get. apply lookup_total_replicate_2. lia.
Qed.

Lemma send_buffer_holds_counts_witness :
  vsize (fill_send_buffer 3 [(0, 1); (2, 1)]) = 3 /\
  (forall r c, In (r, c) [(0, 1); (2, 1)] ->
               get (fill_send_buffer 3 [(0, 1); (2, 1)]) r = cint c) /\
  (forall r, 0 <= r < 3 -> ~ In r (map fst [(0, 1); (2, 1)]) ->
             get (fill_send_buffer 3 [(0, 1); (2, 1)]) r = 0).
Proof.
  apply (send_buffer_holds_counts 3 [(0, 1); (2, 1)]).
  - lia.
  - vm_compute. reflexivity.
  - simpl. repeat constructor.
  - repeat constructor; simpl; lia.
Defined.

Lemma get_Forall (P : Z -> Prop) (l : list Z) (i : Z) :
  Forall P l -> P 1 -> P (get l i).
Proof.
  intros Hall Hd. unfold get. rewrite list_lookup_total_alt.
  destruct (l !! Z.to_nat i) as [x|] eqn:E; [|exact Hd].
  cbn. rewrite Forall_forall in Hall. apply Hall.
  eapply list_elem_of_lookup_2. exact E.
Qed.

Lemma fill_send_buffer_ints np targets :
  Forall (fun x => - 2 ^ 31 <= x < 2 ^ 31) (fill_send_buffer np targets).
Proof.
  unfold fill_send_buffer.
  assert (H0 : Forall (fun x => - 2 ^ 31 <= x < 2 ^ 31)
                      (replicate (Z.to_nat np) 0))
    by (apply Forall_replicate; lia).
  revert H0. generalize (replicate (Z.to_nat np) 0).
  induction (upto 0 (uint (vsize targets))) as [|i l IH]; intros buf Hbuf;
    [exact Hbuf|].
  cbn [foldl]. apply IH.
  unfold put. apply Forall_insert; [exact Hbuf | apply cint_range].
Qed.

(** X4: after a successful [set_ghost_indices] among two or more
    processes whose peers sent [int] counts, the import targets are strictly
    ascending by rank, every rank is below [n_procs], every count is
    positive, and [n_import_indices_data] is the sum of the counts in
    [unsigned int] arithmetic. *)
Theorem import_targets_ascending_positive e s g larger s' :
  set_ghost_indices e s g larger = Ok s' ->
  2 <= n_procs s ->
  Forall (fun x => - 2 ^ 31 <= x < 2 ^ 31) (alltoall_recv e) ->
  Sorted Z.lt (map fst (import_targets_data s')) /\
  Forall (fun t => 0 <= fst t < n_procs s /\ 0 < snd t < 2 ^ 31)
         (import_targets_data s') /\
  n_import_indices_data s' = uint (sum_counts (import_targets_data s')).
Proof.
  intros H Hp Hints. apply set_ghost_indices_Ok in H.
  destruct H as [_ [[Hlt _] | [_ Hb]]]; [lia|].
  destruct Hb as (fi & fi' & _ & _ & _ & Himp & _).
  unfold find_import_targets in Himp. inv_bind Himp as [] _.
  injection Himp as Himp. unfold collect_import_targets in Himp.
  set (rb := alltoall (my_pid s) (n_procs s)
               (fill_send_buffer (n_procs s) (ghost_targets_data s'))
               (alltoall_recv e)) in *.
  destruct (collect_loop rb (Z.to_nat (n_procs s)) 0 0 [])
    as (T' & Hrun & Hs & Hall & _); [lia|].
  rewrite Z.add_0_l, Z2Nat.id in Hrun, Hall by lia.
  rewrite Hrun in Himp. cbn [app] in Himp. rewrite Z.add_0_l in Himp.
  injection Himp as Hn HT. subst T'.
  split; [exact Hs|]. split; [|symmetry; exact Hn].
  eapply Forall_impl; [exact Hall|]. cbn beta.
  intros t (Hr & Hpos & Hc).
  assert (Hint : - 2 ^ 31 <= get rb (fst t) < 2 ^ 31).
  { unfold rb, alltoall.
    rewrite (get_map_upto _ (Z.to_nat (fst t))) by lia.
    rewrite Z.add_0_l. destruct (fst t =? my_pid s).
    - apply (get_Forall (fun x => - 2 ^ 31 <= x < 2 ^ 31)); [|lia].
      apply fill_send_buffer_ints.
    - apply (get_Forall (fun x => - 2 ^ 31 <= x < 2 ^ 31)); [exact Hints|lia]. }
  rewrite uint_small in Hc by lia. lia.
Qed.

Lemma import_targets_ascending_positive_witness :
  Sorted Z.lt (map fst (import_targets_data s2_rank1_state)) /\
  Forall (fun t => 0 <= fst t < 2 /\ 0 < snd t < 2 ^ 31)
         (import_targets_data s2_rank1_state) /\
  n_import_indices_data s2_rank1_state =
    uint (sum_counts (import_targets_data s2_rank1_state)).
Proof.
  apply (import_targets_ascending_positive s2_env1 s2_owned1_state
           (IndexSet.mk 10 []) IndexSet.empty s2_rank1_state).
  - vm_compute. reflexivity.
  - vm_compute. discriminate.
  - repeat constructor; simpl; lia.
Defined.

(** X5: the two sides of the count exchange agree.  If the process of rank
    [peer] filled its send buffer from ghost targets [peer_targets]
    (strictly ascending ranks below [n_procs], positive [int] counts) and
    the all-to-all delivered its entry for this process, then this process
    has the import target [(peer, c)] exactly when the peer has the ghost
    target [(my_pid, c)]. *)
Theorem import_target_mirrors_ghost_target e s targets n imports peer
    peer_targets :
  find_import_targets e s targets = Ok (n, imports) ->
  0 <= my_pid s < n_procs s ->
  0 <= peer < n_procs s ->
  peer <> my_pid s ->
  vsize peer_targets < 2 ^ 32 ->
  Sorted Z.lt (map fst peer_targets) ->
  Forall (fun t => 0 <= fst t < n_procs s /\ 0 < snd t < 2 ^ 31)
         peer_targets ->
  get (alltoall_recv e) peer =
    get (fill_send_buffer (n_procs s) peer_targets) (my_pid s) ->
  forall c, In (my_pid s, c) peer_targets <-> In (peer, c) imports.
Proof.
  intros Himp Hme Hpeer Hne Hn Hs Hall Hdeliver c.
  assert (Hranks : Forall (fun t : Z * Z => 0 <= fst t < n_procs s)
                          peer_targets)
    by (eapply Forall_impl; [exact Hall | cbn beta; intros t Ht; lia]).
  destruct (send_buffer_holds_counts (n_procs s) peer_targets)
    as (_ & Hentry & Hzero); [lia | exact Hn | exact Hs | exact Hranks |].
  unfold find_import_targets in Himp. inv_bind Himp as [] _.
  injection Himp as Himp. unfold collect_import_targets in Himp.
  set (rb := alltoall (my_pid s) (n_procs s)
               (fill_send_buffer (n_procs s) targets) (alltoall_recv e)) in *.
  assert (Hrb : get rb peer =
                get (fill_send_buffer (n_procs s) peer_targets) (my_pid s)).
  { unfold rb, alltoall.
    rewrite (get_map_upto _ (Z.to_nat peer)) by lia.
    rewrite Z.add_0_l. destruct (Z.eqb_spec peer (my_pid s)); [lia|].
    exact Hdeliver. }
  destruct (collect_loop rb (Z.to_nat (n_procs s)) 0 0 [])
    as (T' & Hrun & _ & Hchar & Hin); [lia|].
  rewrite Z.add_0_l, Z2Nat.id in Hrun, Hchar, Hin by lia.
  rewrite Hrun in Himp. cbn [app] in Himp. injection Himp as _ ->.
  rewrite List.Forall_forall in Hall. split.
  - intros Hc. pose proof (Hall _ Hc) as [_ Hcount]. cbn [snd] in Hcount.
    assert (Hv : get rb peer = c).
    { rewrite Hrb, (Hentry _ _ Hc). apply cint_small. lia. }
    specialize (Hin peer Hpeer). rewrite Hv in Hin.
    rewrite uint_small in Hin by lia. apply Hin. lia.
  - intros Hc. rewrite Forall_forall in Hchar.
    assert (Hc' : (peer, c) ∈ imports) by (apply list_elem_of_In; exact Hc).
    destruct (Hchar _ Hc') as (_ & Hpos & Hcount). cbn [fst snd] in *.
    destruct (in_dec Z.eq_dec (my_pid s) (map fst peer_targets)) as [Hyes|Hno].
    + apply in_map_iff in Hyes. destruct Hyes as ([r c'] & Hr & Hin').
      cbn [fst] in Hr. subst r.
      pose proof (Hall _ Hin') as [_ Hcount']. cbn [snd] in Hcount'.
      rewrite Hrb, (Hentry _ _ Hin'), cint_small in Hcount by lia.
      rewrite uint_small in Hcount by lia. subst c. exact Hin'.
    + rewrite Hrb, (Hzero _ Hme Hno) in Hpos. lia.
Qed.

Lemma import_target_mirrors_ghost_target_witness :
  In (1, 2) [(1, 2)] <-> In (0, 2) [(0, 2)].
Proof.
  apply (import_target_mirrors_ghost_target s2_env1 s2_owned1_state [] 2
           [(0, 2)] 0 [(1, 2)]).
  - vm_compute. reflexivity.
  - simpl. lia.
  - simpl. lia.
  - discriminate.
  - vm_compute. reflexivity.
  - simpl. repeat constructor.
  - repeat constructor; simpl; lia.
  - vm_compute. reflexivity.
Defined.

(** ** Compatibility *)

Lemma comm_same_iff c1 c2 :
  match MPI_Comm_compare c1 c2 with
  | MPI_IDENT | MPI_CONGRUENT => true
  | _ => false
  end = true <-> comm_group c1 = comm_group c2.
Proof.
  unfold MPI_Comm_compare.
  destruct (decide (comm_group c1 = comm_group c2)) as [E|N].
  - rewrite bool_decide_eq_true_2 by exact E.
    destruct (comm_context c1 =? comm_context c2); tauto.
  - rewrite bool_decide_eq_false_2 by exact N.
    destruct (same_members _ _); split; (discriminate || contradiction).
Qed.

(** What [is_compatible] compares on two distinct partitioners. *)
Lemma is_compatible_true_iff e store a b :
  a <> b ->
  is_compatible e store a b = Ok true <->
  (job_supports_mpi e = true ->
   ierr_Comm_compare e = MPI_SUCCESS /\
   comm_group (communicator (store b)) =
     comm_group (communicator (store a))) /\
  global_size (store a) = global_size (store b) /\
  local_range_data (store a) = local_range_data (store b) /\
  IndexSet.normalise (IndexSet.ranges (ghost_indices_data (store a))) =
    IndexSet.normalise (IndexSet.ranges (ghost_indices_data (store b))).
Proof.
  intros Hne. unfold is_compatible.
  destruct (Z.eqb_spec b a) as [->|_]; [contradiction|].
  assert (Hfields :
    (global_size (store a) =? global_size (store b)) &&
    pair_eqb (local_range_data (store a)) (local_range_data (store b)) &&
    IndexSet.eqb (ghost_indices_data (store a)) (ghost_indices_data (store b))
    = true <->
    global_size (store a) = global_size (store b) /\
    local_range_data (store a) = local_range_data (store b) /\
    IndexSet.normalise (IndexSet.ranges (ghost_indices_data (store a))) =
      IndexSet.normalise (IndexSet.ranges (ghost_indices_data (store b)))).
  { rewrite !andb_true_iff, Z.eqb_eq. unfold pair_eqb, IndexSet.eqb.
    rewrite andb_true_iff, !Z.eqb_eq, bool_decide_eq_true.
    destruct (local_range_data (store a)) as [x y],
             (local_range_data (store b)) as [x' y']. cbn [fst snd].
    split.
    - intros [[? [? ?]] ?]. repeat split; congruence.
    - intros (? & E & ?). injection E as ? ?. tauto. }
  destruct (job_supports_mpi e); cbn [mbind result_bind].
  - unfold AssertThrowMPI, AssertThrow.
    destruct (Z.eqb_spec (ierr_Comm_compare e) MPI_SUCCESS) as [Hok|Hbad];
      cbn [mbind result_bind].
    + pose proof (comm_same_iff (communicator (store b))
                    (communicator (store a))) as Hcomm.
      destruct (match MPI_Comm_compare _ _ with
                | MPI_IDENT | MPI_CONGRUENT => true | _ => false end);
        cbn [negb].
      * split.
        -- intros H. injection H as H. apply Hfields in H.
           split; [|exact H]. intros _. split; [exact Hok|]. apply Hcomm.
           reflexivity.
        -- intros [_ H]. f_equal. apply Hfields. exact H.
      * split; [discriminate|]. intros [H _].
        destruct (H eq_refl) as [_ Hg]. apply Hcomm in Hg. discriminate.
    + split; [discriminate|]. intros [H _].
      destruct (H eq_refl) as [Hok _]. contradiction.
  - cbn [negb]. split.
    + intros H. injection H as H. apply Hfields in H.
      split; [discriminate | exact H].
    + intros [_ H]. f_equal. apply Hfields. exact H.
Qed.

(** X6: [is_compatible] is transitive: if it holds for [a] and [b] and for
    [b] and [c], it holds for [a] and [c]. *)
Theorem is_compatible_transitive e store a b c :
  is_compatible e store a b = Ok true ->
  is_compatible e store b c = Ok true ->
  is_compatible e store a c = Ok true.
Proof.
  intros Hab Hbc.
  destruct (Z.eq_dec a c) as [->|Hac].
  { unfold is_compatible. rewrite Z.eqb_refl. reflexivity. }
  destruct (Z.eq_dec a b) as [->|Hab']; [exact Hbc|].
  destruct (Z.eq_dec b c) as [->|Hbc']; [exact Hab|].
  apply is_compatible_true_iff in Hab; [|exact Hab'].
  apply is_compatible_true_iff in Hbc; [|exact Hbc'].
  apply is_compatible_true_iff; [exact Hac|].
  destruct Hab as (Hm1 & Hg1 & Hl1 & Hr1), Hbc as (Hm2 & Hg2 & Hl2 & Hr2).
  split; [|repeat split; congruence].
  intros Hmpi. destruct (Hm1 Hmpi) as [Hok E1], (Hm2 Hmpi) as [_ E2].
  split; [exact Hok | congruence].
Qed.

Lemma is_compatible_transitive_witness :
  is_compatible s2_env0 s2_store 0 2 = Ok true.
Proof.
  apply (is_compatible_transitive s2_env0 s2_store 0 1 2).
  - vm_compute. reflexivity.
  - vm_compute. reflexivity.
Defined.

(** X7: when [is_compatible] holds for two distinct partitioners, they have
    the same [global_size], the same local range, ghost sets with the same
    elements and, under MPI, communicators over the same group of
    processes in the same order. *)
Theorem is_compatible_means_same_partition e store a b :
  a <> b ->
  is_compatible e store a b = Ok true ->
  global_size (store a) = global_size (store b) /\
  local_range_data (store a) = local_range_data (store b) /\
  (forall i, IndexSet.is_element (ghost_indices_data (store a)) i =
             IndexSet.is_element (ghost_indices_data (store b)) i) /\
  IndexSet.n_elements (ghost_indices_data (store a)) =
    IndexSet.n_elements (ghost_indices_data (store b)) /\
  (job_supports_mpi e = true ->
   comm_group (communicator (store a)) =
     comm_group (communicator (store b))).
Proof.
  intros Hne H. apply is_compatible_true_iff in H; [|exact Hne].
  destruct H as (Hm & Hg & Hl & Hr).
  split; [exact Hg|]. split; [exact Hl|]. split.
  { intros i. unfold IndexSet.is_element.
    rewrite <- (IndexSetFacts.in_ranges_normalise i
                  (IndexSet.ranges (ghost_indices_data (store a)))).
    rewrite <- (IndexSetFacts.in_ranges_normalise i
                  (IndexSet.ranges (ghost_indices_data (store b)))).
    rewrite Hr. reflexivity. }
  split.
  { unfold IndexSet.n_elements. rewrite Hr. reflexivity. }
  intros Hmpi. destruct (Hm Hmpi) as [_ E]. symmetry. exact E.
Qed.

Lemma is_compatible_means_same_partition_witness :
  global_size (s2_store 0) = global_size (s2_store 1) /\
  local_range_data (s2_store 0) = local_range_data (s2_store 1) /\
  (forall i, IndexSet.is_element (ghost_indices_data (s2_store 0)) i =
             IndexSet.is_element (ghost_indices_data (s2_store 1)) i) /\
  IndexSet.n_elements (ghost_indices_data (s2_store 0)) =
    IndexSet.n_elements (ghost_indices_data (s2_store 1)) /\
  (job_supports_mpi s2_env0 = true ->
   comm_group (communicator (s2_store 0)) =
     comm_group (communicator (s2_store 1))).
Proof.
  apply (is_compatible_means_same_partition s2_env0 s2_store 0 1).
  - discriminate.
  - vm_compute. reflexivity.
Defined.

Lemma fold_min_one own others :
  own <= 1 ->
  fold_right Z.min own others = 1 <-> own = 1 /\ Forall (fun v => 1 <= v) others.
Proof.
  intros Hown. induction others as [|v vs IH]; cbn [fold_right].
  - split; [intros ->; split; [reflexivity | constructor] | tauto].
  - assert (Hle : fold_right Z.min own vs <= 1).
    { clear IH. induction vs as [|w ws IHw]; cbn [fold_right]; lia. }
    split.
    + intros H. assert (E : fold_right Z.min own vs = 1) by lia.
      apply IH in E. destruct E as [E1 E2].
      split; [exact E1|]. constructor; [lia | exact E2].
    + intros [E1 E2]. apply Forall_cons in E2. destruct E2 as [Hv E2].
      assert (E : fold_right Z.min own vs = 1) by (apply IH; tauto). lia.
Qed.

(** X8: under MPI with a successful reduction, [is_globally_compatible]
    holds on a process exactly when [is_compatible] holds on it and every
    other process contributed 1 (or more) to the minimum: one process on
    which [is_compatible] fails makes it fail everywhere. *)
Theorem is_globally_compatible_iff e store this part others :
  job_supports_mpi e = true ->
  ierr_Allreduce e = MPI_SUCCESS ->
  is_globally_compatible e store this part others = Ok true <->
  is_compatible e store this part = Ok true /\
  Forall (fun v => 1 <= v) others.
Proof.
  intros Hmpi Herr. unfold is_globally_compatible, MPI_min.
  rewrite Hmpi. unfold AssertThrowMPI, AssertThrow.
  rewrite Herr, Z.eqb_refl.
  destruct (is_compatible e store this part) as [[|]|x];
    cbn [mbind result_bind].
  - pose proof (fold_min_one 1 others (Z.le_refl 1)) as Hmin. split.
    + intros H. injection H as H. apply Z.eqb_eq in H.
      apply Hmin in H. split; [reflexivity | apply H].
    + intros [_ H]. f_equal. apply Z.eqb_eq. apply Hmin.
      split; [reflexivity | exact H].
  - split.
    + intros H. injection H as H. apply Z.eqb_eq in H.
      apply (fold_min_one 0 others) in H; lia.
    + intros [H _]. discriminate.
  - split; [discriminate | intros [H _]; discriminate].
Qed.

Lemma is_globally_compatible_iff_witness :
  is_globally_compatible s2_env0 s2_store 0 1 [1] = Ok true <->
  is_compatible s2_env0 s2_store 0 1 = Ok true /\
  Forall (fun v => 1 <= v) [1].
Proof.
  apply (is_globally_compatible_iff s2_env0 s2_store 0 1 [1]).
  - reflexivity.
  - reflexivity.
Defined.

(** ** The fixup on the owners of a range *)

Lemma starts_next lrs : forall cur N (j : nat) r,
  laid_out cur lrs N ->
  lrs !! j = Some r ->
  fst r < snd r ->
  (starts cur lrs ++ [N]) !! S j = Some (snd r).
Proof.
  induction lrs as [|r0 t IH]; intros cur N j r H Hj Hr; [discriminate|].
  cbn [laid_out] in H. cbn [starts app]. destruct j as [|j].
  - injection Hj as ->.
    destruct H as [(He & _) | (_ & _ & H)]; [lia|].
    destruct (Z.ltb_spec (fst r) (snd r)); [|lia].
    change ((?a :: ?l) !! 1%nat) with (l !! 0%nat).
    destruct t as [|r' t']; cbn [starts app laid_out] in *.
    + rewrite H. reflexivity.
    + reflexivity.
  - change ((r0 :: t) !! S j) with (t !! j) in Hj.
    change ((?a :: ?l) !! S (S j)) with (l !! S j).
    destruct H as [(He & _ & H) | (Hne & _ & H)].
    + destruct (Z.ltb_spec (fst r0) (snd r0)); [lia|].
      apply (IH cur N j r H Hj Hr).
    + destruct (Z.ltb_spec (fst r0) (snd r0)); [|lia].
      apply (IH (snd r0) N j r H Hj Hr).
Qed.

(** The fixup on a layout: [first_index] becomes the starts of the
    processes followed by N, and an owner keeps its range. *)
Lemma fixup_on_layout e s lrs rl first_index :
  2 <= n_procs s < 2 ^ 32 - 1 ->
  vsize (lrs ++ [rl]) = n_procs s ->
  0 <= my_pid s ->
  (lrs ++ [rl]) !! Z.to_nat (my_pid s) = Some (local_range_data s) ->
  root_first e = fst (get (lrs ++ [rl]) 0) ->
  gathered_second e = map snd (lrs ++ [rl]) ->
  laid_out 0 (lrs ++ [rl]) (global_size s) ->
  endpoint_exchange e s = Ok first_index ->
  exists lr',
    local_range_fixup e s first_index =
      Ok (starts 0 (lrs ++ [rl]) ++ [global_size s], lr') /\
    (fst (local_range_data s) < snd (local_range_data s) ->
     lr' = local_range_data s).
Proof.
  intros Hp Hlen Hme0 Hme Hroot Hgather Hlay Hex.
  pose proof (endpoint_exchange_layout e s lrs rl first_index
                Hp Hlen Hme0 Hme Hroot Hgather Hex) as Hfi.
  pose proof (filled_layout lrs rl (global_size s) (n_procs s) Hlen Hlay)
    as Hfilled.
  rewrite <- Hfi in Hfilled.
  destruct (starts_lookup _ _ _ _ _ Hlay Hme) as (sj & Hsj & Hbound & Hr).
  set (F := starts 0 (lrs ++ [rl]) ++ [global_size s]) in *.
  assert (HF : get F (my_pid s) = sj).
  { apply get_lookup. unfold F. rewrite lookup_app_l; [exact Hsj|].
    apply lookup_lt_Some in Hsj. exact Hsj. }
  unfold local_range_fixup.
  destruct (Z.ltb_spec 0 (global_size s)) as [Hpos|Hz].
  - rewrite Hfilled, HF.
    destruct (Z.eqb_spec sj (fst (local_range_data s))) as [E|N]; cbn [negb].
    + eexists. split; [reflexivity|]. reflexivity.
    + assert (Hemp : fst (local_range_data s) = snd (local_range_data s))
        by (destruct Hr as [?|[_ ?]]; [assumption | congruence]).
      rewrite Assert_holds by (apply Z.eqb_eq; exact Hemp).
      eexists. split; [reflexivity|]. intros Hne. lia.
  - rewrite Hfilled. eexists. split; [reflexivity|]. reflexivity.
Qed.

(** X9: on processes whose local ranges lay out [0, N), where N is the
    [global_size] of the process at hand (as after the constructors; after
    a [reinit] that changes the size of the index space it is not), the
    [first_index] that the fixup leaves brackets the range of every owner:
    for each rank [j] with a non-empty range, [first_index[j]] is its start
    and [first_index[j + 1]] its end; and a process that owns a non-empty
    range keeps its local range through the fixup and through the whole
    call. *)
Theorem first_index_brackets_owners e s local_ranges first_index :
  2 <= n_procs s < 2 ^ 32 - 1 ->
  vsize local_ranges = n_procs s ->
  0 <= my_pid s ->
  local_ranges !! Z.to_nat (my_pid s) = Some (local_range_data s) ->
  root_first e = fst (get local_ranges 0) ->
  gathered_second e = map snd local_ranges ->
  laid_out 0 local_ranges (global_size s) ->
  endpoint_exchange e s = Ok first_index ->
  exists first_index' local_range',
    local_range_fixup e s first_index = Ok (first_index', local_range') /\
    (forall j r, 0 <= j -> local_ranges !! Z.to_nat j = Some r ->
                 fst r < snd r ->
                 get first_index' j = fst r /\
                 get first_index' (j + 1) = snd r) /\
    (fst (local_range_data s) < snd (local_range_data s) ->
     local_range' = local_range_data s /\
     forall g larger s',
       set_ghost_indices e s g larger = Ok s' ->
       local_range_data s' = local_range_data s).
Proof.
  intros Hp Hlen Hme0 Hme Hroot Hgather Hlay Hex.
  destruct (exists_last (l := local_ranges)) as (lrs & rl & ->).
  { intros ->. unfold vsize in Hlen. simpl in Hlen. lia. }
  destruct (fixup_on_layout e s lrs rl first_index
              Hp Hlen Hme0 Hme Hroot Hgather Hlay Hex) as (lr' & Hfix & Hkeep).
  eexists _, lr'. split; [exact Hfix|]. split.
  - intros j r Hj Hl Hr.
    destruct (starts_lookup _ _ _ _ _ Hlay Hl) as (sj & Hsj & _ & Hcase).
    split.
    + apply get_lookup. rewrite lookup_app_l by
        (apply lookup_lt_Some in Hsj; exact Hsj).
      rewrite Hsj. f_equal. destruct Hcase as [?|[_ ?]]; lia.
    + apply get_lookup.
      replace (Z.to_nat (j + 1)) with (S (Z.to_nat j)) by lia.
      apply (starts_next _ _ _ _ _ Hlay Hl Hr).
  - intros Hne. specialize (Hkeep Hne). subst lr'.
    split; [reflexivity|].
    intros g larger s' Hrun. apply set_ghost_indices_Ok in Hrun.
    destruct Hrun as [_ [[Hlt _] | [_ Hb]]]; [lia|].
    destruct Hb as (fi & fi' & Hex' & Hfix' & _).
    rewrite Hex in Hex'. injection Hex' as <-.
    rewrite Hfix in Hfix'. injection Hfix' as _ ->. reflexivity.
Qed.

Lemma first_index_brackets_owners_witness :
  exists first_index' local_range',
    local_range_fixup s5_env1 s5_owner_state [0; 0; 8; 8] =
      Ok (first_index', local_range') /\
    (forall j r, 0 <= j -> s5_local_ranges !! Z.to_nat j = Some r ->
                 fst r < snd r ->
                 get first_index' j = fst r /\
                 get first_index' (j + 1) = snd r) /\
    (0 < 8 ->
     local_range' = (0, 8) /\
     forall g larger s',
       set_ghost_indices s5_env1 s5_owner_state g larger = Ok s' ->
       local_range_data s' = (0, 8)).
Proof.
  apply (first_index_brackets_owners s5_env1 s5_owner_state s5_local_ranges
           [0; 0; 8; 8]).
  - simpl. lia.
  - reflexivity.
  - vm_compute. discriminate.
  - reflexivity.
  - reflexivity.
  - reflexivity.
  - simpl. left. split; [reflexivity|]. split; [left; reflexivity|].
    right. split; [lia|]. split; [reflexivity|].
    left. split; [reflexivity|]. split; [left; reflexivity|]. reflexivity.
  - vm_compute. reflexivity.
Defined.

(** ** The stored ghost set *)

Lemma size_normalise_ghosts s g :
  IndexSet.size (normalise_ghosts s g) =
  IndexSet.size (locally_owned_range_data s).
Proof.
  unfold normalise_ghosts, IndexSet.compress, IndexSet.subtract_set.
  cbn [IndexSet.size].
  destruct (Z.eqb_spec (IndexSet.size g)
              (IndexSet.size (locally_owned_range_data s))) as [E|N];
    cbn [negb]; [exact E | reflexivity].
Qed.

Lemma no_elements_iff s :
  IndexSet.n_elements s = 0 <-> forall i, IndexSet.is_element s i = false.
Proof.
  unfold IndexSet.is_element. split.
  - intros H i. rewrite <- IndexSetFacts.in_ranges_normalise.
    rewrite (IndexSetFacts.n_elements_zero _ H). reflexivity.
  - intros H. unfold IndexSet.n_elements.
    pose proof (IndexSetFacts.canonical_normalise (IndexSet.ranges s)) as Hc.
    destruct (IndexSet.normalise (IndexSet.ranges s)) as [|r t] eqn:E;
      [reflexivity|].
    pose proof (IndexSetFacts.canonical_head _ _ Hc) as Hr.
    specialize (H (fst r)).
    rewrite <- IndexSetFacts.in_ranges_normalise, E in H.
    cbn [IndexSet.in_ranges existsb] in H. unfold IndexSet.in_range in H.
    destruct (Z.leb_spec (fst r) (fst r)); [|lia].
    destruct (Z.ltb_spec (fst r) (snd r)); [|lia]. discriminate H.
Qed.

(** X10: after a successful [set_ghost_indices] the stored ghost set holds
    exactly the requested indices that are not owned, over the index space
    of the owned set; [n_ghost_indices_data] is its element count, below
    2^32 - 1, and it is 0 exactly when every requested index is owned. *)
Theorem ghost_set_is_requested_minus_owned e s g larger s' :
  set_ghost_indices e s g larger = Ok s' ->
  (forall i,
     IndexSet.is_element (ghost_indices_data s') i =
     IndexSet.is_element g i &&
     negb (IndexSet.is_element (locally_owned_range_data s) i)) /\
  IndexSet.size (ghost_indices_data s') =
    IndexSet.size (locally_owned_range_data s) /\
  n_ghost_indices_data s' = IndexSet.n_elements (ghost_indices_data s') /\
  0 <= n_ghost_indices_data s' < UINT_MAX /\
  (n_ghost_indices_data s' = 0 <->
   forall i, IndexSet.is_element g i = true ->
             IndexSet.is_element (locally_owned_range_data s) i = true).
Proof.
  intros H. apply set_ghost_indices_Ok in H.
  destruct H as [(Hov & Eg & En & _) _].
  pose proof (IndexSetFacts.n_elements_nonneg (normalise_ghosts s g)) as Hnn.
  assert (En' : n_ghost_indices_data s' =
                IndexSet.n_elements (normalise_ghosts s g)).
  { rewrite En. apply uint_small. unfold UINT_MAX in Hov. lia. }
  rewrite Eg, En'. split; [intros i; apply is_element_normalise_ghosts|].
  split; [apply size_normalise_ghosts|]. split; [reflexivity|].
  split; [lia|].
  rewrite no_elements_iff. split.
  - intros Hno i Hi. specialize (Hno i).
    rewrite is_element_normalise_ghosts, Hi in Hno.
    destruct (IndexSet.is_element (locally_owned_range_data s) i);
      [reflexivity | discriminate Hno].
  - intros Hall i. rewrite is_element_normalise_ghosts.
    destruct (IndexSet.is_element g i) eqn:Hi; [|reflexivity].
    rewrite (Hall i Hi). reflexivity.
Qed.

Lemma ghost_set_is_requested_minus_owned_witness :
  (forall i,
     IndexSet.is_element (ghost_indices_data s2_ready_state) i =
     IndexSet.is_element (IndexSet.mk 10 [(3, 7)]) i &&
     negb (IndexSet.is_element (locally_owned_range_data s2_owned_state) i)) /\
  IndexSet.size (ghost_indices_data s2_ready_state) =
    IndexSet.size (locally_owned_range_data s2_owned_state) /\
  n_ghost_indices_data s2_ready_state =
    IndexSet.n_elements (ghost_indices_data s2_ready_state) /\
  0 <= n_ghost_indices_data s2_ready_state < UINT_MAX /\
  (n_ghost_indices_data s2_ready_state = 0 <->
   forall i, IndexSet.is_element (IndexSet.mk 10 [(3, 7)]) i = true ->
             IndexSet.is_element (locally_owned_range_data s2_owned_state) i =
             true).
Proof.
  apply (ghost_set_is_requested_minus_owned s2_env0 s2_owned_state
           (IndexSet.mk 10 [(3, 7)]) IndexSet.empty s2_ready_state).
  vm_compute. reflexivity.
Defined.

(** ** Whether any process has ghosts *)

Lemma set_ghost_indices_have_ghost e s g larger s' :
  set_ghost_indices e s g larger = Ok s' ->
  exists total,
    MPI_sum e (n_ghost_indices_data s') = Ok total /\
    have_ghost_indices s' = (0 <? total).
Proof.
  unfold set_ghost_indices. intros H.
  inv_bind H as [] _. inv_bind H as [] _. inv_bind H as total Htotal.
  exists total.
  destruct (Z.ltb_spec (n_procs s) 2) as [Hp|Hp].
  - inv_bind H as [] _. inv_bind H as [] _. inv_bind H as [] _.
    injection H as <-. cbn [n_ghost_indices_data have_ghost_indices].
    split; [exact Htotal | reflexivity].
  - inv_bind H as fi _. inv_bind H as [fi' lr] _.
    inv_bind H as gt _. inv_bind H as [nimp it] _.
    inv_bind H as expanded _. inv_bind H as [chunks ii] _.
    inv_bind H as [[sc sub] nl] _.
    injection H as <-. cbn [n_ghost_indices_data have_ghost_indices].
    split; [exact Htotal | reflexivity].
Qed.

(** X11: after a successful [set_ghost_indices], [have_ghost_indices]
    tells whether any process has a ghost: under MPI, when the ghost counts
    of all processes together fit an [unsigned int], it is true exactly
    when this process or another one has a ghost; without MPI, exactly when
    this process has one. *)
Theorem have_ghost_indices_iff_any e s g larger s' :
  set_ghost_indices e s g larger = Ok s' ->
  0 <= others_n_ghost e ->
  n_ghost_indices_data s' + others_n_ghost e < 2 ^ 32 ->
  have_ghost_indices s' = true <->
  0 < n_ghost_indices_data s' \/
  (job_supports_mpi e = true /\ 0 < others_n_ghost e).
Proof.
  intros H Ho Hfit.
  assert (Hn : 0 <= n_ghost_indices_data s').
  { apply set_ghost_indices_Ok in H. destruct H as [(_ & _ & -> & _) _].
    unfold uint. apply Z.mod_pos_bound. lia. }
  apply set_ghost_indices_have_ghost in H.
  destruct H as (total & Hsum & ->). unfold MPI_sum in Hsum.
  destruct (job_supports_mpi e).
  - inv_bind Hsum as [] _. injection Hsum as <-.
    rewrite uint_small by lia. rewrite Z.ltb_lt. split.
    + intros Hpos.
      destruct (Z.ltb_spec 0 (n_ghost_indices_data s')); [left; lia|].
      right. split; [reflexivity | lia].
    + intros [Hpos | [_ Hpos]]; lia.
  - injection Hsum as <-. rewrite Z.ltb_lt. split.
    + intros Hpos. left. exact Hpos.
    + intros [Hpos | [Habs _]]; [exact Hpos | discriminate Habs].
Qed.

Lemma have_ghost_indices_iff_any_witness :
  have_ghost_indices s2_rank1_state = true <->
  0 < n_ghost_indices_data s2_rank1_state \/
  (job_supports_mpi s2_env1 = true /\ 0 < others_n_ghost s2_env1).
Proof.
  apply (have_ghost_indices_iff_any s2_env1 s2_owned1_state
           (IndexSet.mk 10 []) IndexSet.empty s2_rank1_state).
  - vm_compute. reflexivity.
  - vm_compute. discriminate.
  - vm_compute. reflexivity.
Defined.

(** ** What set_owned_indices and reinit leave alone *)

Lemma size_add_range a b t : IndexSet.size (IndexSet.add_range a b t) = IndexSet.size t.
Proof. unfold IndexSet.add_range. destruct (a <? b); reflexivity. Qed.

Lemma set_owned_indices_Ok e s owned s' :
  set_owned_indices e s owned = Ok s' ->
  global_size s' = global_size s /\
  communicator s' = communicator s /\
  have_ghost_indices s' = have_ghost_indices s /\
  IndexSet.size (locally_owned_range_data s') = IndexSet.size owned /\
  IndexSet.size (ghost_indices_data s') = IndexSet.size owned /\
  dof (snd (local_range_data s') - fst (local_range_data s')) < UINT_MAX /\
  n_procs s' =
    (if job_supports_mpi e then n_mpi_processes (communicator s) else 1) /\
  my_pid s' =
    (if job_supports_mpi e then this_mpi_process e (communicator s) else 0) /\
  plan_unchanged_but_range s s'.
Proof.
  unfold set_owned_indices. intros H.
  inv_bind H as [] _. inv_bind H as [] Hov. apply AssertThrow_Ok in Hov.
  apply Z.ltb_lt in Hov. injection H as <-.
  cbn [global_size communicator have_ghost_indices locally_owned_range_data
       ghost_indices_data local_range_data n_procs my_pid].
  unfold IndexSet.compress at 1. cbn [IndexSet.size].
  rewrite size_add_range. cbn [IndexSet.set_size IndexSet.size IndexSet.compress].
  repeat split; try reflexivity. exact Hov.
Qed.



(** ** The exchange of the indices *)

Lemma for_each_get_upto {A St} `{Inhabited A} (f : St -> A -> result St)
    (l : list A) : forall pre st,
  for_each (upto (vsize pre) (vsize pre + vsize l))
           (fun st i => f st (get (pre ++ l) i)) st =
  for_each l f st.
Proof.
  induction l as [|a t IH]; intros pre st.
  - rewrite upto_nil by (unfold vsize; simpl; lia). reflexivity.
  - rewrite upto_cons by (rewrite vsize_cons; pose proof (vsize_nonneg t); lia).
    cbn [for_each]. rewrite get_middle.
    destruct (f st a) as [st'|x]; [|reflexivity]. cbn [mbind result_bind].
    specialize (IH (pre ++ [a]) st').
    rewrite <- app_assoc in IH. cbn [app] in IH.
    rewrite vsize_app in IH. change (vsize [a]) with 1 in IH.
    rewrite vsize_cons.
    replace (vsize pre + (1 + vsize t)) with (vsize pre + 1 + vsize t) by lia.
    exact IH.
Qed.

Lemma post_receives_list e n import_targets :
  post_receives e n import_targets =
  for_each import_targets (receive_from e) (replicate (Z.to_nat n) 0, 0).
Proof.
  unfold post_receives.
  rewrite <- (for_each_get_upto (receive_from e) import_targets []).
  change (vsize []) with 0. rewrite Z.add_0_l. cbn [app].
  apply for_each_ext. intros [buf start] i. reflexivity.
Qed.

Lemma vsize_messages e ts :
  Forall (fun t => vsize (incoming e (fst t)) = snd t) ts ->
  vsize (messages e ts) = sum_counts ts.
Proof.
  unfold messages, sum_counts.
  induction 1 as [|t ts Ht _ IH]; [reflexivity|].
  cbn [flat_map fold_right]. rewrite vsize_app, Ht, IH. reflexivity.
Qed.

(** The receive loop from a buffer whose first entries [received] are
    filled. *)
Lemma receive_loop e ts : forall received r,
  Forall (fun t => vsize (incoming e (fst t)) = snd t) ts ->
  vsize received + sum_counts ts < 2 ^ 32 ->
  for_each ts (receive_from e)
    (received ++ replicate (Z.to_nat (sum_counts ts)) 0, vsize received) =
    Ok r ->
  r = (received ++ messages e ts, vsize received + sum_counts ts).
Proof.
  induction ts as [|t ts IH]; intros received r Hall Hfit H.
  - cbn [for_each] in H. injection H as <-.
    unfold messages, sum_counts. cbn. rewrite Z.add_0_r. reflexivity.
  - apply Forall_cons in Hall. destruct Hall as [Ht Hall].
    pose proof (vsize_messages e ts Hall) as Hrest.
    pose proof (vsize_nonneg (messages e ts)).
    pose proof (vsize_nonneg (incoming e (fst t))).
    pose proof (vsize_nonneg received).
    assert (Hsum : sum_counts (t :: ts) = snd t + sum_counts ts)
      by reflexivity.
    rewrite Hsum in *.
    cbn [for_each] in H. inv_bind H as st Hstep.
    unfold receive_from in Hstep. inv_bind Hstep as [] _.
    injection Hstep as <-. cbn [fst snd] in H.
    rewrite uint_small in H by lia.
    assert (Hbuf :
      list_inserts (Z.to_nat (vsize received))
        (take (Z.to_nat (snd t)) (incoming e (fst t)))
        (received ++ replicate (Z.to_nat (snd t + sum_counts ts)) 0) =
      (received ++ incoming e (fst t)) ++
        replicate (Z.to_nat (sum_counts ts)) 0).
    { rewrite take_ge by (unfold vsize in Ht; lia).
      unfold vsize. rewrite Nat2Z.id.
      rewrite <- (Nat.add_0_r (length received)).
      rewrite list_inserts_app_r.
      rewrite Z2Nat.inj_add, replicate_add by lia.
      rewrite list_inserts_0_r
        by (rewrite length_replicate; unfold vsize in Ht; lia).
      rewrite app_assoc. reflexivity. }
    rewrite Hbuf in H.
    replace (vsize received + snd t)
      with (vsize (received ++ incoming e (fst t))) in H
      by (rewrite vsize_app; lia).
    apply IH in H; [|exact Hall | rewrite vsize_app; lia].
    rewrite H. rewrite vsize_app, <- app_assoc.
    unfold messages. cbn [flat_map]. f_equal. lia.
Qed.

Lemma post_receives_messages e n import_targets buf start :
  post_receives e n import_targets = Ok (buf, start) ->
  n = sum_counts import_targets ->
  n < 2 ^ 32 ->
  Forall (fun t => vsize (incoming e (fst t)) = snd t) import_targets ->
  buf = messages e import_targets.
Proof.
  intros Hrecv Hn Hfit Hall.
  rewrite post_receives_list in Hrecv. subst n.
  apply (receive_loop e import_targets [] _ Hall) in Hrecv.
  - cbn [app] in Hrecv. injection Hrecv as -> _. reflexivity.
  - change (vsize []) with 0. lia.
Qed.

(** X13: when the receive buffer has as many entries as the import targets
    announce and every sender's message has the announced length, a
    successful exchange returns the messages of the senders, one after the
    other in the order of the import targets. *)
Theorem exchange_returns_messages e n_ghost n_import ghost_targets
    import_targets expanded :
  exchange_indices e n_ghost n_import ghost_targets import_targets =
    Ok expanded ->
  n_import = sum_counts import_targets ->
  n_import < 2 ^ 32 ->
  Forall (fun t => vsize (incoming e (fst t)) = snd t) import_targets ->
  expanded = messages e import_targets.
Proof.
  intros H Hn Hfit Hall. unfold exchange_indices in H.
  inv_bind H as [buf start] Hrecv. inv_bind H as [] _.
  inv_bind H as start' _. inv_bind H as [] _. inv_bind H as [] _.
  injection H as <-.
  exact (post_receives_messages e n_import import_targets buf start
           Hrecv Hn Hfit Hall).
Qed.

Lemma exchange_returns_messages_witness :
  [10; 11; 12; 20] = messages s4_env0 [(1, 4)].
Proof.
  apply (exchange_returns_messages s4_env0 0 4 [] [(1, 4)] [10; 11; 12; 20]).
  - vm_compute. reflexivity.
  - reflexivity.
  - reflexivity.
  - repeat constructor.
Defined.

(** ** From the messages to the stored ranges *)

Lemma sorted_lt_length (l : list Z) : forall lo hi,
  Sorted Z.lt l -> Forall (fun x => lo <= x < hi) l -> lo <= hi ->
  vsize l <= hi - lo.
Proof.
  induction l as [|a l IH]; intros lo hi Hs Hall Hle.
  - change (vsize []) with 0. lia.
  - apply Forall_cons in Hall. destruct Hall as [Ha Hall].
    apply Sorted_StronglySorted in Hs; [|intros x y z; lia].
    apply StronglySorted_inv in Hs. destruct Hs as [Hs Hgt].
    rewrite vsize_cons.
    assert (vsize l <= hi - (a + 1)); [|lia].
    apply IH; [apply StronglySorted_Sorted, Hs | | lia].
    rewrite Forall_forall in *. intros x Hx.
    specialize (Hall x Hx). specialize (Hgt x Hx). lia.
Qed.

Lemma Forall_messages (P : Z -> Prop) e ts :
  Forall (fun t => Forall P (incoming e (fst t))) ts ->
  Forall P (messages e ts).
Proof.
  unfold messages. induction 1 as [|t ts Ht _ IH]; [constructor|].
  cbn [flat_map]. apply Forall_app. split; assumption.
Qed.

Lemma received_chunk_messages e ts p :
  Forall (fun t => vsize (incoming e (fst t)) = snd t) ts ->
  0 <= p < vsize ts ->
  received_chunk ts (messages e ts) p = incoming e (fst (get ts p)).
Proof.
  intros Hall Hp. unfold received_chunk, chunk_start.
  assert (Hl : ts !! Z.to_nat p = Some (get ts p)).
  { unfold get. apply list_lookup_lookup_total_lt. unfold vsize in Hp. lia. }
  pose proof (take_drop_middle ts (Z.to_nat p) (get ts p) Hl) as Hsplit.
  assert (Ht : vsize (incoming e (fst (get ts p))) = snd (get ts p)).
  { rewrite Forall_forall in Hall. apply Hall.
    eapply list_elem_of_lookup_2. exact Hl. }
  replace (messages e ts)
    with (messages e (take (Z.to_nat p) ts ++
                      get ts p :: drop (S (Z.to_nat p)) ts))
    by (f_equal; exact Hsplit).
  unfold messages. rewrite flat_map_app. cbn [flat_map].
  fold (messages e (take (Z.to_nat p) ts)).
  fold (messages e (drop (S (Z.to_nat p)) ts)).
  rewrite <- (vsize_messages e (take (Z.to_nat p) ts))
    by (apply Forall_take, Hall).
  rewrite <- Ht, <- vsize_app. apply slice_middle.
Qed.

Lemma compress_import_indices_ranges e lr targets expanded old_chunks
    chunks ranges :
  snd lr - fst lr <= 2 ^ 32 - 1 ->
  vsize targets < 2 ^ 32 - 1 ->
  Forall (fun t => 0 <= snd t) targets ->
  vsize expanded = sum_counts targets ->
  sum_counts targets < 2 ^ 32 ->
  Forall (fun x => fst lr <= x < snd lr) expanded ->
  (forall p, 0 <= p < vsize targets ->
             Sorted Z.lt (received_chunk targets expanded p)) ->
  compress_import_indices e lr targets expanded old_chunks =
    Ok (chunks, ranges) ->
  Forall (fun r => 0 <= fst r /\ fst r < snd r <= snd lr - fst lr) ranges.
Proof.
  intros H1 H2 H3 H4 H5 H6 H7 Hcomp.
  pose proof (vsize_nonneg targets) as Hn.
  destruct (chunks_loop e lr targets expanded H1 H2 H3 H4 H5 H6 H7
              (Z.to_nat (vsize targets)) 0 []
              (put (resize (vsize targets + 1) old_chunks) 0 0))
    as (F & chunks' & shift' & Hrun & _ & _ & _ & Hok & _).
  { lia. } { lia. } { reflexivity. }
  { apply get_put_same. rewrite vsize_resize; lia. }
  { rewrite vsize_put. apply vsize_resize. lia. }
  unfold compress_import_indices in Hcomp.
  change (chunk_start targets 0) with 0 in Hrun.
  rewrite Hrun in Hcomp. cbn [mbind result_bind app] in Hcomp.
  rewrite (sanity_check_passes e lr H1 F Hok) in Hcomp.
  cbn [mbind result_bind] in Hcomp. injection Hcomp as _ <-. exact Hok.
Qed.

Lemma find_import_targets_shape e s targets n imports :
  find_import_targets e s targets = Ok (n, imports) ->
  0 <= n_procs s ->
  Sorted Z.lt (map fst imports) /\
  Forall (fun t => 0 <= fst t < n_procs s) imports /\
  n = uint (sum_counts imports).
Proof.
  intros Himp Hp. unfold find_import_targets in Himp. inv_bind Himp as [] _.
  injection Himp as Himp. unfold collect_import_targets in Himp.
  set (rb := alltoall (my_pid s) (n_procs s)
               (fill_send_buffer (n_procs s) targets)
               (alltoall_recv e)) in *.
  destruct (collect_loop rb (Z.to_nat (n_procs s)) 0 0 [])
    as (T' & Hrun & Hs & Hall & _); [lia|].
  rewrite Z.add_0_l, Z2Nat.id in Hrun, Hall by lia.
  rewrite Hrun in Himp. cbn [app] in Himp. rewrite Z.add_0_l in Himp.
  injection Himp as Hn HT. subst T'.
  split; [exact Hs|]. split; [|symmetry; exact Hn].
  eapply Forall_impl; [exact Hall|]. cbn beta. intros t (Hr & _). exact Hr.
Qed.

(** X14: the round trip of the import indices.  After a successful
    [set_ghost_indices] among two or more processes, when every sender's
    message has the announced length, lies in the local range and is
    strictly ascending, the ranges stored for import target [p] are
    non-empty, ascending and not adjacent and decode to exactly the message
    of that target's rank, shifted to local offsets; and every stored range
    lies within the local size. *)
Theorem import_ranges_decode_to_messages e s g larger s' :
  set_ghost_indices e s g larger = Ok s' ->
  2 <= n_procs s < 2 ^ 32 - 1 ->
  snd (local_range_data s') - fst (local_range_data s') <= 2 ^ 32 - 1 ->
  sum_counts (import_targets_data s') < 2 ^ 32 ->
  Forall (fun t =>
            vsize (incoming e (fst t)) = snd t /\
            Forall (fun x => fst (local_range_data s') <= x <
                             snd (local_range_data s'))
                   (incoming e (fst t)) /\
            Sorted Z.lt (incoming e (fst t)))
         (import_targets_data s') ->
  Forall (fun r => 0 <= fst r /\
                   fst r < snd r <=
                     snd (local_range_data s') - fst (local_range_data s'))
         (import_indices_data s') /\
  forall p, 0 <= p < vsize (import_targets_data s') ->
    separated (stored_chunk (import_indices_chunks_by_rank_data s')
                            (import_indices_data s') p) /\
    decode (stored_chunk (import_indices_chunks_by_rank_data s')
                         (import_indices_data s') p) =
      map (fun x => x - fst (local_range_data s'))
          (incoming e (fst (get (import_targets_data s') p))).
Proof.
  intros H Hp Hlr Hsum Hmsgs. apply set_ghost_indices_Ok in H.
  destruct H as [_ [[Hlt _] | [_ Hb]]]; [lia|].
  destruct Hb as (fi & fi' & _ & _ & _ & Himp & expanded & Hex & Hcomp & _).
  set (its := import_targets_data s') in *.
  set (lr := local_range_data s') in *.
  destruct (find_import_targets_shape _ _ _ _ _ Himp) as (Hs & Hranks & Hn);
    [lia|].
  assert (Hlen : Forall (fun t => vsize (incoming e (fst t)) = snd t) its).
  { eapply Forall_impl; [exact Hmsgs|]. cbn beta. intros t (Ht & _). exact Ht. }
  assert (Hcounts : Forall (fun t => 0 <= snd t) its).
  { eapply Forall_impl; [exact Hlen|]. cbn beta. intros t <-.
    apply vsize_nonneg. }
  pose proof (sum_counts_nonneg its Hcounts) as Hsum0.
  rewrite uint_small in Hn by lia.
  assert (Hexp : expanded = messages e its).
  { unfold exchange_indices in Hex.
    inv_bind Hex as [buf start] Hrecv. inv_bind Hex as [] _.
    inv_bind Hex as start' _. inv_bind Hex as [] _. inv_bind Hex as [] _.
    injection Hex as <-.
    eapply post_receives_messages; [exact Hrecv | exact Hn | lia | exact Hlen]. }
  subst expanded.
  assert (Hfit : vsize its < 2 ^ 32 - 1).
  { pose proof (sorted_lt_length (map fst its) 0 (n_procs s) Hs) as Hle.
    unfold vsize in Hle. rewrite length_map in Hle. fold (vsize its) in Hle.
    assert (vsize its <= n_procs s - 0); [|lia].
    apply Hle; [|lia]. apply Forall_fmap.
    eapply Forall_impl; [exact Hranks|]. cbn. intros t Ht. exact Ht. }
  assert (Hrange : Forall (fun x => fst lr <= x < snd lr) (messages e its)).
  { apply Forall_messages. eapply Forall_impl; [exact Hmsgs|]. cbn beta.
    intros t (_ & Ht & _). exact Ht. }
  assert (Hasc : forall p, 0 <= p < vsize its ->
                   Sorted Z.lt (received_chunk its (messages e its) p)).
  { intros p Hpp. rewrite received_chunk_messages by assumption.
    rewrite Forall_forall in Hmsgs.
    apply (Hmsgs (get its p)). unfold get. apply list_elem_of_lookup_total_2.
    unfold vsize in Hpp. lia. }
  pose proof (vsize_messages e its Hlen) as Hsize.
  split.
  - exact (compress_import_indices_ranges e lr its (messages e its) _ _ _
             Hlr Hfit Hcounts Hsize Hsum Hrange Hasc Hcomp).
  - intros p Hpp.
    destruct (compress_import_indices_spec e lr its (messages e its)
                Hlr Hfit Hcounts Hsize Hsum Hrange Hasc
                (import_indices_chunks_by_rank_data s))
      as (chunks & ranges & Hrun & _ & _ & _ & Hall).
    rewrite Hrun in Hcomp. injection Hcomp as <- <-.
    destruct (Hall p Hpp) as (_ & Hsep & Hdec).
    rewrite received_chunk_messages in Hdec by assumption.
    split; assumption.
Qed.

Lemma import_ranges_decode_to_messages_witness :
  Forall (fun r => 0 <= fst r /\ fst r < snd r <= 50 - 0)
         (import_indices_data s4_rank0_state) /\
  separated (stored_chunk (import_indices_chunks_by_rank_data s4_rank0_state)
                          (import_indices_data s4_rank0_state) 0) /\
  decode (stored_chunk (import_indices_chunks_by_rank_data s4_rank0_state)
                       (import_indices_data s4_rank0_state) 0) =
    map (fun x => x - 0) [10; 11; 12; 20].
Proof.
  destruct (import_ranges_decode_to_messages s4_env0 s4_owned_state
              (IndexSet.mk 100 []) IndexSet.empty s4_rank0_state)
    as [Hranges Hchunks].
  - vm_compute. reflexivity.
  - simpl. lia.
  - simpl. lia.
  - vm_compute. reflexivity.
  - repeat constructor; simpl; lia.
  - split; [exact Hranges|]. apply (Hchunks 0). vm_compute.
    split; [discriminate | reflexivity].
Defined.

(** ** The mapping into the larger ghost set *)

Lemma subset_step_value numbering shift st ii :
  subset_step numbering shift st ii =
  subset_value st (get numbering (uint (shift + ii))).
Proof. destruct st. reflexivity. Qed.

Lemma foldl_ext_all {A B} (f g : B -> A -> B) (l : list A) :
  (forall b a, f b a = g b a) -> forall b, foldl f b l = foldl g b l.
Proof.
  intros Hfg. induction l as [|a l IH]; intros b; [reflexivity|].
  cbn [foldl]. rewrite Hfg. apply IH.
Qed.

Lemma foldl_window {St} (f : St -> Z -> St) (l : list Z)
    (shift : Z) (n : nat) : forall k st,
  0 <= shift -> 0 <= k ->
  shift + k + Z.of_nat n <= vsize l ->
  vsize l < 2 ^ 32 ->
  foldl (fun st ii => f st (get l (uint (shift + ii)))) st
        (upto k (k + Z.of_nat n)) =
  foldl f st (take n (drop (Z.to_nat (shift + k)) l)).
Proof.
  induction n as [|n IH]; intros k st Hs Hk Hn Hl.
  - rewrite upto_nil by lia. reflexivity.
  - rewrite upto_cons by lia. rewrite drop_get by lia.
    cbn [take foldl]. rewrite uint_small by lia.
    replace (k + Z.of_nat (S n)) with (k + 1 + Z.of_nat n) by lia.
    rewrite IH by lia. do 3 f_equal. lia.
Qed.

(** The loop inside a run: the state holds the open range [[a, b)] and
    [last_index = b - 1]. *)
Lemma subset_run xs : forall C a b,
  0 <= a < b -> b <= 2 ^ 32 - 1 ->
  Forall position_fits xs ->
  exists b' T last',
    foldl subset_value (b - 1, C ++ [(a, b)]) xs =
      (last', C ++ (a, b') :: T) /\
    decode ((a, b') :: T) = upto a b ++ xs /\
    Forall range_fits ((a, b') :: T) /\
    (Sorted Z.lt (b - 1 :: xs) ->
     Sorted (fun r1 r2 => snd r1 < fst r2) ((a, b') :: T)).
Proof.
  induction xs as [|x xs IH]; intros C a b Hab Hb Hin.
  - exists b, [], (b - 1). cbn [foldl].
    split; [reflexivity|]. split.
    { unfold decode. cbn [flat_map fst snd]. reflexivity. }
    split; [|intros _; repeat constructor].
    repeat constructor; cbn [fst snd]; lia.
  - apply Forall_cons in Hin. destruct Hin as [Hx Hin].
    pose proof Hx as Hx'. unfold position_fits in Hx'.
    cbn [foldl]. unfold subset_value at 2. cbn [fst snd].
    replace (b - 1 + 1) with b by lia. rewrite (uint_small b) by lia.
    rewrite (uint_small (x + 1)) by lia.
    destruct (Z.eqb_spec x b) as [E|N].
    + rewrite update_back_snoc. unfold incr_second. cbn [fst snd].
      rewrite uint_small by lia. subst x.
      destruct (IH C a (b + 1)) as (b' & T & last' & Hrun & Hdec & Hfit & Hs);
        [lia | lia | exact Hin |].
      replace (b + 1 - 1) with b in Hrun, Hs by lia.
      exists b', T, last'. split; [exact Hrun|].
      split; [|split].
      * rewrite Hdec. rewrite upto_snoc by lia. rewrite <- app_assoc.
        reflexivity.
      * exact Hfit.
      * intros Hsorted. apply Hs. apply Sorted_inv in Hsorted.
        exact (proj1 Hsorted).
    + destruct (IH (C ++ [(a, b)]) x (x + 1))
        as (b' & T & last' & Hrun & Hdec & Hfit & Hs);
        [lia | lia | exact Hin |].
      replace (x + 1 - 1) with x in Hrun, Hs by lia.
      exists b, ((x, b') :: T), last'.
      rewrite Hrun. rewrite <- app_assoc. cbn [app].
      split; [reflexivity|]. split; [|split].
      * change (decode ((a, b) :: (x, b') :: T))
          with (upto a b ++ decode ((x, b') :: T)).
        rewrite Hdec. rewrite upto_single. reflexivity.
      * constructor; [|exact Hfit]. unfold range_fits. cbn [fst snd]. lia.
      * intros Hsorted. apply Sorted_inv in Hsorted.
        destruct Hsorted as [Hsorted Hhd]. apply HdRel_inv in Hhd.
        constructor; [apply Hs, Hsorted|]. constructor. cbn [fst snd]. lia.
Qed.

(** One chunk: the positions are stored as ranges that decode to them,
    after the ranges [C] of the chunks before. *)
Lemma subset_chunk_loop xs C :
  Forall position_fits xs ->
  exists R last',
    foldl subset_value (uint (invalid_unsigned_int - 1), C) xs =
      (last', C ++ R) /\
    decode R = xs /\
    Forall range_fits R /\
    (Sorted Z.lt xs -> Sorted (fun r1 r2 => snd r1 < fst r2) R).
Proof.
  intros Hin. destruct xs as [|x xs].
  - exists [], (uint (invalid_unsigned_int - 1)). cbn [foldl].
    rewrite app_nil_r. split; [reflexivity|]. split; [reflexivity|].
    split; [constructor | intros _; constructor].
  - apply Forall_cons in Hin. destruct Hin as [Hx Hin].
    pose proof Hx as Hx'. unfold position_fits in Hx'.
    cbn [foldl]. unfold subset_value at 2. cbn [fst snd].
    replace (x =? uint (uint (invalid_unsigned_int - 1) + 1)) with false
      by (symmetry; apply Z.eqb_neq; vm_compute uint; lia).
    rewrite (uint_small (x + 1)) by lia.
    destruct (subset_run xs C x (x + 1))
      as (b' & T & last' & Hrun & Hdec & Hfit & Hs);
      [lia | lia | exact Hin |].
    replace (x + 1 - 1) with x in Hrun, Hs by lia.
    exists ((x, b') :: T), last'.
    split; [exact Hrun|]. split; [|split; assumption].
    rewrite Hdec, upto_single. reflexivity.
Qed.

Section SubsetPass.
Variable targets : list (Z * Z).
Variable numbering : list Z.
Hypothesis targets_fit : vsize targets < 2 ^ 32 - 1.
Hypothesis counts_nonneg : Forall (fun t => 0 <= snd t) targets.
Hypothesis numbering_size : vsize numbering = sum_counts targets.
Hypothesis numbering_fits : sum_counts targets < 2 ^ 32.
Hypothesis positions_fit : Forall position_fits numbering.

(** One iteration of the outer loop. *)
Lemma subset_chunk_step p C chunks :
  0 <= p < vsize targets ->
  vsize C <= chunk_start targets p ->
  exists R,
    subset_chunk targets numbering (chunk_start targets p, C, chunks) p =
      (chunk_start targets (p + 1), C ++ R,
       put chunks (p + 1) (vsize (C ++ R))) /\
    decode R = received_chunk targets numbering p /\
    Forall range_fits R /\
    (Sorted Z.lt (received_chunk targets numbering p) ->
     Sorted (fun r1 r2 => snd r1 < fst r2) R) /\
    vsize (C ++ R) <= chunk_start targets (p + 1).
Proof.
  intros Hp HC. pose proof (count_nonneg targets counts_nonneg p Hp) as Hc.
  pose proof (chunk_start_bounds targets p counts_nonneg) as Hb.
  pose proof (chunk_start_bounds targets (p + 1) counts_nonneg) as Hb'.
  pose proof (chunk_start_next targets p Hp) as Hnext.
  unfold subset_chunk.
  rewrite (foldl_ext_all _ _ _ (subset_step_value numbering _)).
  pose proof (foldl_window subset_value numbering
                (chunk_start targets p) (Z.to_nat (snd (get targets p)))
                0 (uint (invalid_unsigned_int - 1), C)) as Hloop.
  rewrite Z.add_0_l, Z.add_0_r, Z2Nat.id in Hloop by lia.
  rewrite Hloop by lia. clear Hloop.
  assert (Hchunk : take (Z.to_nat (snd (get targets p)))
                     (drop (Z.to_nat (chunk_start targets p)) numbering) =
                   received_chunk targets numbering p).
  { unfold received_chunk, slice. do 2 f_equal. lia. }
  rewrite Hchunk.
  destruct (subset_chunk_loop (received_chunk targets numbering p) C)
    as (R & last' & Hrun & Hdec & Hfit & Hs).
  { unfold received_chunk, slice. apply Forall_take, Forall_drop.
    exact positions_fit. }
  rewrite Hrun.
  assert (HR : vsize R <= snd (get targets p)).
  { assert (Hne : Forall (fun r => fst r < snd r) R).
    { eapply Forall_impl; [exact Hfit|]. unfold range_fits. cbn beta.
      intros r Hr. lia. }
    pose proof (vsize_decode R Hne) as Hle.
    rewrite Hdec in Hle.
    rewrite (vsize_received_chunk targets numbering counts_nonneg
               numbering_size p Hp) in Hle. exact Hle. }
  pose proof (vsize_nonneg C). pose proof (vsize_nonneg R).
  exists R. rewrite vsize_app. rewrite !uint_small by lia.
  rewrite <- Hnext. split; [reflexivity|].
  split; [exact Hdec|]. split; [exact Hfit|]. split; [exact Hs | lia].
Qed.

(** The outer loop from chunk [p] on, [k] chunks to go. *)
Lemma subset_chunks_loop (k : nat) : forall p C chunks,
  Z.of_nat k = vsize targets - p ->
  0 <= p ->
  vsize C <= chunk_start targets p ->
  get chunks p = vsize C ->
  vsize chunks = vsize targets + 1 ->
  exists F chunks' shift',
    foldl (subset_chunk targets numbering)
          (chunk_start targets p, C, chunks) (upto p (vsize targets)) =
      (shift', C ++ F, chunks') /\
    vsize chunks' = vsize targets + 1 /\
    (forall q, 0 <= q <= p -> get chunks' q = get chunks q) /\
    get chunks' (vsize targets) = vsize (C ++ F) /\
    Forall range_fits F /\
    (forall q, p <= q < vsize targets ->
       get chunks' q <= get chunks' (q + 1) /\
       decode (stored_chunk chunks' (C ++ F) q) =
         received_chunk targets numbering q /\
       (Sorted Z.lt (received_chunk targets numbering q) ->
        separated (stored_chunk chunks' (C ++ F) q))).
Proof.
  induction k as [|k IH]; intros p C chunks Hk Hp HC Hget Hsize.
  - rewrite upto_nil by lia. exists [], chunks, (chunk_start targets p).
    rewrite app_nil_r. cbn [foldl].
    split; [reflexivity|]. split; [exact Hsize|].
    split; [reflexivity|]. split.
    { replace (vsize targets) with p by lia. exact Hget. }
    split; [constructor|]. intros q Hq. lia.
  - rewrite upto_cons by lia. cbn [foldl].
    destruct (subset_chunk_step p C chunks)
      as (R & Hstep & Hdec & Hfit & Hs & HC'); [lia | exact HC |].
    rewrite Hstep.
    destruct (IH (p + 1) (C ++ R) (put chunks (p + 1) (vsize (C ++ R))))
      as (F & chunks' & shift' & Hrun & Hsize' & Hsame & Hlast & HfitF & Hall).
    { lia. } { lia. } { exact HC'. }
    { apply get_put_same. lia. }
    { rewrite vsize_put. exact Hsize. }
    exists (R ++ F), chunks', shift'.
    rewrite app_assoc. split; [exact Hrun|]. split; [exact Hsize'|].
    assert (Hp0 : get chunks' p = vsize C).
    { rewrite Hsame by lia. rewrite get_put_other by lia. exact Hget. }
    assert (Hp1 : get chunks' (p + 1) = vsize (C ++ R)).
    { rewrite Hsame by lia. apply get_put_same. lia. }
    split.
    { intros q Hq. rewrite Hsame by lia. apply get_put_other; lia. }
    split; [exact Hlast|].
    split; [apply Forall_app; split; assumption|].
    intros q Hq. destruct (Z.eq_dec q p) as [->|Hne].
    + unfold stored_chunk. rewrite Hp0, Hp1. rewrite <- app_assoc.
      rewrite slice_middle.
      split; [rewrite vsize_app; pose proof (vsize_nonneg R); lia|].
      split; [exact Hdec|]. intros Hsorted. split; [|apply Hs, Hsorted].
      eapply Forall_impl; [exact Hfit|]. unfold range_fits. cbn beta.
      intros r Hr. lia.
    + apply Hall. lia.
Qed.

End SubsetPass.



(** ** An owned set that is not contiguous *)

Lemma canonical_gap r1 r2 rest :
  IndexSetFacts.canonical (r1 :: r2 :: rest) ->
  IndexSet.in_ranges (snd r1) (r1 :: r2 :: rest) = false.
Proof.
  intros Hc. inversion Hc as [| |r c t Hr Hrc Hct]; subst.
  assert (Hrest : forall l lo, IndexSetFacts.canonical l ->
            (forall h t', l = h :: t' -> lo < fst h) ->
            IndexSet.in_ranges lo l = false).
  { induction l as [|h t' IH]; intros lo Hl Hlo; [reflexivity|].
    cbn [IndexSet.in_ranges existsb]. fold (IndexSet.in_ranges lo t').
    pose proof (Hlo h t' eq_refl) as Hh.
    unfold IndexSet.in_range.
    replace (fst h <=? lo) with false by (symmetry; apply Z.leb_gt; lia).
    cbn [andb orb]. apply IH; [eapply IndexSetFacts.canonical_tail, Hl|].
    intros h' t'' ->. inversion Hl; subst.
    pose proof (IndexSetFacts.canonical_head _ _ Hl). lia. }
  change (IndexSet.in_ranges (snd r1) (r1 :: r2 :: rest))
    with (IndexSet.in_range (snd r1) r1 ||
          IndexSet.in_ranges (snd r1) (r2 :: rest)).
  unfold IndexSet.in_range at 1.
  replace (snd r1 <? snd r1) with false by (symmetry; apply Z.ltb_ge; lia).
  rewrite andb_false_r. cbn [orb]. apply Hrest; [exact Hct|].
  intros h t' E. injection E as <- _. exact Hrc.
Qed.

(** X16: the contiguity of the owned set is checked in debug mode only.
    For an owned set of two or more separate ranges (fewer than 2^32 - 1
    elements, below 2^64), [set_owned_indices] throws in a debug build; in
    a release build it returns, and the local range it sets starts at the
    first owned index and has as many entries as the set has elements, so
    that it contains the index right after the first range, which is not
    owned. *)
Theorem noncontiguous_owned_set e s owned r1 r2 rest :
  IndexSet.normalise (IndexSet.ranges owned) = r1 :: r2 :: rest ->
  0 <= fst r1 ->
  fst r1 + IndexSet.n_elements owned < 2 ^ 64 ->
  IndexSet.n_elements owned < UINT_MAX ->
  if debug e then set_owned_indices e s owned = Throw ExcNotContiguous
  else
    exists s',
      set_owned_indices e s owned = Ok s' /\
      local_range_data s' =
        (fst r1, fst r1 + IndexSet.n_elements owned) /\
      fst r1 <= snd r1 < fst r1 + IndexSet.n_elements owned /\
      IndexSet.is_element owned (snd r1) = false.
Proof.
  intros Hn Ha Hb Hc.
  pose proof (IndexSetFacts.canonical_normalise (IndexSet.ranges owned)) as Hcan.
  rewrite Hn in Hcan.
  pose proof (IndexSetFacts.canonical_head _ _ Hcan) as Hr1.
  pose proof (IndexSetFacts.canonical_head _ _
                (IndexSetFacts.canonical_tail _ _ Hcan)) as Hr2.
  pose proof (proj1 (IndexSetFacts.total_canonical rest
                (IndexSetFacts.canonical_tail _ _
                   (IndexSetFacts.canonical_tail _ _ Hcan)))) as Hrest.
  assert (Htotal : IndexSet.n_elements owned =
                   IndexSet.width r1 + (IndexSet.width r2 + IndexSet.total rest)).
  { unfold IndexSet.n_elements. rewrite Hn. reflexivity. }
  unfold IndexSet.width in Htotal.
  assert (Hnot : IndexSet.is_contiguous owned = false).
  { unfold IndexSet.is_contiguous. rewrite Hn. reflexivity. }
  unfold set_owned_indices, Assert. rewrite Hnot.
  destruct (debug e); [reflexivity|]. cbn [mbind result_bind].
  rewrite IndexSetFacts.n_elements_compress.
  assert (Hnth : IndexSet.nth_index_in_set (IndexSet.compress owned) 0 = fst r1).
  { unfold IndexSet.nth_index_in_set, IndexSet.compress. cbn [IndexSet.ranges].
    rewrite IndexSetFacts.normalise_idem, Hn. cbn [IndexSet.nth_in].
    unfold IndexSet.width.
    replace (0 <? snd r1 - fst r1) with true by (symmetry; apply Z.ltb_lt; lia).
    lia. }
  rewrite Hnth.
  replace (0 <? IndexSet.n_elements owned) with true
    by (symmetry; apply Z.ltb_lt; lia).
  cbn [fst snd]. rewrite (dof_small (fst r1 + IndexSet.n_elements owned)) by lia.
  replace (fst r1 + IndexSet.n_elements owned - fst r1)
    with (IndexSet.n_elements owned) by lia.
  rewrite dof_small by (unfold UINT_MAX in Hc; lia).
  unfold AssertThrow.
  replace (IndexSet.n_elements owned <? UINT_MAX) with true
    by (symmetry; apply Z.ltb_lt; exact Hc).
  cbn [mbind result_bind]. eexists. split; [reflexivity|].
  cbn [local_range_data]. split; [reflexivity|]. split; [lia|].
  unfold IndexSet.is_element.
  rewrite <- IndexSetFacts.in_ranges_normalise, Hn.
  apply canonical_gap, Hcan.
Qed.

Lemma noncontiguous_owned_set_witness :
  exists s',
    set_owned_indices stale_env1 (Partitioner_default stale_env1)
                      (IndexSet.mk 10 [(0, 2); (4, 6)]) = Ok s' /\
    local_range_data s' =
      (0, 0 + IndexSet.n_elements (IndexSet.mk 10 [(0, 2); (4, 6)])) /\
    0 <= 2 < 0 + IndexSet.n_elements (IndexSet.mk 10 [(0, 2); (4, 6)]) /\
    IndexSet.is_element (IndexSet.mk 10 [(0, 2); (4, 6)]) 2 = false.
Proof.
  apply (noncontiguous_owned_set stale_env1 (Partitioner_default stale_env1)
           (IndexSet.mk 10 [(0, 2); (4, 6)]) (0, 2) (4, 6) []).
  - vm_compute. reflexivity.
  - simpl. lia.
  - vm_compute. reflexivity.
  - vm_compute. reflexivity.
Defined.

(** ** The serial constructor *)

(** X17: the constructor from a size builds, without a single MPI call,
    exactly the partitioner that the constructor from an owned set builds
    for the full range [[0, size)] on the communicator of the process
    alone, for every size below 2^32 - 1. *)
Theorem serial_constructor_is_parallel_alone e size :
  0 <= size < UINT_MAX ->
  Partitioner_owned e (IndexSet.mk size [(0, size)]) (MPI_COMM_SELF e) =
  Ok (Partitioner_size e size).
Proof.
  intros Hs. unfold UINT_MAX in Hs.
  unfold Partitioner_owned, set_owned_indices, Partitioner_size.
  assert (Hc : IndexSet.is_contiguous (IndexSet.mk size [(0, size)]) = true).
  { unfold IndexSet.is_contiguous, IndexSet.normalise. cbn.
    destruct (0 <? size); apply bool_decide_eq_true; cbn; lia. }
  rewrite Hc, Assert_true. cbn [mbind result_bind].
  rewrite IndexSetFacts.n_elements_compress.
  assert (Hpid : this_mpi_process e (MPI_COMM_SELF e) = 0).
  { unfold this_mpi_process, MPI_COMM_SELF. cbn. rewrite Z.eqb_refl.
    reflexivity. }
  assert (Hnp : n_mpi_processes (MPI_COMM_SELF e) = 1) by reflexivity.
  cbn [Partitioner_init communicator local_range_data locally_owned_range_data
       ghost_indices_data global_size n_ghost_indices_data ghost_targets_data
       import_indices_data n_import_indices_data import_targets_data
       import_indices_chunks_by_rank_data n_ghost_indices_in_larger_set
       ghost_indices_subset_chunks_by_rank_data ghost_indices_subset_data
       have_ghost_indices IndexSet.size IndexSet.compress].
  rewrite Hpid, Hnp. rewrite (dof_small size) by lia.
  replace (if job_supports_mpi e then 0 else 0) with 0
    by (destruct (job_supports_mpi e); reflexivity).
  replace (if job_supports_mpi e then 1 else 1) with 1
    by (destruct (job_supports_mpi e); reflexivity).
  destruct (Z.ltb_spec 0 size) as [Hpos|Hzero].
  - assert (Hn : IndexSet.n_elements (IndexSet.mk size [(0, size)]) = size).
    { unfold IndexSet.n_elements, IndexSet.normalise. cbn.
      replace (0 <? size) with true by (symmetry; apply Z.ltb_lt; lia).
      cbn. unfold IndexSet.width. cbn. lia. }
    assert (Hnth : IndexSet.nth_index_in_set
                     (IndexSet.compress (IndexSet.mk size [(0, size)])) 0 = 0).
    { unfold IndexSet.nth_index_in_set, IndexSet.compress.
      cbn [IndexSet.ranges].
      rewrite IndexSetFacts.normalise_idem. unfold IndexSet.normalise. cbn.
      replace (0 <? size) with true by (symmetry; apply Z.ltb_lt; lia).
      cbn. unfold IndexSet.width. cbn.
      replace (0 <? size - 0) with true by (symmetry; apply Z.ltb_lt; lia).
      reflexivity. }
    rewrite Hn, Hnth.
    replace (0 <? size) with true by (symmetry; apply Z.ltb_lt; lia).
    cbn [fst snd]. rewrite Z.add_0_l, (dof_small size) by lia.
    rewrite Z.sub_0_r, (dof_small size) by lia.
    unfold AssertThrow, UINT_MAX.
    replace (size <? 2 ^ 32 - 1) with true by (symmetry; apply Z.ltb_lt; lia).
    reflexivity.
  - assert (size = 0) by lia. subst size. reflexivity.
Qed.

Lemma serial_constructor_is_parallel_alone_witness :
  Partitioner_owned (quiet_env 0) (IndexSet.mk 10 [(0, 10)])
                    (MPI_COMM_SELF (quiet_env 0)) =
  Ok (Partitioner_size (quiet_env 0) 10).
Proof.
  apply (serial_constructor_is_parallel_alone (quiet_env 0) 10).
  unfold UINT_MAX. lia.
Defined.

(** ** A process on its own *)

Lemma Assert_debug_Ok e cond x u :
  debug e = true -> Assert e cond x = Ok u -> cond = true.
Proof.
  unfold Assert. intros ->. apply AssertThrow_Ok.
Qed.

(** X18: in a debug build, a process on its own never leaves
    [set_ghost_indices] with a ghost: if the call returns, every requested
    index is owned, and both the ghost count and the import count are 0;
    a request for an index that is not owned makes the call throw. *)
Theorem single_process_debug_has_no_ghosts e s g larger s' :
  set_ghost_indices e s g larger = Ok s' ->
  n_procs s < 2 ->
  debug e = true ->
  n_ghost_indices_data s' = 0 /\
  n_import_indices_data s' = 0 /\
  (forall i, IndexSet.is_element (ghost_indices_data s') i = false) /\
  (forall i, IndexSet.is_element g i = true ->
             IndexSet.is_element (locally_owned_range_data s) i = true).
Proof.
  intros H Hp Hd. unfold set_ghost_indices in H.
  inv_bind H as [] _. inv_bind H as [] _. inv_bind H as total _.
  replace (n_procs s <? 2) with true in H by (symmetry; apply Z.ltb_lt; lia).
  inv_bind H as [] Hnone. inv_bind H as [] Himp. inv_bind H as [] Hcount.
  apply (Assert_debug_Ok e _ _ _ Hd) in Hnone, Himp, Hcount.
  apply Z.eqb_eq in Hnone, Himp, Hcount. injection H as <-.
  cbn [n_ghost_indices_data n_import_indices_data ghost_indices_data].
  split; [exact Hcount|]. split; [exact Himp|].
  rewrite no_elements_iff in Hnone. split; [exact Hnone|].
  intros i Hi. specialize (Hnone i).
  rewrite is_element_normalise_ghosts, Hi in Hnone.
  destruct (IndexSet.is_element (locally_owned_range_data s) i);
    [reflexivity | discriminate Hnone].
Qed.

Lemma single_process_debug_has_no_ghosts_witness :
  exists s',
    set_ghost_indices (quiet_env 0) (Partitioner_size (quiet_env 0) 10)
                      (IndexSet.mk 10 [(2, 4)]) IndexSet.empty = Ok s' /\
    n_ghost_indices_data s' = 0 /\
    n_import_indices_data s' = 0 /\
    (forall i, IndexSet.is_element (ghost_indices_data s') i = false) /\
    (forall i, IndexSet.is_element (IndexSet.mk 10 [(2, 4)]) i = true ->
               IndexSet.is_element
                 (locally_owned_range_data (Partitioner_size (quiet_env 0) 10))
                 i = true).
Proof.
  eexists. split; [vm_compute; reflexivity|].
  apply (single_process_debug_has_no_ghosts (quiet_env 0)
           (Partitioner_size (quiet_env 0) 10) (IndexSet.mk 10 [(2, 4)])
           IndexSet.empty).
  - vm_compute. reflexivity.
  - vm_compute. reflexivity.
  - reflexivity.
Defined.
